(** * Status-filter / query-parameter synchronisation of the platform list pages

    A shallow embedding of
    - [features/platform/components/StatusTabs.tsx]
      (the status tabs: decoding of the [!status_matches] query parameter,
      [handleStatusChange], the tab list, the active index and the geometry
      of the two indicators),
    - [features/platform/inventory/screens/InventoryListPageClient.tsx]
      ([handlePageChange], [handleResetFilters] and the choice of the render
      state), and
    - [generateApiKeyToken] of the API-key dialog,
    together with the parts of the JavaScript platform these functions call:
    strings as sequences of UTF-16 code units, [decodeURIComponent],
    [JSON.parse], [JSON.stringify] on an array of strings, and
    [URLSearchParams] (constructor from a string, [get], [set], [delete],
    [toString]).

    Numbers that the code only uses as integers (page numbers, counts, pixel
    measurements) are modelled in [Z]. *)

From stdpp Require Import base option list gmap strings.
From Stdlib Require Import NArith ZArith Lia.

Local Ltac Zify.zify_post_hook ::= Z.to_euclidean_division_equations.

(** ** JavaScript strings *)

(** A string is its sequence of UTF-16 code units. [js] reads an ASCII
    literal. *)
Definition js (s : string) : list N :=
  map Ascii.N_of_ascii (String.list_ascii_of_string s).

Module JSString.
Local Open Scope N_scope.

Definition is_high_surrogate (c : N) : bool := (0xD800 <=? c) && (c <=? 0xDBFF).
Definition is_low_surrogate (c : N) : bool := (0xDC00 <=? c) && (c <=? 0xDFFF).
Definition is_surrogate (c : N) : bool := (0xD800 <=? c) && (c <=? 0xDFFF).

(** The code point of a surrogate pair. *)
Definition pair_code_point (hi lo : N) : N :=
  0x10000 + (hi - 0xD800) * 0x400 + (lo - 0xDC00).

(** Conversion to a scalar value string: surrogate pairs are joined, a lone
    surrogate becomes U+FFFD. *)
Fixpoint to_scalar_values (s : list N) : list N :=
  match s with
  | [] => []
  | c :: t =>
      if is_high_surrogate c then
        match t with
        | d :: t' =>
            if is_low_surrogate d then pair_code_point c d :: to_scalar_values t'
            else 0xFFFD :: to_scalar_values t
        | [] => [0xFFFD]
        end
      else if is_low_surrogate c then 0xFFFD :: to_scalar_values t
      else c :: to_scalar_values t
  end.

(** A list that is a string: each element a 16-bit code unit. *)
Definition code_units (s : list N) : Prop := Forall (fun c => c < 0x10000) s.

(** The scalar values: the code points that are not surrogates. *)
Definition is_scalar_value (cp : N) : bool :=
  (cp <? 0xD800) || ((0xE000 <=? cp) && (cp <=? 0x10FFFF)).

(** Well-formed UTF-16: 16-bit code units, every surrogate in a pair. *)
Fixpoint well_formed (s : list N) : bool :=
  match s with
  | [] => true
  | c :: t =>
      if is_high_surrogate c then
        match t with
        | d :: t' => is_low_surrogate d && well_formed t'
        | [] => false
        end
      else negb (is_low_surrogate c) && (c <? 0x10000) && well_formed t
  end.

(** UTF16EncodeCodePoint. *)
Definition utf16_encode (cp : N) : list N :=
  if cp <? 0x10000 then [cp]
  else [0xD800 + (cp - 0x10000) / 0x400; 0xDC00 + (cp - 0x10000) mod 0x400].

Definition of_code_points (cps : list N) : list N := concat (map utf16_encode cps).

(** The UTF-8 encoding of a scalar value. *)
Definition utf8_encode (cp : N) : list N :=
  if cp <? 0x80 then [cp]
  else if cp <? 0x800 then [0xC0 + cp / 64; 0x80 + cp mod 64]
  else if cp <? 0x10000 then
    [0xE0 + cp / 4096; 0x80 + (cp / 64) mod 64; 0x80 + cp mod 64]
  else
    [0xF0 + cp / 262144; 0x80 + (cp / 4096) mod 64;
     0x80 + (cp / 64) mod 64; 0x80 + cp mod 64].

Definition utf8_encode_string (s : list N) : list N :=
  concat (map utf8_encode (to_scalar_values s)).

(** The value of a hexadecimal digit, in either case. *)
Definition hexval (c : N) : option N :=
  if (48 <=? c) && (c <=? 57) then Some (c - 48)
  else if (65 <=? c) && (c <=? 70) then Some (c - 55)
  else if (97 <=? c) && (c <=? 102) then Some (c - 87)
  else None.

Definition hexdigit_lower (d : N) : N := if d <? 10 then 48 + d else 87 + d.
Definition hexdigit_upper (d : N) : N := if d <? 10 then 48 + d else 55 + d.

(** The UTF-8 decoder of the Encoding standard, which replaces every
    ill-formed sequence by U+FFFD.  [U_pending cp remaining lower upper]:
    [remaining] continuation bytes are still needed, the next one within
    [lower..upper]. *)
Inductive utf8_state :=
| U_start
| U_pending (cp : N) (remaining : nat) (lower upper : N).

Definition utf8_lead (b : N) : utf8_state * list N :=
  if b <=? 0x7F then (U_start, [b])
  else if (0xC2 <=? b) && (b <=? 0xDF) then (U_pending (b - 0xC0) 1 0x80 0xBF, [])
  else if (0xE0 <=? b) && (b <=? 0xEF) then
    (U_pending (b - 0xE0) 2 (if b =? 0xE0 then 0xA0 else 0x80)
               (if b =? 0xED then 0x9F else 0xBF), [])
  else if (0xF0 <=? b) && (b <=? 0xF4) then
    (U_pending (b - 0xF0) 3 (if b =? 0xF0 then 0x90 else 0x80)
               (if b =? 0xF4 then 0x8F else 0xBF), [])
  else (U_start, [0xFFFD]).

Definition utf8_step (st : utf8_state) (b : N) : utf8_state * list N :=
  match st with
  | U_start => utf8_lead b
  | U_pending cp remaining lower upper =>
      if (lower <=? b) && (b <=? upper) then
        let cp' := cp * 64 + (b - 0x80) in
        match remaining with
        | S (S r) => (U_pending cp' (S r) 0x80 0xBF, [])
        | _ => (U_start, [cp'])
        end
      else
        (* the byte is put back and read again from the start state *)
        let '(st', out) := utf8_lead b in (st', 0xFFFD :: out)
  end.

Fixpoint utf8_decode_from (st : utf8_state) (bs : list N) : list N :=
  match bs with
  | [] => match st with U_start => [] | U_pending _ _ _ _ => [0xFFFD] end
  | b :: r => let '(st', out) := utf8_step st b in out ++ utf8_decode_from st' r
  end.

(** What the decoder may hold while continuation bytes are pending: every
    way of completing the sequence within the bounds gives a scalar value. *)
Fixpoint pending_ok (remaining : nat) (cp lower upper : N) : Prop :=
  0x80 <= lower /\ upper <= 0xBF /\
  forall b, lower <= b <= upper ->
    match remaining with
    | S (S _ as r) => pending_ok r (cp * 64 + (b - 0x80)) 0x80 0xBF
    | _ => is_scalar_value (cp * 64 + (b - 0x80)) = true
    end.

Definition state_ok (st : utf8_state) : Prop :=
  match st with
  | U_start => True
  | U_pending cp remaining lower upper => pending_ok remaining cp lower upper
  end.

(** UTF-8 decode without BOM, as a string. *)
Definition utf8_decode (bs : list N) : list N :=
  of_code_points (utf8_decode_from U_start bs).

(** The decimal digits of a natural number. *)
Fixpoint pos_digits (fuel : nat) (n : N) (acc : list N) : list N :=
  match fuel with
  | O => acc
  | S f => if n <? 10 then (48 + n) :: acc
           else pos_digits f (n / 10) ((48 + n mod 10) :: acc)
  end.

Definition digits (a : Z) : list N :=
  let n := Z.to_N a in
  pos_digits (S (N.to_nat (N.log2 n))) n [].

(** The Number nearest to the integer [a >= 0]: [a] itself while it fits
    the 53 bits of the significand, and else the nearer of the two
    neighbouring multiples of [2^e], the one with the even significand when
    they are equally near.  A result of [2^1024] or more stands for
    Infinity. *)
Definition to_Number (a : Z) : Z :=
  let e := (Z.log2 a - 52)%Z in
  if (e <=? 0)%Z then a
  else
    let q := Z.shiftr a e in
    let r := (a mod 2 ^ e)%Z in
    let half := (2 ^ (e - 1))%Z in
    let q' := if (r <? half)%Z then q
              else if (half <? r)%Z then (q + 1)%Z
              else if Z.even q then q else (q + 1)%Z in
    (q' * 2 ^ e)%Z.

(** Number::toString looks for the fewest digits [s] and an exponent such
    that [s * 10^j] is read back as the Number [x]; of several [s] with that
    many digits it takes the one nearest to [x], and the even one of two
    equally near.  [candidate x j] is the choice among the multiples of
    [10^j], which are to be tried only just below and just above [x]. *)
Definition candidate (x : Z) (j : Z) : option Z :=
  let p := (10 ^ j)%Z in
  let lo := (x / p * p)%Z in
  let hi := (lo + p)%Z in
  let lo_ok := (to_Number lo =? x)%Z in
  let hi_ok := (to_Number hi =? x)%Z in
  if lo_ok && hi_ok then
    Some (if (x - lo <? hi - x)%Z then lo
          else if (hi - x <? x - lo)%Z then hi
          else if Z.even (x / p) then lo else hi)
  else if lo_ok then Some lo
  else if hi_ok then Some hi
  else None.

(** The integer [s * 10^j] with the fewest digits [s]: the multiples of
    [10^j] are tried from the largest [j] down. *)
Fixpoint shortest (x : Z) (j : nat) : Z :=
  match candidate x (Z.of_nat j) with
  | Some c => c
  | None => match j with O => x | S j' => shortest x j' end
  end.

Fixpoint drop_zeros (ds : list N) : list N :=
  match ds with
  | 48 :: t => drop_zeros t
  | _ => ds
  end.

(** Number.prototype.toString, in decimal, of the Number nearest to the
    integer [z] (of [z] itself when [z] is a Number, as every integer up to
    2^53 is).  With [c = s * 10^(n-k)] the integer found by [shortest], [n]
    the number of its digits and [k] that of [s]: when [n <= 21] the result
    is the digits of [s] followed by [n-k] zeros, which are the digits of
    [c]; beyond, it is the first digit of [s], a point and the other digits
    if there are any, and [e+] with the digits of [n-1]. *)
Definition Number_toString (z : Z) : list N :=
  let sign := if (z <? 0)%Z then [45] else [] in
  let x := to_Number (Z.abs z) in
  if (2 ^ 1024 <=? x)%Z then sign ++ js "Infinity"
  else
    let c := shortest x (length (digits x) - 1) in
    let ds := digits c in
    if (c <? 10 ^ 21)%Z then sign ++ ds
    else
      let exponent := js "e+" ++ digits (Z.of_nat (length ds) - 1) in
      match reverse (drop_zeros (reverse ds)) with
      | [] => sign ++ ds
      | [d] => sign ++ d :: exponent
      | d :: more => sign ++ d :: 46 :: more ++ exponent
      end.
End JSString.

(** ** decodeURIComponent *)

Module URI.
Import JSString.
Local Open Scope N_scope.

(** The input split into plain code units and the octets of its [%XX]
    escapes.  A [%] that is not followed by two hexadecimal digits is a
    URIError ([None]). *)
Inductive item := Unit (c : N) | Octet (b : N).

Fixpoint items (s : list N) : option (list item) :=
  match s with
  | [] => Some []
  | c :: t =>
      if c =? 37 (* % *) then
        match t with
        | h1 :: h2 :: r =>
            match hexval h1, hexval h2 with
            | Some a, Some b => option_map (cons (Octet (16 * a + b))) (items r)
            | _, _ => None
            end
        | _ => None
        end
      else option_map (cons (Unit c)) (items t)
  end.

Definition is_continuation (b : N) : bool := (0x80 <=? b) && (b <=? 0xBF).

(** Octets with their top bit set must form the UTF-8 encoding of one code
    point (n octets, n the number of leading 1 bits of the first, 2 to 4),
    shortest form, no surrogate, at most U+10FFFF; the escape sequence is
    replaced by that code point.  Anything else is a URIError. *)
Fixpoint assemble (ts : list item) : option (list N) :=
  match ts with
  | [] => Some []
  | Unit c :: r => option_map (cons c) (assemble r)
  | Octet b :: r =>
      if b <? 0x80 then option_map (cons b) (assemble r)
      else if b <? 0xC0 then None
      else if b <? 0xE0 then
        match r with
        | Octet b1 :: r1 =>
            let cp := (b - 0xC0) * 64 + (b1 - 0x80) in
            if is_continuation b1 && (0x80 <=? cp)
            then option_map (app (utf16_encode cp)) (assemble r1)
            else None
        | _ => None
        end
      else if b <? 0xF0 then
        match r with
        | Octet b1 :: Octet b2 :: r2 =>
            let cp := (b - 0xE0) * 4096 + (b1 - 0x80) * 64 + (b2 - 0x80) in
            if is_continuation b1 && is_continuation b2
               && (0x800 <=? cp) && negb (is_surrogate cp)
            then option_map (app (utf16_encode cp)) (assemble r2)
            else None
        | _ => None
        end
      else if b <? 0xF8 then
        match r with
        | Octet b1 :: Octet b2 :: Octet b3 :: r3 =>
            let cp := (b - 0xF0) * 262144 + (b1 - 0x80) * 4096
                      + (b2 - 0x80) * 64 + (b3 - 0x80) in
            if is_continuation b1 && is_continuation b2 && is_continuation b3
               && (0x10000 <=? cp) && (cp <=? 0x10FFFF)
            then option_map (app (utf16_encode cp)) (assemble r3)
            else None
        | _ => None
        end
      else None
  end.

(** [None] is a thrown URIError. *)
Definition decodeURIComponent (s : list N) : option (list N) :=
  match items s with
  | Some ts => assemble ts
  | None => None
  end.
End URI.

(** ** JSON *)

Module JSON.
Import JSString.
Local Open Scope N_scope.

(** A parsed JSON text.  A number is kept as its lexeme: the code below
    never looks at the numeric value of a parsed number.  The members of an
    object are kept in source order, duplicates included; a property read
    takes the last one, as the parser's successive definitions do. *)
#[warnings="-register-all"] Inductive value :=
| JNull
| JBool (b : bool)
| JNumber (lexeme : list N)
| JString (s : list N)
| JArray (elements : list value)
| JObject (members : list (list N * value)).

(** *** JSON.stringify on an array of strings *)

Definition unicode_escape (c : N) : list N :=
  [92; 117; hexdigit_lower (c / 4096); hexdigit_lower ((c / 256) mod 16);
   hexdigit_lower ((c / 16) mod 16); hexdigit_lower (c mod 16)].

(** One code unit that is not a surrogate. *)
Definition quote_unit (c : N) : list N :=
  if c =? 8 then [92; 98]            (* backspace *)
  else if c =? 9 then [92; 116]      (* tab *)
  else if c =? 10 then [92; 110]     (* line feed *)
  else if c =? 12 then [92; 102]     (* form feed *)
  else if c =? 13 then [92; 114]     (* carriage return *)
  else if c =? 34 then [92; 34]      (* quotation mark *)
  else if c =? 92 then [92; 92]      (* backslash *)
  else if c <? 32 then unicode_escape c
  else [c].

(** QuoteJSONString without the surrounding quotes: a surrogate pair is
    copied, a lone surrogate is escaped. *)
Fixpoint quote_units (s : list N) : list N :=
  match s with
  | [] => []
  | c :: t =>
      if is_high_surrogate c then
        match t with
        | d :: t' =>
            if is_low_surrogate d then c :: d :: quote_units t'
            else unicode_escape c ++ quote_units t
        | [] => unicode_escape c
        end
      else if is_low_surrogate c then unicode_escape c ++ quote_units t
      else quote_unit c ++ quote_units t
  end.

Definition QuoteJSONString (s : list N) : list N := 34 :: quote_units s ++ [34].

Fixpoint join_comma (parts : list (list N)) : list N :=
  match parts with
  | [] => []
  | [p] => p
  | p :: ps => p ++ 44 :: join_comma ps
  end.

(** [JSON.stringify(a)] for an array [a] of strings. *)
Definition stringify_strings (a : list (list N)) : list N :=
  91 :: join_comma (map QuoteJSONString a) ++ [93].

(** *** JSON.parse

    A one-pass automaton over the code units of the text: a [mode] for
    what may come next and a stack of the arrays and objects that are
    open. *)

Inductive frame :=
| InArray (done : list value)
| InObject (done : list (list N * value)) (key : list N).

Inductive role := AsValue | AsKey (done : list (list N * value)).

Inductive nstate := NSign | NZero | NInt | NPoint | NFrac | NE | NESign | NExp.

Inductive mode :=
| Value                                   (* a value must begin *)
| FirstElement                            (* just after [ *)
| FirstKey                                (* just after { *)
| Key (done : list (list N * value))      (* after a comma in an object *)
| Colon (done : list (list N * value)) (key : list N)
| After (v : value)                       (* a value is complete *)
| Str (r : role) (buf : list N)           (* inside a string literal *)
| Esc (r : role) (buf : list N)           (* after a backslash *)
| Uni (r : role) (buf : list N) (acc : N) (remaining : nat)
| Num (st : nstate) (lexeme : list N)
| Lit (rest : list N) (v : value).        (* inside true, false or null *)

Definition state : Type := mode * list frame.

Definition is_ws (c : N) : bool :=
  (c =? 9) || (c =? 10) || (c =? 13) || (c =? 32).
Definition is_digit (c : N) : bool := (48 <=? c) && (c <=? 57).

Definition begin_value (stack : list frame) (c : N) : option state :=
  if c =? 34 then Some (Str AsValue [], stack)
  else if c =? 91 then Some (FirstElement, InArray [] :: stack)
  else if c =? 123 then Some (FirstKey, stack)
  else if c =? 45 then Some (Num NSign [c], stack)
  else if c =? 48 then Some (Num NZero [c], stack)
  else if is_digit c then Some (Num NInt [c], stack)
  else if c =? 116 then Some (Lit [114; 117; 101] (JBool true), stack)
  else if c =? 102 then Some (Lit [97; 108; 115; 101] (JBool false), stack)
  else if c =? 110 then Some (Lit [117; 108; 108] JNull, stack)
  else None.

Definition after_value (v : value) (stack : list frame) (c : N) : option state :=
  if is_ws c then Some (After v, stack)
  else
    match stack with
    | [] => None
    | InArray done :: fs =>
        if c =? 44 then Some (Value, InArray (done ++ [v]) :: fs)
        else if c =? 93 then Some (After (JArray (done ++ [v])), fs)
        else None
    | InObject done key :: fs =>
        if c =? 44 then Some (Key (done ++ [(key, v)]), fs)
        else if c =? 125 then Some (After (JObject (done ++ [(key, v)])), fs)
        else None
    end.

Definition end_string (r : role) (buf : list N) (stack : list frame) : state :=
  match r with
  | AsValue => (After (JString buf), stack)
  | AsKey done => (Colon done buf, stack)
  end.

Definition escaped (c : N) : option N :=
  if c =? 34 then Some 34
  else if c =? 92 then Some 92
  else if c =? 47 then Some 47
  else if c =? 98 then Some 8
  else if c =? 102 then Some 12
  else if c =? 110 then Some 10
  else if c =? 114 then Some 13
  else if c =? 116 then Some 9
  else None.

Definition is_e (c : N) : bool := (c =? 101) || (c =? 69).

Definition step_number (st : nstate) (lexeme : list N) (stack : list frame) (c : N)
  : option state :=
  let more st' := Some (Num st' (lexeme ++ [c]), stack) in
  let finished := after_value (JNumber lexeme) stack c in
  match st with
  | NSign => if c =? 48 then more NZero else if is_digit c then more NInt else None
  | NZero => if c =? 46 then more NPoint else if is_e c then more NE else finished
  | NInt => if is_digit c then more NInt
            else if c =? 46 then more NPoint else if is_e c then more NE else finished
  | NPoint => if is_digit c then more NFrac else None
  | NFrac => if is_digit c then more NFrac else if is_e c then more NE else finished
  | NE => if (c =? 43) || (c =? 45) then more NESign
          else if is_digit c then more NExp else None
  | NESign => if is_digit c then more NExp else None
  | NExp => if is_digit c then more NExp else finished
  end.

Definition step (s : state) (c : N) : option state :=
  let '(m, stack) := s in
  match m with
  | Value => if is_ws c then Some (Value, stack) else begin_value stack c
  | FirstElement =>
      if is_ws c then Some (FirstElement, stack)
      else if c =? 93 then
        match stack with
        | InArray _ :: fs => Some (After (JArray []), fs)
        | _ => None
        end
      else begin_value stack c
  | FirstKey =>
      if is_ws c then Some (FirstKey, stack)
      else if c =? 125 then Some (After (JObject []), stack)
      else if c =? 34 then Some (Str (AsKey []) [], stack)
      else None
  | Key done =>
      if is_ws c then Some (Key done, stack)
      else if c =? 34 then Some (Str (AsKey done) [], stack)
      else None
  | Colon done key =>
      if is_ws c then Some (Colon done key, stack)
      else if c =? 58 then Some (Value, InObject done key :: stack)
      else None
  | After v => after_value v stack c
  | Str r buf =>
      if c =? 34 then Some (end_string r buf stack)
      else if c =? 92 then Some (Esc r buf, stack)
      else if c <? 32 then None
      else Some (Str r (buf ++ [c]), stack)
  | Esc r buf =>
      if c =? 117 then Some (Uni r buf 0 4, stack)
      else match escaped c with
           | Some u => Some (Str r (buf ++ [u]), stack)
           | None => None
           end
  | Uni r buf acc remaining =>
      match hexval c with
      | Some d =>
          match remaining with
          | S (S k) => Some (Uni r buf (16 * acc + d) (S k), stack)
          | _ => Some (Str r (buf ++ [16 * acc + d]), stack)
          end
      | None => None
      end
  | Num st lexeme => step_number st lexeme stack c
  | Lit rest v =>
      match rest with
      | [] => None
      | x :: rest' =>
          if c =? x then
            match rest' with
            | [] => Some (After v, stack)
            | _ => Some (Lit rest' v, stack)
            end
          else None
      end
  end.

Fixpoint run (s : state) (text : list N) : option state :=
  match text with
  | [] => Some s
  | c :: t => match step s c with
              | Some s' => run s' t
              | None => None
              end
  end.

Definition finish (s : state) : option value :=
  match s with
  | (After v, []) => Some v
  | (Num st lexeme, []) =>
      match st with
      | NZero | NInt | NFrac | NExp => Some (JNumber lexeme)
      | _ => None
      end
  | _ => None
  end.

(** [None] is a thrown SyntaxError. *)
Definition parse (text : list N) : option value :=
  match run (Value, []) text with
  | Some s => finish s
  | None => None
  end.
End JSON.

(** ** URLSearchParams *)

Module URLSearchParams.
Import JSString.
Local Open Scope N_scope.

(** The object's list of name-value pairs. *)
Abbreviation t := (list (list N * list N)).

Fixpoint get (params : t) (name : list N) : option (list N) :=
  match params with
  | [] => None
  | (n, v) :: rest => if bool_decide (n = name) then Some v else get rest name
  end.

Definition getAll (params : t) (name : list N) : list (list N) :=
  map snd (filter (fun p => p.1 = name) params).

Definition delete (params : t) (name : list N) : t :=
  filter (fun p => p.1 <> name) params.

(** The first pair of that name takes the value and the others are removed;
    without one the pair is appended. *)
Fixpoint set (params : t) (name value : list N) : t :=
  match params with
  | [] => [(name, value)]
  | (n, v) :: rest =>
      if bool_decide (n = name) then (n, value) :: delete rest name
      else (n, v) :: set rest name value
  end.

(** *** Serialisation (application/x-www-form-urlencoded) *)

Definition is_alphanumeric (b : N) : bool :=
  ((48 <=? b) && (b <=? 57)) || ((65 <=? b) && (b <=? 90)) || ((97 <=? b) && (b <=? 122)).

(** Left as they are: ASCII letters and digits, and * - . _ *)
Definition is_unreserved (b : N) : bool :=
  is_alphanumeric b || (b =? 42) || (b =? 45) || (b =? 46) || (b =? 95).

Definition encode_byte (b : N) : list N :=
  if is_unreserved b then [b]
  else if b =? 32 then [43]
  else [37; hexdigit_upper (b / 16); hexdigit_upper (b mod 16)].

Definition encode (s : list N) : list N :=
  concat (map encode_byte (utf8_encode_string s)).

(** The code units an encoded name or value is made of. *)
Definition is_form_unit (c : N) : bool :=
  is_unreserved c || (c =? 43) || (c =? 37).

Fixpoint join_amp (parts : list (list N)) : list N :=
  match parts with
  | [] => []
  | [p] => p
  | p :: ps => p ++ 38 :: join_amp ps
  end.

(** One pair: the name, an equals sign, the value. *)
Definition pair_segment (p : list N * list N) : list N := encode p.1 ++ 61 :: encode p.2.

Definition toString (params : t) : list N := join_amp (map pair_segment params).

(** *** Parsing *)

Fixpoint split_on (sep : N) (s : list N) : list (list N) :=
  match s with
  | [] => [[]]
  | c :: r =>
      if c =? sep then [] :: split_on sep r
      else match split_on sep r with
           | seg :: segs => (c :: seg) :: segs
           | [] => [[c]]
           end
  end.

(** The part before the first [sep] and the part after it (empty without
    one). *)
Fixpoint split_first (sep : N) (s : list N) : list N * list N :=
  match s with
  | [] => ([], [])
  | c :: r =>
      if c =? sep then ([], r)
      else let '(a, b) := split_first sep r in (c :: a, b)
  end.

Definition plus_to_space (s : list N) : list N :=
  map (fun c => if c =? 43 then 32 else c) s.

(** A [%] that is not followed by two hexadecimal digits stays. *)
Fixpoint percent_decode (s : list N) : list N :=
  match s with
  | [] => []
  | c :: r =>
      if c =? 37 then
        match r with
        | h1 :: h2 :: r' =>
            match hexval h1, hexval h2 with
            | Some a, Some b => (16 * a + b) :: percent_decode r'
            | _, _ => c :: percent_decode r
            end
        | _ => c :: percent_decode r
        end
      else c :: percent_decode r
  end.

Definition decode (bytes : list N) : list N :=
  utf8_decode (percent_decode (plus_to_space bytes)).

Definition parse_pair (bytes : list N) : list N * list N :=
  let '(name, value) := split_first 61 bytes in (decode name, decode value).

Definition parse_bytes (input : list N) : t :=
  map parse_pair (filter (fun seg => seg <> []) (split_on 38 input)).

(** The names and values of a URLSearchParams object are scalar value
    strings. *)
Definition well_formed_params (params : t) : bool :=
  forallb (fun p => well_formed p.1 && well_formed p.2) params.

(** [new URLSearchParams(init)] for a string [init]. *)
Definition new (init : list N) : t :=
  let init' := match init with
               | c :: r => if c =? 63 then r else init
               | [] => init
               end in
  parse_bytes (utf8_encode_string init').
End URLSearchParams.

(** ** Navigation

    [router.push] makes its argument the current URL; at the next render
    [useSearchParams] holds the parameters of that URL's query, the part
    after the first question mark (the URLs built below have no fragment). *)

Definition useSearchParams (url : list N) : URLSearchParams.t :=
  URLSearchParams.new (URLSearchParams.split_first 63 url).2.

(** [usePathname]: the part before the first question mark. *)
Definition usePathname (url : list N) : list N :=
  (URLSearchParams.split_first 63 url).1.

(** ** features/platform/components/StatusTabs.tsx *)

Module StatusTabs.
Import JSON.

Record StatusConfig := { label : list N; color : list N }.

(** [statusCounts] is given by its own properties, numbers, with the total
    under the key [all]; [statusConfig] is given by its entries, in the
    order of [Object.entries], the keys distinct. *)
Record StatusTabsProps := {
  statusCounts : gmap (list N) Z;
  statusConfig : list (list N * StatusConfig);
  entityName : list N
}.

(** The names of the properties that an object inherits from
    [Object.prototype]. *)
Definition Object_prototype : list (list N) :=
  [ js "constructor"; js "__defineGetter__"; js "__defineSetter__";
    js "hasOwnProperty"; js "__lookupGetter__"; js "__lookupSetter__";
    js "isPrototypeOf"; js "propertyIsEnumerable"; js "toString"; js "valueOf";
    js "__proto__"; js "toLocaleString" ].

(** What reading a property of [statusCounts] gives if it gives anything:
    a number, which is a property of its own, or what is inherited under
    that name (a function; for [__proto__] the prototype itself). *)
Inductive Property := Num (n : Z) | Inherited (name : list N).

(** [statusCounts[value]]: the object's own property, else the inherited
    one, else undefined ([None]). *)
Definition get_property (statusCounts : gmap (list N) Z) (value : list N)
  : option Property :=
  match statusCounts !! value with
  | Some n => Some (Num n)
  | None => if bool_decide (value ∈ Object_prototype) then Some (Inherited value) else None
  end.

(** An element of [statuses]. *)
Record Status := { value : list N; status_label : list N; count : Property }.

(** [statusCounts[value] || 0]: the number 0 and undefined are falsy, what
    is inherited is truthy. *)
Definition count_or_0 (statusCounts : gmap (list N) Z) (value : list N) : Property :=
  match get_property statusCounts value with
  | Some (Num n) => if (n =? 0)%Z then Num 0 else Num n
  | Some (Inherited name) => Inherited name
  | None => Num 0
  end.

Definition statuses (props : StatusTabsProps) : list Status :=
  map (fun entry =>
         {| value := entry.1;
            status_label := label entry.2;
            count := count_or_0 (statusCounts props) entry.1 |})
      (statusConfig props).

(** What [currentStatus] may hold: a string, or whatever [parsed[0].value]
    gives, which may be undefined. *)
Inductive jsvalue := Undefined | Json (v : JSON.value).

Definition all : jsvalue := Json (JString (js "all")).

Fixpoint last_member (members : list (list N * JSON.value)) (name : list N)
  : option JSON.value :=
  match members with
  | [] => None
  | (k, v) :: rest =>
      match last_member rest name with
      | Some v' => Some v'
      | None => if bool_decide (k = name) then Some v else None
      end
  end.

(** [x.value] for a parsed [x] that is not a string.  Reading a property of
    null throws a TypeError ([None]); a boolean, a number and an array have
    no property [value]. *)
Definition property_value (x : JSON.value) : option jsvalue :=
  match x with
  | JNull => None
  | JObject members =>
      Some (match last_member members (js "value") with
            | Some v => Json v
            | None => Undefined
            end)
  | _ => Some Undefined
  end.

(** The body of the [try]: [None] when something in it throws. *)
Definition try_parse (statusFilter : list N) (currentStatus : jsvalue) : option jsvalue :=
  match URI.decodeURIComponent statusFilter with
  | None => None
  | Some text =>
      match JSON.parse text with
      | None => None
      | Some (JArray (first :: _)) =>
          match first with
          | JString _ => Some (Json first)
          | _ => property_value first
          end
      | Some _ => Some currentStatus
      end
  end.

(** [currentStatus] as the component computes it from [statusFilter], which
    is null ([None]) when the parameter is absent; the empty string is falsy,
    and what the [try] throws is caught and ignored. *)
Definition currentStatus_from (statusFilter : option (list N)) : jsvalue :=
  let currentStatus := all in
  match statusFilter with
  | Some (c :: s) =>
      match try_parse (c :: s) currentStatus with
      | Some v => v
      | None => currentStatus
      end
  | _ => currentStatus
  end.

(** The status read from the URL on every render. *)
Definition currentStatus (searchParams : URLSearchParams.t) : jsvalue :=
  let statusFilter := URLSearchParams.get searchParams (js "!status_matches") in
  currentStatus_from statusFilter.

(** The parameters that [handleStatusChange] serialises. *)
Definition handleStatusChange_params (searchParams : URLSearchParams.t) (status : list N)
  : URLSearchParams.t :=
  let params := URLSearchParams.new (URLSearchParams.toString searchParams) in
  let params := URLSearchParams.set params (js "page") (js "1") in
  if bool_decide (status = js "all")
  then URLSearchParams.delete params (js "!status_matches")
  else URLSearchParams.set params (js "!status_matches") (JSON.stringify_strings [status]).

(** The URL that [handleStatusChange] pushes. *)
Definition handleStatusChange (pathname : list N) (searchParams : URLSearchParams.t)
    (status : list N) : list N :=
  pathname ++ js "?" ++ URLSearchParams.toString (handleStatusChange_params searchParams status).

(** The URL pushed by a click on the tab of [status] (or on the first tab,
    with [all]) while the current URL is [url]. *)
Definition onClick (url : list N) (status : list N) : list N :=
  handleStatusChange (usePathname url) (useSearchParams url) status.

(** [v === s] for a string [s]. *)
Definition strict_equals (v : jsvalue) (s : list N) : bool :=
  match v with
  | Json (JString k) => bool_decide (k = s)
  | _ => false
  end.

(** Array.prototype.findIndex: -1 when no element satisfies [p]. *)
Fixpoint findIndex {A : Type} (p : A -> bool) (l : list A) : Z :=
  match l with
  | [] => (-1)%Z
  | x :: rest =>
      if p x then 0%Z
      else let i := findIndex p rest in if (i <? 0)%Z then (-1)%Z else (i + 1)%Z
  end.

Definition activeIndex (statuses : list Status) (currentStatus : jsvalue) : Z :=
  if strict_equals currentStatus (js "all") then 0%Z
  else (findIndex (fun s => strict_equals currentStatus (value s)) statuses + 1)%Z.

(** *** The indicators *)

Record TabElement := { offsetLeft : Z; offsetWidth : Z }.
Record ScrollContainer := { scrollLeft : Z }.

(** [tabRefs.current] holds, per index, the mounted element or null; an index
    outside the array reads undefined. *)
Record Refs := {
  tabRefs : list (option TabElement);
  scrollContainerRef : option ScrollContainer
}.

(** The refs as a render finds them.  They are attached at commit, those of
    one commit together: at the first render [tabRefs.current] is the empty
    array and [scrollContainerRef.current] is null; at every later render
    each tab that is rendered, the first one and one per status, has its
    element under its index, and the strip has its container. *)
Inductive Mount :=
| NotYetMounted
| Mounted (element : nat -> TabElement) (container : ScrollContainer).

Definition refs_at (statuses : list Status) (m : Mount) : Refs :=
  match m with
  | NotYetMounted => {| tabRefs := []; scrollContainerRef := None |}
  | Mounted element container =>
      {| tabRefs := map (fun i => Some (element i)) (seq 0 (S (length statuses)));
         scrollContainerRef := Some container |}
  end.

Definition tabRef (refs : Refs) (i : Z) : option TabElement :=
  if (i <? 0)%Z then None else mjoin (tabRefs refs !! Z.to_nat i).

(** [e?.m || 0] *)
Definition measure_or_0 (e : option TabElement) (m : TabElement -> Z) : Z :=
  match e with
  | Some el => if (m el =? 0)%Z then 0%Z else m el
  | None => 0%Z
  end.

Definition scrollOffset (refs : Refs) : Z :=
  match scrollContainerRef refs with
  | Some c => scrollLeft c
  | None => 0%Z
  end.

(** The inline style of an indicator, its lengths in px. *)
Record Style := { style_left : Z; style_width : Z; style_opacity : option Z }.

Definition hover_style (refs : Refs) (hoveredIndex : option Z) : Style :=
  {| style_left :=
       match hoveredIndex with
       | Some h => (measure_or_0 (tabRef refs h) offsetLeft - scrollOffset refs)%Z
       | None => 0%Z
       end;
     style_width :=
       match hoveredIndex with
       | Some h => measure_or_0 (tabRef refs h) offsetWidth
       | None => 0%Z
       end;
     style_opacity := Some (match hoveredIndex with Some _ => 1%Z | None => 0%Z end) |}.

Definition active_style (refs : Refs) (activeIndex : Z) : Style :=
  let activeTabOffsetLeft := measure_or_0 (tabRef refs activeIndex) offsetLeft in
  let activeTabWidth := measure_or_0 (tabRef refs activeIndex) offsetWidth in
  {| style_left := (activeTabOffsetLeft - scrollOffset refs)%Z;
     style_width := activeTabWidth;
     style_opacity := None |}.

(** *** What is rendered: the tabs in order, the first one the [all] tab *)

Record Tab := {
  tab_text : list N;       (* the label *)
  tab_badge : option Property;  (* the child of the badge; undefined is None *)
  tab_current : bool;      (* drawn in the foreground colour *)
  tab_click : list N       (* the argument of handleStatusChange on click *)
}.

Definition tabs (props : StatusTabsProps) (currentStatus : jsvalue) : list Tab :=
  {| tab_text := js "All " ++ entityName props;
     tab_badge := get_property (statusCounts props) (js "all");
     tab_current := strict_equals currentStatus (js "all");
     tab_click := js "all" |}
  :: map (fun status =>
            {| tab_text := status_label status;
               tab_badge := Some (count status);
               tab_current := strict_equals currentStatus (value status);
               tab_click := value status |})
         (statuses props).

(** The component at the URL [url]: the tabs it renders. *)
Definition StatusTabs (props : StatusTabsProps) (url : list N) : list Tab :=
  tabs props (currentStatus (useSearchParams url)).
End StatusTabs.

(** ** features/platform/inventory/screens/InventoryListPageClient.tsx *)

Module InventoryListPageClient.

(** The items are represented by their ids. *)
Record Data := { items : list (list N); count : Z }.
Record SearchParams := { page : Z; pageSize : Z; search : list N }.

Record InventoryListPageClientProps := {
  list_found : bool;                      (* whether [list] is truthy *)
  initialData : Data;
  initialError : option (list N);
  initialSearchParams : SearchParams;
  statusCounts : option (gmap (list N) Z)
}.

Definition statusConfig : list (list N * StatusTabs.StatusConfig) :=
  [ (js "in_stock", {| StatusTabs.label := js "In Stock"; StatusTabs.color := js "emerald" |});
    (js "low_stock", {| StatusTabs.label := js "Low Stock"; StatusTabs.color := js "yellow" |});
    (js "out_of_stock", {| StatusTabs.label := js "Out of Stock"; StatusTabs.color := js "red" |});
    (js "backordered", {| StatusTabs.label := js "Backordered"; StatusTabs.color := js "purple" |}) ].

(** The parameters that [handlePageChange] serialises. *)
Definition handlePageChange_params (location_search : list N) (newPage : Z)
  : URLSearchParams.t :=
  let params := URLSearchParams.new location_search in
  if negb (newPage =? 0)%Z && (newPage >? 1)%Z
  then URLSearchParams.set params (js "page") (JSString.Number_toString newPage)
  else URLSearchParams.delete params (js "page").

(** The URL that [handlePageChange] pushes. *)
Definition handlePageChange (location_search : list N) (newPage : Z) : list N :=
  let query := URLSearchParams.toString (handlePageChange_params location_search newPage) in
  match query with
  | [] => []
  | _ => js "?" ++ query
  end.

(** The URL that [handleResetFilters] pushes. *)
Definition handleResetFilters (location_pathname : list N) : list N := location_pathname.

Definition truthy (s : list N) : bool :=
  match s with [] => false | _ => true end.

(** What is shown below the filters. *)
Inductive ListRegion :=
| ErrorAlert (error : list N)
| EmptyStateDefault                 (* No Inventory Created *)
| EmptyStateSearch                  (* No Results Found, with Reset Filters *)
| DataGrid (rows : list (list N)) (pagination : bool).

Inductive Rendered :=
| ListNotFound
| Page (statusTabs : option (list StatusTabs.Tab)) (region : ListRegion).

Definition region (props : InventoryListPageClientProps) : ListRegion :=
  let data := initialData props in
  let error := initialError props in
  let pageSize := pageSize (initialSearchParams props) in
  let searchString := search (initialSearchParams props) in
  let hasFilters := truthy searchString in
  let isFiltered := hasFilters in
  let isEmpty := (count data =? 0)%Z && negb isFiltered in
  match error with
  | Some (c :: e) => ErrorAlert (c :: e)
  | _ =>
      if isEmpty then EmptyStateDefault
      else if (count data =? 0)%Z then EmptyStateSearch
      else DataGrid (items data) (count data >? pageSize)%Z
  end.

(** The page at the URL [url]; the status tabs are rendered when
    [statusCounts] is not null. *)
Definition InventoryListPageClient (props : InventoryListPageClientProps) (url : list N)
  : Rendered :=
  if negb (list_found props) then ListNotFound
  else
    Page (match statusCounts props with
          | Some counts =>
              Some (StatusTabs.StatusTabs
                      {| StatusTabs.statusCounts := counts;
                         StatusTabs.statusConfig := statusConfig;
                         StatusTabs.entityName := js "Items" |} url)
          | None => None
          end)
         (region props).
End InventoryListPageClient.

(** ** generateApiKeyToken *)

Module CreateApiKey.
Local Open Scope N_scope.

Definition chars : list N :=
  js "ABCDEFGHIJKLMNOPQRSTUVWXYZabcdefghijklmnopqrstuvwxyz0123456789".

(** [crypto.getRandomValues] on a Uint8Array: every element is overwritten
    with a byte of the random source [random]. *)
Definition getRandomValues (random : nat -> N) (array : list N) : list N :=
  imap (fun i _ => random i mod 256) array.

(** [chars[i]] as it is appended to a string: an index outside the string
    reads undefined. *)
Definition char_at (s : list N) (i : N) : list N :=
  match s !! N.to_nat i with
  | Some c => [c]
  | None => js "undefined"
  end.

Definition generateApiKeyToken (random : nat -> N) : list N :=
  let prefix := js "of_" in
  let randomBytes := getRandomValues random (replicate 32 0) in
  let result :=
    fold_left (fun result b => result ++ char_at chars (b mod N.of_nat (length chars)))
              randomBytes [] in
  prefix ++ result.
End CreateApiKey.

(** ** Sample inputs *)

Module Samples.
Import StatusTabs.

(** [{all: 10, in_stock: 7, low_stock: 0, out_of_stock: 2, backordered: 1}] *)
Definition inventory_counts : gmap (list N) Z :=
  <[js "all" := 10%Z]> (<[js "in_stock" := 7%Z]> (<[js "low_stock" := 0%Z]>
  (<[js "out_of_stock" := 2%Z]> (<[js "backordered" := 1%Z]> ∅)))).

(** Props of the inventory page: found list, no rows. *)
Definition inventory_props (counts : option (gmap (list N) Z)) (error : option (list N))
    (n : Z) (searchString : list N)
  : InventoryListPageClient.InventoryListPageClientProps :=
  {| InventoryListPageClient.list_found := true;
     InventoryListPageClient.initialData :=
       {| InventoryListPageClient.items := []; InventoryListPageClient.count := n |};
     InventoryListPageClient.initialError := error;
     InventoryListPageClient.initialSearchParams :=
       {| InventoryListPageClient.page := 1;
          InventoryListPageClient.pageSize := 50;
          InventoryListPageClient.search := searchString |};
     InventoryListPageClient.statusCounts := counts |}.

Definition inventory_tabs_props (counts : gmap (list N) Z) : StatusTabsProps :=
  {| statusCounts := counts;
     statusConfig := InventoryListPageClient.statusConfig;
     entityName := js "Items" |}.

(** The tabs laid out side by side, 80px wide and 6px apart, the strip
    scrolled by 30px. *)
Definition mounted : Mount :=
  Mounted (fun i => {| offsetLeft := 86 * Z.of_nat i; offsetWidth := 80 |})
          {| scrollLeft := 30 |}.
End Samples.

(** ** More of the platform *)

Module StringMethods.
Local Open Scope N_scope.

(** WhiteSpace and LineTerminator, the code units that [trim] removes. *)
Definition is_white_space (c : N) : bool :=
  ((9 <=? c) && (c <=? 13)) || (c =? 32) || (c =? 0xA0) || (c =? 0x1680)
  || ((0x2000 <=? c) && (c <=? 0x200A)) || (c =? 0x2028) || (c =? 0x2029)
  || (c =? 0x202F) || (c =? 0x205F) || (c =? 0x3000) || (c =? 0xFEFF).

Fixpoint trimStart (s : list N) : list N :=
  match s with
  | [] => []
  | c :: t => if is_white_space c then trimStart t else s
  end.

Definition trimEnd (s : list N) : list N := reverse (trimStart (reverse s)).

(** String.prototype.trim *)
Definition trim (s : list N) : list N := trimEnd (trimStart s).

(** Array.prototype.join on an array of strings. *)
Fixpoint join (separator : list N) (parts : list (list N)) : list N :=
  match parts with
  | [] => []
  | [p] => p
  | p :: ps => p ++ separator ++ join separator ps
  end.

(** The value of a decimal numeral; [None] when a code unit is no digit or
    the numeral is empty. *)
Fixpoint decimal_from (acc : N) (s : list N) : option N :=
  match s with
  | [] => Some acc
  | c :: t => if (48 <=? c) && (c <=? 57) then decimal_from (10 * acc + (c - 48)) t else None
  end.

Definition decimal (s : list N) : option N :=
  match s with
  | [] => None
  | _ => decimal_from 0 s
  end.
End StringMethods.

Module JSONText.
Import JSON.

(** One member of an object whose values are strings: key, colon, value. *)
Definition member_text (m : list N * list N) : list N :=
  QuoteJSONString m.1 ++ 58%N :: QuoteJSONString m.2.

(** [JSON.stringify(o)] for an object [o] whose own properties, in their
    order, are the given string-valued members. *)
Definition stringify_object (members : list (list N * list N)) : list N :=
  123%N :: join_comma (map member_text members) ++ [125%N].

(** The parsed form of such an object. *)
Definition object_of (members : list (list N * list N)) : value :=
  JObject (map (fun m => (m.1, JString m.2)) members).

(** The parser's modes in which a value may begin. *)
Definition value_mode (m : mode) : Prop := m = Value \/ m = FirstElement.

(** The parser's modes in which a key may begin, with the members read so
    far. *)
Definition key_mode (m : mode) (done : list (list N * value)) : Prop :=
  m = Key done \/ (m = FirstKey /\ done = []).
End JSONText.

(** ** The API-key dialog (the component around [generateApiKeyToken])

    The component's state and its handlers.  [handleSubmit] awaits the server
    action [createApiKey]: it is split at the [await] into the part that runs
    at once and the part that runs when the call settles, on the state of
    that moment.  Console output is left out. *)

Module CreateApiKeyDialog.
Import StringMethods.

(** An option of the scope selector. *)
Record Option := { value : list N; label : list N }.

Record FormData := { name : list N; scopes : list Option; expiresAt : list N }.

Record State := {
  open : bool;
  loading : bool;
  showToken : bool;
  createdToken : list N;
  formData : FormData
}.

Definition emptyForm : FormData := {| name := []; scopes := []; expiresAt := [] |}.

Definition initial : State :=
  {| open := false; loading := false; showToken := false; createdToken := [];
     formData := emptyForm |}.

Definition setOpen (b : bool) (st : State) : State :=
  {| open := b; loading := loading st; showToken := showToken st;
     createdToken := createdToken st; formData := formData st |}.
Definition setLoading (b : bool) (st : State) : State :=
  {| open := open st; loading := b; showToken := showToken st;
     createdToken := createdToken st; formData := formData st |}.
Definition setShowToken (b : bool) (st : State) : State :=
  {| open := open st; loading := loading st; showToken := b;
     createdToken := createdToken st; formData := formData st |}.
Definition setCreatedToken (t : list N) (st : State) : State :=
  {| open := open st; loading := loading st; showToken := showToken st;
     createdToken := t; formData := formData st |}.
Definition setFormData (f : FormData -> FormData) (st : State) : State :=
  {| open := open st; loading := loading st; showToken := showToken st;
     createdToken := createdToken st; formData := f (formData st) |}.

(** The argument of [createApiKey]; [expiresAt] undefined is [None]. *)
Record ApiKeyInput := {
  input_name : list N;
  input_scopes : list (list N);
  input_expiresAt : option (list N);
  tokenSecret : list N
}.

(** How the awaited call settles: with a result, or by throwing. *)
Inductive Outcome :=
| Resolved (success : bool) (error : option (list N))
| Rejected.

Inductive Effect :=
| toast_error (message : list N)
| toast_success (message : list N)
| router_refresh
| clipboard_writeText (text : list N).

Definition truthy (s : list N) : bool :=
  match s with [] => false | _ => true end.

(** [s || fallback] for an optional string. *)
Definition or_else (s : option (list N)) (fallback : list N) : list N :=
  match s with
  | Some (c :: t) => c :: t
  | _ => fallback
  end.

Definition handleScopeChange (scopes : list Option) (st : State) : State :=
  setFormData (fun prev => {| name := name prev; scopes := scopes;
                              expiresAt := expiresAt prev |}) st.

Definition onNameChange (v : list N) (st : State) : State :=
  setFormData (fun prev => {| name := v; scopes := scopes prev;
                              expiresAt := expiresAt prev |}) st.

Definition onExpiresAtChange (v : list N) (st : State) : State :=
  setFormData (fun prev => {| name := name prev; scopes := scopes prev;
                              expiresAt := v |}) st.

(** What [handleSubmit] does up to its [await]. *)
Inductive Submitted :=
| Stopped (effects : list Effect)
| Awaiting (st : State) (input : ApiKeyInput).

Definition handleSubmit (random : nat -> N) (st : State) : Submitted :=
  let formData := formData st in
  if negb (truthy (trim (name formData))) then
    Stopped [toast_error (js "Please enter a name for your API key")]
  else if (length (scopes formData) =? 0)%nat then
    Stopped [toast_error (js "Please select at least one scope")]
  else
    let st := setLoading true st in
    let generatedToken := CreateApiKey.generateApiKeyToken random in
    Awaiting st
      {| input_name := name formData;
         input_scopes := map value (scopes formData);
         input_expiresAt := if truthy (expiresAt formData) then Some (expiresAt formData)
                            else None;
         tokenSecret := generatedToken |}.

(** The rest of [handleSubmit], once the call has settled. *)
Definition handleSubmit_settled (input : ApiKeyInput) (outcome : Outcome) (st : State)
  : State * list Effect :=
  let generatedToken := tokenSecret input in
  let '(st, effects) :=
    match outcome with
    | Resolved true _ =>
        (setShowToken true (setCreatedToken generatedToken st),
         [toast_success (js "API key created successfully!"); router_refresh])
    | Resolved false error =>
        (st, [toast_error (or_else error (js "Failed to create API key"))])
    | Rejected => (st, [toast_error (js "Failed to create API key")])
    end in
  (setLoading false st, effects).

Definition handleClose (st : State) : State :=
  setFormData (fun _ => emptyForm)
    (setCreatedToken [] (setShowToken false (setOpen false st))).

(** The dialog's [onOpenChange]. *)
Definition onOpenChange (newOpen : bool) (st : State) : State :=
  let st := setOpen newOpen st in
  if negb newOpen then
    setFormData (fun _ => emptyForm) (setCreatedToken [] (setShowToken false st))
  else st.

(** [copyToClipboard]; [written] tells whether the clipboard took the
    text. *)
Definition copyToClipboard (written : bool) (st : State) : list Effect :=
  [clipboard_writeText (createdToken st);
   if written then toast_success (js "API key copied to clipboard!")
   else toast_error (js "Failed to copy API key")].

(** The component over time: its state, the calls of [createApiKey] that
    have not settled yet, and what it has done so far. *)
Inductive Event :=
| OpenChange (newOpen : bool)
| NameChange (v : list N)
| ScopeChange (scopes : list Option)
| ExpiresAtChange (v : list N)
| Submit (random : nat -> N)
| Settle (i : nat) (outcome : Outcome)
| Close
| Copy (written : bool).

Record World := { state : State; pending : list ApiKeyInput; done : list Effect }.

Definition start : World := {| state := initial; pending := []; done := [] |}.

Definition step (w : World) (e : Event) : World :=
  match e with
  | OpenChange b =>
      {| state := onOpenChange b (state w); pending := pending w; done := done w |}
  | NameChange v =>
      {| state := onNameChange v (state w); pending := pending w; done := done w |}
  | ScopeChange s =>
      {| state := handleScopeChange s (state w); pending := pending w; done := done w |}
  | ExpiresAtChange v =>
      {| state := onExpiresAtChange v (state w); pending := pending w; done := done w |}
  | Submit random =>
      match handleSubmit random (state w) with
      | Stopped effects =>
          {| state := state w; pending := pending w; done := done w ++ effects |}
      | Awaiting st input =>
          {| state := st; pending := pending w ++ [input]; done := done w |}
      end
  | Settle i outcome =>
      match pending w !! i with
      | Some input =>
          let '(st, effects) := handleSubmit_settled input outcome (state w) in
          {| state := st; pending := delete i (pending w); done := done w ++ effects |}
      | None => w
      end
  | Close => {| state := handleClose (state w); pending := pending w; done := done w |}
  | Copy written =>
      {| state := state w; pending := pending w;
         done := done w ++ copyToClipboard written (state w) |}
  end.

Definition run (events : list Event) : World := fold_left step events start.
End CreateApiKeyDialog.

(** ** features/platform/apps/screens/AppsPageClient.tsx

    As for the API-key dialog: [handleCreateApp] is split at its [await], and
    console output is left out. *)

Module AppsPageClient.
Import StringMethods.

Inductive AppType := shop | channel.

Record AvailableApp := {
  id : list N;
  title : list N;
  description : list N;
  type : AppType
}.

Definition AVAILABLE_APPS : list AvailableApp :=
  [ {| id := js "openship-shop";
       title := js "Openship Shop";
       description :=
         js "Connect to Openship to manage your orders and sync products from connected shops.";
       type := shop |};
    {| id := js "openship-channel";
       title := js "Openship Channel";
       description :=
         js "Allow Openship to use this store as a fulfillment channel for order processing.";
       type := channel |} ].

Inductive Status := active | inactive.

(** An existing OAuth app; [metadata] is not read by the component.  The
    handler tests [redirectUris] for being there at all, so it is optional
    here. *)
Record ExistingApp := {
  app_id : list N;
  name : list N;
  app_description : option (list N);
  clientId : list N;
  clientSecret : list N;
  redirectUris : option (list (list N));
  scopes : list (list N);
  status : Status
}.

Record State := {
  activatedApps : list (list N);
  isActivationDialogOpen : bool;
  selectedApp : option AvailableApp;
  openshipUrl : list N;
  isCreatingApp : bool
}.

Definition initial : State :=
  {| activatedApps := []; isActivationDialogOpen := false; selectedApp := None;
     openshipUrl := []; isCreatingApp := false |}.

Definition setActivatedApps (f : list (list N) -> list (list N)) (st : State) : State :=
  {| activatedApps := f (activatedApps st);
     isActivationDialogOpen := isActivationDialogOpen st; selectedApp := selectedApp st;
     openshipUrl := openshipUrl st; isCreatingApp := isCreatingApp st |}.
Definition setIsActivationDialogOpen (b : bool) (st : State) : State :=
  {| activatedApps := activatedApps st; isActivationDialogOpen := b;
     selectedApp := selectedApp st; openshipUrl := openshipUrl st;
     isCreatingApp := isCreatingApp st |}.
Definition setSelectedApp (a : option AvailableApp) (st : State) : State :=
  {| activatedApps := activatedApps st;
     isActivationDialogOpen := isActivationDialogOpen st; selectedApp := a;
     openshipUrl := openshipUrl st; isCreatingApp := isCreatingApp st |}.
Definition setOpenshipUrl (v : list N) (st : State) : State :=
  {| activatedApps := activatedApps st;
     isActivationDialogOpen := isActivationDialogOpen st; selectedApp := selectedApp st;
     openshipUrl := v; isCreatingApp := isCreatingApp st |}.
Definition setIsCreatingApp (b : bool) (st : State) : State :=
  {| activatedApps := activatedApps st;
     isActivationDialogOpen := isActivationDialogOpen st; selectedApp := selectedApp st;
     openshipUrl := openshipUrl st; isCreatingApp := b |}.

(** Array.prototype.find *)
Fixpoint find {A : Type} (p : A -> bool) (l : list A) : option A :=
  match l with
  | [] => None
  | x :: rest => if p x then Some x else find p rest
  end.

Definition handleActivate (appId : list N) (st : State) : State :=
  match find (fun a => bool_decide (id a = appId)) AVAILABLE_APPS with
  | Some app =>
      setIsActivationDialogOpen true (setOpenshipUrl [] (setSelectedApp (Some app) st))
  | None => st
  end.

(** The argument of [createOpenshipOAuthApp]. *)
Record OAuthAppInput := { appType : list N; input_openshipUrl : list N }.

Inductive Outcome :=
| Resolved (success : bool) (error : option (list N))
| Rejected.

Inductive Effect :=
| toast_error (message : list N)
| toast_success (message : list N)
| history_pushState (url : list N)
| location_reload.

Definition truthy (s : list N) : bool :=
  match s with [] => false | _ => true end.

Definition or_else (s : option (list N)) (fallback : list N) : list N :=
  match s with
  | Some (c :: t) => c :: t
  | _ => fallback
  end.

(** What [handleCreateApp] does up to its [await]; the callback keeps the
    [selectedApp] of the render it was made in. *)
Inductive Started :=
| Stopped
| Awaiting (st : State) (selectedApp : AvailableApp) (input : OAuthAppInput).

Definition handleCreateApp (st : State) : Started :=
  match selectedApp st with
  | None => Stopped
  | Some app =>
      if negb (truthy (trim (openshipUrl st))) then Stopped
      else Awaiting (setIsCreatingApp true st) app
             {| appType := id app; input_openshipUrl := trim (openshipUrl st) |}
  end.

Definition handleCreateApp_settled (selectedApp : AvailableApp) (outcome : Outcome)
    (st : State) : State * list Effect :=
  let '(st, effects) :=
    match outcome with
    | Resolved true _ =>
        (setOpenshipUrl []
           (setSelectedApp None
              (setIsActivationDialogOpen false
                 (setActivatedApps (fun prev => prev ++ [id selectedApp]) st))),
         [toast_success (title selectedApp ++ js " OAuth app created successfully!")])
    | Resolved false error =>
        (st, [toast_error (or_else error (js "Failed to create OAuth app"))])
    | Rejected => (st, [toast_error (js "An unexpected error occurred")])
    end in
  (setIsCreatingApp false st, effects).

(** The OAuth state of the marketplace flow. *)
Definition install_state (app : ExistingApp) (nonce : list N) : list N :=
  JSONText.stringify_object
    [ (js "type", js "marketplace");
      (js "client_id", clientId app);
      (js "client_secret", clientSecret app);
      (js "app_name", name app);
      (js "adapter_slug", js "openfront");
      (js "nonce", nonce) ].

(** [x[0]] of an array of strings as a parameter value: the string
    [undefined] when the array is empty. *)
Definition first_or_undefined (x : list (list N)) : list N :=
  match x with
  | u :: _ => u
  | [] => js "undefined"
  end.

(** The [searchParams] of [new URL(href)]: the parameters of the query,
    the part of [href] after the first question mark. *)
Definition URL_searchParams (href : list N) : URLSearchParams.t :=
  URLSearchParams.parse_bytes
    (JSString.utf8_encode_string (URLSearchParams.split_first 63 href).2).

(** The parameters that [handleInstall] sets on the current URL. *)
Definition handleInstall_params (uris : list (list N)) (app : ExistingApp)
    (href nonce : list N) : URLSearchParams.t :=
  let state := install_state app nonce in
  let params := URL_searchParams href in
  let params := URLSearchParams.set params (js "install") (js "true") in
  let params := URLSearchParams.set params (js "client_id") (clientId app) in
  let params := URLSearchParams.set params (js "scope") (join (js " ") (scopes app)) in
  let params := URLSearchParams.set params (js "redirect_uri") (first_or_undefined uris) in
  let params := URLSearchParams.set params (js "response_type") (js "code") in
  URLSearchParams.set params (js "state") state.

(** [handleInstall] at the URL [href] (path and query, no fragment), with
    [nonce] what [crypto.randomUUID] returns. *)
Definition handleInstall (app : ExistingApp) (href nonce : list N) : list Effect :=
  match redirectUris app with
  | None | Some [] => [toast_error (js "No redirect URI configured for this app")]
  | Some uris =>
      let currentUrl :=
        (URLSearchParams.split_first 63 href).1 ++ js "?"
        ++ URLSearchParams.toString (handleInstall_params uris app href nonce) in
      [history_pushState currentUrl; location_reload]
  end.

(** The component over time.  A reload starts the component afresh: its
    state is the initial one and the calls that were pending no longer
    reach it. *)
Inductive Event :=
| Activate (appId : list N)
| UrlChange (v : list N)
| DialogOpenChange (b : bool)
| Cancel
| CreateApp
| Settle (i : nat) (outcome : Outcome)
| Install (app : ExistingApp) (nonce : list N).

Record World := {
  href : list N;
  state : State;
  pending : list AvailableApp;
  done : list Effect
}.

Definition start (href : list N) : World :=
  {| href := href; state := initial; pending := []; done := [] |}.

Definition step (w : World) (e : Event) : World :=
  match e with
  | Activate appId =>
      {| href := href w; state := handleActivate appId (state w);
         pending := pending w; done := done w |}
  | UrlChange v =>
      {| href := href w; state := setOpenshipUrl v (state w);
         pending := pending w; done := done w |}
  | DialogOpenChange b =>
      {| href := href w; state := setIsActivationDialogOpen b (state w);
         pending := pending w; done := done w |}
  | Cancel =>
      {| href := href w; state := setIsActivationDialogOpen false (state w);
         pending := pending w; done := done w |}
  | CreateApp =>
      match handleCreateApp (state w) with
      | Stopped => w
      | Awaiting st app _ =>
          {| href := href w; state := st; pending := pending w ++ [app]; done := done w |}
      end
  | Settle i outcome =>
      match pending w !! i with
      | Some app =>
          let '(st, effects) := handleCreateApp_settled app outcome (state w) in
          {| href := href w; state := st; pending := delete i (pending w);
             done := done w ++ effects |}
      | None => w
      end
  | Install app nonce =>
      match handleInstall app (href w) nonce with
      | [history_pushState url; location_reload] =>
          {| href := url; state := initial; pending := [];
             done := done w ++ [history_pushState url; location_reload] |}
      | effects =>
          {| href := href w; state := state w; pending := pending w;
             done := done w ++ effects |}
      end
  end.

Definition run (href : list N) (events : list Event) : World :=
  fold_left step events (start href).
End AppsPageClient.

(** ** The character of the token that one random byte gives *)

Module TokenChars.
(** [chars[b % chars.length]], as [generateApiKeyToken] appends it. *)
Definition token_char (b : N) : list N :=
  CreateApiKey.char_at CreateApiKey.chars
    (b mod N.of_nat (length CreateApiKey.chars))%N.

(** The 256 values of a byte. *)
Definition byte_values : list N := map N.of_nat (seq 0 256).
End TokenChars.

(** * Part II: properties *)

(** * Facts about the parameter list *)

Section ParamsFacts.
Import URLSearchParams.
Implicit Types (params : URLSearchParams.t) (name value : list N).

Lemma delete_cons params n v name :
  delete ((n, v) :: params) name =
  if bool_decide (n = name) then delete params name else (n, v) :: delete params name.
Proof.
  unfold delete. rewrite filter_cons. simpl.
  case_bool_decide; case_decide; congruence.
Qed.

Lemma getAll_cons params n v name :
  getAll ((n, v) :: params) name =
  if bool_decide (n = name) then v :: getAll params name else getAll params name.
Proof.
  unfold getAll. rewrite filter_cons. simpl.
  case_bool_decide; case_decide; simpl; congruence.
Qed.

Lemma get_head_getAll params name : get params name = head (getAll params name).
Proof.
  induction params as [|[n v] rest IH]; [done|].
  rewrite getAll_cons. simpl. case_bool_decide; done.
Qed.

Lemma getAll_delete params name : getAll (delete params name) name = [].
Proof.
  induction params as [|[n v] rest IH]; [done|].
  rewrite delete_cons. case_bool_decide as E; [done|].
  rewrite getAll_cons, bool_decide_eq_false_2; done.
Qed.

Lemma getAll_delete_ne params name other :
  other <> name -> getAll (delete params name) other = getAll params other.
Proof.
  intros Hne. induction params as [|[n v] rest IH]; [done|].
  rewrite delete_cons, !getAll_cons.
  case_bool_decide as E1.
  - subst n. rewrite bool_decide_eq_false_2 by congruence. done.
  - rewrite getAll_cons. case_bool_decide; congruence.
Qed.

Lemma getAll_set params name value : getAll (set params name value) name = [value].
Proof.
  induction params as [|[n v] rest IH]; simpl.
  - rewrite getAll_cons, bool_decide_eq_true_2; done.
  - case_bool_decide as E.
    + subst n. rewrite getAll_cons, bool_decide_eq_true_2 by done.
      by rewrite getAll_delete.
    + rewrite getAll_cons, bool_decide_eq_false_2; done.
Qed.

Lemma getAll_set_ne params name value other :
  other <> name -> getAll (set params name value) other = getAll params other.
Proof.
  intros Hne. induction params as [|[n v] rest IH]; simpl.
  - rewrite getAll_cons, bool_decide_eq_false_2; done.
  - case_bool_decide as E.
    + subst n. rewrite !getAll_cons, !bool_decide_eq_false_2 by congruence.
      by apply getAll_delete_ne.
    + rewrite !getAll_cons. case_bool_decide; congruence.
Qed.

(** The pairs of other names keep their order. *)
Lemma delete_set params name value :
  delete (set params name value) name = delete params name.
Proof.
  induction params as [|[n v] rest IH]; simpl.
  - rewrite delete_cons, bool_decide_eq_true_2; done.
  - case_bool_decide as E.
    + subst n. rewrite !delete_cons, !bool_decide_eq_true_2 by done.
      unfold delete. rewrite list_filter_filter. apply list_filter_iff. tauto.
    + rewrite !delete_cons, !bool_decide_eq_false_2 by done. by rewrite IH.
Qed.

Lemma delete_comm params a b :
  delete (delete params a) b = delete (delete params b) a.
Proof.
  unfold delete. rewrite !list_filter_filter. apply list_filter_iff. tauto.
Qed.

Lemma delete_set_ne params name value other :
  other <> name ->
  delete (set params name value) other = set (delete params other) name value.
Proof.
  intros Hne. induction params as [|[n v] rest IH]; simpl.
  - rewrite delete_cons, bool_decide_eq_false_2; done.
  - case_bool_decide as E.
    + subst n. rewrite !delete_cons, !bool_decide_eq_false_2 by congruence.
      simpl. rewrite bool_decide_eq_true_2 by done. by rewrite delete_comm.
    + rewrite !delete_cons. case_bool_decide as E2; [done|].
      simpl. rewrite bool_decide_eq_false_2 by done. by rewrite IH.
Qed.
End ParamsFacts.

(** * Strings, UTF-16 and UTF-8 *)

(** Decide the comparisons on which a goal branches. *)
Ltac cases_N :=
  repeat match goal with
    | |- context [N.leb ?a ?b] => destruct (N.leb_spec a b); try lia
    | |- context [N.ltb ?a ?b] => destruct (N.ltb_spec a b); try lia
    | |- context [N.eqb ?a ?b] => destruct (N.eqb_spec a b); try lia
    end.

Section Encodings.
Import JSString.
Local Open Scope N_scope.

Lemma list_ind_length {A : Type} (P : list A -> Prop) :
  (forall l, (forall l', (length l' < length l)%nat -> P l') -> P l) -> forall l, P l.
Proof.
  intros H l. remember (length l) as n eqn:Hn. revert l Hn.
  induction n as [n IH] using lt_wf_ind. intros l ->.
  apply H. intros l' Hl'. by apply (IH (length l')).
Qed.

Lemma utf16_encode_pair (c d : N) :
  is_high_surrogate c = true -> is_low_surrogate d = true ->
  utf16_encode (pair_code_point c d) = [c; d]
  /\ is_scalar_value (pair_code_point c d) = true.
Proof.
  unfold is_high_surrogate, is_low_surrogate, utf16_encode, pair_code_point, is_scalar_value.
  intros Hc Hd. apply andb_true_iff in Hc as [Hc1 Hc2]. apply andb_true_iff in Hd as [Hd1 Hd2].
  apply N.leb_le in Hc1, Hc2, Hd1, Hd2.
  split.
  - cases_N. f_equal; [|f_equal]; lia.
  - cases_N. all: simpl; try done; lia.
Qed.

Lemma utf16_encode_unit (c : N) :
  is_high_surrogate c = false -> is_low_surrogate c = false -> (c <? 0x10000) = true ->
  utf16_encode c = [c] /\ is_scalar_value c = true.
Proof.
  unfold is_high_surrogate, is_low_surrogate, utf16_encode, is_scalar_value.
  intros Hh Hl Hc. rewrite Hc. split; [done|].
  apply N.ltb_lt in Hc. revert Hh Hl. cases_N; simpl; try done.
Qed.

(** A well-formed string is the UTF-16 form of its scalar values. *)
Lemma well_formed_scalar_values (s : list N) :
  well_formed s = true ->
  of_code_points (to_scalar_values s) = s
  /\ Forall (fun cp => is_scalar_value cp = true) (to_scalar_values s).
Proof.
  induction s as [s IH] using list_ind_length. destruct s as [|c t]; [done|].
  simpl. destruct (is_high_surrogate c) eqn:Hh.
  - destruct t as [|d t']; [done|]. destruct (is_low_surrogate d) eqn:Hl; [|done].
    simpl. intros Hwf. destruct (IH t') as [IH1 IH2]; [simpl; lia|done|].
    destruct (utf16_encode_pair c d Hh Hl) as [He Hs].
    unfold of_code_points in *. rewrite map_cons, concat_cons, He, IH1.
    split; [done|]. by constructor.
  - intros Hwf. apply andb_true_iff in Hwf as [Hwf Hwt].
    apply andb_true_iff in Hwf as [Hl Hc]. apply negb_true_iff in Hl.
    rewrite Hl. destruct (IH t) as [IH1 IH2]; [simpl; lia|done|].
    destruct (utf16_encode_unit c Hh Hl Hc) as [He Hs].
    unfold of_code_points in *. rewrite map_cons, concat_cons, He, IH1.
    split; [done|]. by constructor.
Qed.

Lemma utf8_encode_bytes (cp : N) :
  is_scalar_value cp = true -> Forall (fun b => b < 256) (utf8_encode cp).
Proof.
  unfold is_scalar_value, utf8_encode. intros H.
  assert (cp <= 0x10FFFF) by (revert H; cases_N; simpl; try done; lia).
  cases_N; repeat constructor; lia.
Qed.

(** The decoder reads back the UTF-8 form of a scalar value. *)
Lemma utf8_decode_encode_1 (cp : N) (rest : list N) :
  is_scalar_value cp = true ->
  utf8_decode_from U_start (utf8_encode cp ++ rest) = cp :: utf8_decode_from U_start rest.
Proof.
  unfold is_scalar_value, utf8_encode. intros H.
  assert (Hs : cp < 0xD800 \/ 0xE000 <= cp <= 0x10FFFF)
    by (revert H; cases_N; simpl; try done; lia).
  clear H.
  destruct (N.ltb_spec cp 0x80);
    [|destruct (N.ltb_spec cp 0x800); [|destruct (N.ltb_spec cp 0x10000)]];
    simpl; unfold utf8_lead; repeat (cases_N; simpl); f_equal; lia.
Qed.

Lemma utf8_decode_encode (cps : list N) :
  Forall (fun cp => is_scalar_value cp = true) cps ->
  utf8_decode_from U_start (concat (map utf8_encode cps)) = cps.
Proof.
  induction 1 as [|cp cps Hcp _ IH]; [done|].
  rewrite map_cons, concat_cons, utf8_decode_encode_1 by done. by rewrite IH.
Qed.

(** UTF-8 encoding followed by UTF-8 decoding gives back a well-formed
    string. *)
Lemma utf8_decode_encode_string (s : list N) :
  well_formed s = true -> utf8_decode (utf8_encode_string s) = s.
Proof.
  intros Hwf. destruct (well_formed_scalar_values s Hwf) as [H1 H2].
  unfold utf8_decode, utf8_encode_string. by rewrite utf8_decode_encode.
Qed.

Lemma utf8_encode_string_bytes (s : list N) :
  well_formed s = true -> Forall (fun b => b < 256) (utf8_encode_string s).
Proof.
  intros Hwf. destruct (well_formed_scalar_values s Hwf) as [_ H2].
  unfold utf8_encode_string. induction H2 as [|cp cps Hcp _ IH]; [constructor|].
  rewrite map_cons, concat_cons. apply Forall_app. split; [|done].
  by apply utf8_encode_bytes.
Qed.

(** A string of ASCII code units is its own UTF-8 form. *)
Lemma utf8_encode_string_ascii (s : list N) :
  Forall (fun c => c < 128) s -> utf8_encode_string s = s.
Proof.
  unfold utf8_encode_string. induction 1 as [|c s Hc _ IH]; [done|].
  simpl. unfold is_high_surrogate, is_low_surrogate. cases_N. simpl.
  unfold utf8_encode at 1. cases_N. simpl. by rewrite IH.
Qed.
End Encodings.

(** * Serialising and parsing a query *)

Section FormUrlencoded.
Import JSString URLSearchParams.
Local Open Scope N_scope.

Lemma hexval_hexdigit_upper (d : N) : d < 16 -> hexval (hexdigit_upper d) = Some d.
Proof.
  intros Hd. unfold hexval, hexdigit_upper.
  repeat (cases_N; simpl); f_equal; lia.
Qed.

Lemma is_form_unit_spec (c : N) :
  is_form_unit c = true -> c < 128 /\ c <> 38 /\ c <> 61 /\ c <> 63.
Proof.
  unfold is_form_unit, is_unreserved, is_alphanumeric.
  repeat (cases_N; simpl); try done; lia.
Qed.

Lemma encode_byte_form (b : N) :
  b < 256 -> Forall (fun c => is_form_unit c = true) (encode_byte b).
Proof.
  intros Hb. unfold encode_byte. destruct (is_unreserved b) eqn:Hu.
  - constructor; [|constructor]. unfold is_form_unit. by rewrite Hu.
  - destruct (N.eqb_spec b 32); [by repeat constructor|].
    assert (H1 : b / 16 < 16) by lia. assert (H2 : b mod 16 < 16) by lia.
    revert H1 H2. generalize (b / 16) (b mod 16). intros x y Hx Hy.
    repeat constructor; unfold is_form_unit, is_unreserved, is_alphanumeric, hexdigit_upper;
      repeat (cases_N; simpl); done.
Qed.

Lemma encode_form (s : list N) :
  well_formed s = true -> Forall (fun c => is_form_unit c = true) (encode s).
Proof.
  intros Hwf. unfold encode.
  pose proof (utf8_encode_string_bytes s Hwf) as Hb.
  induction Hb as [|b bs Hb _ IH]; [constructor|].
  rewrite map_cons, concat_cons. apply Forall_app. split; [|done].
  by apply encode_byte_form.
Qed.

Lemma percent_decode_encode_byte (b : N) (rest : list N) :
  b < 256 ->
  percent_decode (plus_to_space (encode_byte b) ++ rest) = b :: percent_decode rest.
Proof.
  intros Hb. unfold encode_byte. destruct (is_unreserved b) eqn:Hu.
  - assert (b <> 43 /\ b <> 37) as [H1 H2].
    { revert Hu. unfold is_unreserved, is_alphanumeric.
      repeat (cases_N; simpl); try done; lia. }
    simpl. destruct (N.eqb_spec b 43); [done|]. destruct (N.eqb_spec b 37); done.
  - destruct (N.eqb_spec b 32) as [->|Hne]; [done|].
    assert (H1 : b / 16 < 16) by lia. assert (H2 : b mod 16 < 16) by lia.
    assert (He : 16 * (b / 16) + b mod 16 = b) by lia.
    pose proof (hexval_hexdigit_upper _ H1) as Hx1.
    pose proof (hexval_hexdigit_upper _ H2) as Hx2.
    assert (Hp1 : hexdigit_upper (b / 16) <> 43)
      by (unfold hexdigit_upper; cases_N).
    assert (Hp2 : hexdigit_upper (b mod 16) <> 43)
      by (unfold hexdigit_upper; cases_N).
    unfold plus_to_space. rewrite !map_cons. simpl map.
    destruct (N.eqb_spec (hexdigit_upper (b / 16)) 43); [done|].
    destruct (N.eqb_spec (hexdigit_upper (b mod 16)) 43); [done|].
    change (37 =? 43) with false. cbv iota.
    change ([37; hexdigit_upper (b / 16); hexdigit_upper (b mod 16)] ++ rest)
      with (37 :: hexdigit_upper (b / 16) :: hexdigit_upper (b mod 16) :: rest).
    cbn [percent_decode]. change (37 =? 37) with true. cbv iota.
    by rewrite Hx1, Hx2, He.
Qed.

Lemma percent_decode_encode_bytes (bs : list N) :
  Forall (fun b => b < 256) bs ->
  percent_decode (plus_to_space (concat (map encode_byte bs))) = bs.
Proof.
  induction 1 as [|b bs Hb _ IH]; [done|].
  rewrite map_cons, concat_cons. unfold plus_to_space at 1. rewrite map_app.
  fold (plus_to_space (encode_byte b)). fold (plus_to_space (concat (map encode_byte bs))).
  rewrite percent_decode_encode_byte by done. by rewrite IH.
Qed.

(** A name or value survives its encoding. *)
Lemma decode_encode (s : list N) : well_formed s = true -> decode (encode s) = s.
Proof.
  intros Hwf. unfold decode, encode.
  rewrite percent_decode_encode_bytes by by apply utf8_encode_string_bytes.
  by apply utf8_decode_encode_string.
Qed.

Lemma split_first_app (sep : N) (a b : list N) :
  Forall (fun c => c <> sep) a -> split_first sep (a ++ sep :: b) = (a, b).
Proof.
  induction 1 as [|c a Hc _ IH]; simpl.
  - by rewrite N.eqb_refl.
  - destruct (N.eqb_spec c sep); [done|]. by rewrite IH.
Qed.

Lemma split_on_plain (sep : N) (a : list N) :
  Forall (fun c => c <> sep) a -> split_on sep a = [a].
Proof.
  induction 1 as [|c a Hc _ IH]; simpl; [done|].
  destruct (N.eqb_spec c sep); [done|]. by rewrite IH.
Qed.

Lemma split_on_app (sep : N) (a r : list N) :
  Forall (fun c => c <> sep) a -> split_on sep (a ++ sep :: r) = a :: split_on sep r.
Proof.
  induction 1 as [|c a Hc _ IH]; simpl.
  - by rewrite N.eqb_refl.
  - destruct (N.eqb_spec c sep); [done|]. by rewrite IH.
Qed.

Lemma split_on_join_amp (segs : list (list N)) :
  Forall (fun seg => Forall (fun c => c <> 38) seg) segs ->
  segs <> [] -> split_on 38 (join_amp segs) = segs.
Proof.
  induction 1 as [|seg segs Hseg Hsegs IH]; [done|]. intros _.
  destruct segs as [|seg' segs'].
  - simpl. by apply split_on_plain.
  - change (join_amp (seg :: seg' :: segs')) with (seg ++ 38 :: join_amp (seg' :: segs')).
    rewrite split_on_app by done. by rewrite IH.
Qed.

Lemma join_amp_forall (P : N -> Prop) (segs : list (list N)) :
  P 38 -> Forall (Forall P) segs -> Forall P (join_amp segs).
Proof.
  intros Hamp. induction 1 as [|seg segs Hseg Hsegs IH]; [constructor|].
  destruct segs as [|seg' segs']; [done|].
  change (join_amp (seg :: seg' :: segs')) with (seg ++ 38 :: join_amp (seg' :: segs')).
  apply Forall_app. split; [done|]. by constructor.
Qed.

Lemma join_amp_head (segs : list (list N)) (c : N) (r : list N) :
  join_amp segs = c :: r ->
  exists seg segs', segs = seg :: segs' /\ (seg = [] /\ c = 38 \/ exists t, seg = c :: t).
Proof.
  destruct segs as [|seg segs']; [done|]. intros H.
  exists seg, segs'. split; [done|].
  destruct seg as [|x t].
  - left. destruct segs'; [done|]. simpl in H. by injection H as <- _.
  - right. exists t. destruct segs'; simpl in H; by injection H as <- _.
Qed.

Lemma filter_all {A : Type} (P : A -> Prop) `{!forall x, Decision (P x)} (l : list A) :
  Forall P l -> filter P l = l.
Proof.
  induction 1 as [|x l Hx _ IH]; [done|]. by rewrite filter_cons_True, IH.
Qed.

Lemma pair_segment_units (p : list N * list N) :
  well_formed p.1 = true -> well_formed p.2 = true ->
  Forall (fun c => c < 128 /\ c <> 38) (pair_segment p)
  /\ pair_segment p <> []
  /\ (forall c t, pair_segment p = c :: t -> c <> 63).
Proof.
  intros H1 H2. unfold pair_segment.
  pose proof (encode_form _ H1) as F1. pose proof (encode_form _ H2) as F2.
  assert (G : forall l, Forall (fun c => is_form_unit c = true) l ->
                        Forall (fun c => c < 128 /\ c <> 38 /\ c <> 63) l).
  { intros l Hl. eapply Forall_impl; [exact Hl|]. intros c Hc.
    destruct (is_form_unit_spec c Hc) as (? & ? & ? & ?). done. }
  apply G in F1, F2.
  assert (F : Forall (fun c => c < 128 /\ c <> 38 /\ c <> 63) (encode p.1 ++ 61 :: encode p.2)).
  { apply Forall_app. split; [done|]. constructor; [lia|done]. }
  split; [|split].
  - eapply Forall_impl; [exact F|]. simpl. tauto.
  - by destruct (encode p.1).
  - intros c t Heq. rewrite Heq in F. apply Forall_cons in F as [(_ & _ & ?) _]. done.
Qed.

Lemma parse_pair_segment (p : list N * list N) :
  well_formed p.1 = true -> well_formed p.2 = true -> parse_pair (pair_segment p) = p.
Proof.
  intros H1 H2. unfold parse_pair, pair_segment.
  rewrite split_first_app.
  - rewrite !decode_encode by done. by destruct p.
  - eapply Forall_impl; [by apply encode_form|]. intros c Hc.
    by destruct (is_form_unit_spec c Hc) as (? & ? & ? & ?).
Qed.

(** Parsing the serialisation of a parameter list gives the list back. *)
Theorem new_toString (params : URLSearchParams.t) :
  well_formed_params params = true -> new (toString params) = params.
Proof.
  intros Hwf. unfold well_formed_params in Hwf. rewrite forallb_forall in Hwf.
  assert (Hwf' : Forall (fun p => well_formed p.1 = true /\ well_formed p.2 = true) params).
  { apply Forall_forall. intros p Hp. apply andb_true_iff, Hwf.
    by apply list_elem_of_In. }
  clear Hwf. unfold toString.
  set (segs := map pair_segment params).
  assert (Hsegs : Forall (fun seg => Forall (fun c => c < 128 /\ c <> 38) seg /\ seg <> []
                                    /\ (forall c t, seg = c :: t -> c <> 63)) segs).
  { unfold segs. apply Forall_fmap. eapply Forall_impl; [exact Hwf'|].
    intros p [H1 H2]. by apply pair_segment_units. }
  assert (Hjoin : Forall (fun c => c < 128) (join_amp segs)).
  { apply join_amp_forall; [lia|]. eapply Forall_impl; [exact Hsegs|].
    intros seg (H & _). eapply Forall_impl; [exact H|]. simpl. tauto. }
  unfold new.
  assert (Hstrip : match join_amp segs with
                   | c :: r => if c =? 63 then r else join_amp segs
                   | [] => join_amp segs
                   end = join_amp segs).
  { destruct (join_amp segs) as [|c r] eqn:E; [done|].
    destruct (N.eqb_spec c 63) as [->|]; [|done]. exfalso.
    destruct (join_amp_head _ _ _ E) as (seg & segs' & Hs & [[_ ?]|[t ->]]); [done|].
    rewrite Hs in Hsegs. apply Forall_cons in Hsegs as [(_ & _ & H) _].
    by apply (H 63 t). }
  rewrite Hstrip, utf8_encode_string_ascii by done. unfold parse_bytes.
  destruct params as [|p params']; [done|].
  rewrite split_on_join_amp.
  - rewrite filter_all.
    + unfold segs. clear -Hwf'. induction Hwf' as [|q qs [H1 H2] _ IH]; [done|].
      rewrite !map_cons. by rewrite parse_pair_segment, IH.
    + eapply Forall_impl; [exact Hsegs|]. intros seg (_ & H & _). exact H.
  - eapply Forall_impl; [exact Hsegs|]. intros seg (H & _).
    eapply Forall_impl; [exact H|]. simpl. tauto.
  - done.
Qed.
End FormUrlencoded.

Section DecoderOutput.
Import JSString URLSearchParams.
Local Open Scope N_scope.

Lemma is_scalar_value_spec (cp : N) :
  is_scalar_value cp = true <-> cp < 0xD800 \/ 0xE000 <= cp <= 0x10FFFF.
Proof.
  unfold is_scalar_value. repeat (cases_N; simpl); split; intros; try done; lia.
Qed.

Lemma utf8_lead_ok (b : N) :
  state_ok (utf8_lead b).1 /\ Forall (fun cp => is_scalar_value cp = true) (utf8_lead b).2.
Proof.
  unfold utf8_lead. repeat (cases_N; simpl).
  all: repeat match goal with
         | |- _ /\ _ => split
         | |- True => exact I
         | |- Forall _ [] => constructor
         | |- Forall _ (_ :: _) => constructor
         | |- is_scalar_value _ = true => apply is_scalar_value_spec
         | |- forall _, _ => intro
         end; lia.
Qed.

Lemma pending_ok_unfold (remaining : nat) (cp lower upper : N) :
  pending_ok remaining cp lower upper ->
  0x80 <= lower /\ upper <= 0xBF /\
  forall b, lower <= b <= upper ->
    match remaining with
    | S (S _ as r) => pending_ok r (cp * 64 + (b - 0x80)) 0x80 0xBF
    | _ => is_scalar_value (cp * 64 + (b - 0x80)) = true
    end.
Proof. by destruct remaining. Qed.

Lemma utf8_step_ok (st : utf8_state) (b : N) :
  state_ok st ->
  state_ok (utf8_step st b).1 /\ Forall (fun cp => is_scalar_value cp = true) (utf8_step st b).2.
Proof.
  destruct st as [|cp remaining lower upper]; simpl; [intros _; apply utf8_lead_ok|].
  intros Hok. apply pending_ok_unfold in Hok as (Hl & Hu & Hb).
  destruct (N.leb_spec lower b); [destruct (N.leb_spec b upper)|]; simpl.
  - specialize (Hb b (conj H H0)).
    destruct remaining as [|[|r]]; simpl; split; try done; by repeat constructor.
  - destruct (utf8_lead_ok b) as [H1 H2]. destruct (utf8_lead b) as [st' out]. simpl in *.
    split; [done|]. by constructor.
  - destruct (utf8_lead_ok b) as [H1 H2]. destruct (utf8_lead b) as [st' out]. simpl in *.
    split; [done|]. by constructor.
Qed.

Lemma utf8_decode_from_scalar (st : utf8_state) (bs : list N) :
  state_ok st -> Forall (fun cp => is_scalar_value cp = true) (utf8_decode_from st bs).
Proof.
  revert st. induction bs as [|b bs IH]; intros st Hst; simpl.
  - destruct st; by repeat constructor.
  - destruct (utf8_step_ok st b Hst) as [H1 H2].
    destruct (utf8_step st b) as [st' out]. simpl in *.
    apply Forall_app. split; [done|]. by apply IH.
Qed.

Lemma well_formed_utf16_encode (cp : N) (rest : list N) :
  is_scalar_value cp = true ->
  well_formed (utf16_encode cp ++ rest) = well_formed rest.
Proof.
  intros H. apply is_scalar_value_spec in H. unfold utf16_encode.
  destruct (N.ltb_spec cp 0x10000); simpl;
    unfold is_high_surrogate, is_low_surrogate; repeat (cases_N; simpl); done.
Qed.

Lemma well_formed_of_code_points (cps : list N) :
  Forall (fun cp => is_scalar_value cp = true) cps -> well_formed (of_code_points cps) = true.
Proof.
  unfold of_code_points. induction 1 as [|cp cps Hcp _ IH]; [done|].
  rewrite map_cons, concat_cons. by rewrite well_formed_utf16_encode.
Qed.

Lemma well_formed_decode (bytes : list N) : well_formed (decode bytes) = true.
Proof.
  unfold decode, utf8_decode. apply well_formed_of_code_points.
  by apply utf8_decode_from_scalar.
Qed.

(** Every parameter list made from a string holds scalar value strings. *)
Theorem well_formed_new (init : list N) : well_formed_params (new init) = true.
Proof.
  unfold new, parse_bytes, well_formed_params.
  apply forallb_forall. intros p Hp. apply in_map_iff in Hp as (seg & <- & _).
  unfold parse_pair. destruct (split_first 61 seg) as [name value]. simpl.
  by rewrite !well_formed_decode.
Qed.
End DecoderOutput.

(** * JSON.parse after JSON.stringify *)

Section JsonRoundTrip.
Import JSString JSON.
Local Open Scope N_scope.

Lemma run_app (s : state) (a b : list N) :
  run s (a ++ b) = match run s a with Some s' => run s' b | None => None end.
Proof.
  revert s. induction a as [|c a IH]; intros s; simpl; [done|].
  destruct (step s c); [apply IH|done].
Qed.

Lemma hexval_hexdigit_lower (d : N) : d < 16 -> hexval (hexdigit_lower d) = Some d.
Proof.
  intros Hd. unfold hexval, hexdigit_lower.
  repeat (cases_N; simpl); f_equal; lia.
Qed.

Lemma run_step (s s' : state) (c : N) (t : list N) :
  step s c = Some s' -> run s (c :: t) = run s' t.
Proof. intros H. simpl. by rewrite H. Qed.

Lemma step_Uni (r : role) (buf : list N) (stack : list frame) (acc : N) (k : nat) (c d : N) :
  hexval c = Some d ->
  step (Uni r buf acc (S (S k)), stack) c = Some (Uni r buf (16 * acc + d) (S k), stack).
Proof. intros H. simpl. by rewrite H. Qed.

Lemma step_Uni_last (r : role) (buf : list N) (stack : list frame) (acc : N) (c d : N) :
  hexval c = Some d ->
  step (Uni r buf acc 1, stack) c = Some (Str r (buf ++ [16 * acc + d]), stack).
Proof. intros H. simpl. by rewrite H. Qed.

Lemma run_unicode_escape (r : role) (buf : list N) (stack : list frame) (c : N) (rest : list N) :
  c < 65536 ->
  run (Str r buf, stack) (unicode_escape c ++ rest) = run (Str r (buf ++ [c]), stack) rest.
Proof.
  intros Hc. unfold unicode_escape.
  assert (H3 : c / 4096 < 16) by lia. assert (H2 : (c / 256) mod 16 < 16) by lia.
  assert (H1 : (c / 16) mod 16 < 16) by lia. assert (H0 : c mod 16 < 16) by lia.
  assert (He : 16 * (16 * (16 * (16 * 0 + c / 4096) + (c / 256) mod 16) + (c / 16) mod 16)
               + c mod 16 = c) by lia.
  cbn [app].
  rewrite (run_step _ (Esc r buf, stack)) by reflexivity.
  rewrite (run_step _ (Uni r buf 0 4, stack)) by reflexivity.
  rewrite (run_step _ _ _ _ (step_Uni _ _ _ _ _ _ _ (hexval_hexdigit_lower _ H3))).
  rewrite (run_step _ _ _ _ (step_Uni _ _ _ _ _ _ _ (hexval_hexdigit_lower _ H2))).
  rewrite (run_step _ _ _ _ (step_Uni _ _ _ _ _ _ _ (hexval_hexdigit_lower _ H1))).
  rewrite (run_step _ _ _ _ (step_Uni_last _ _ _ _ _ _ (hexval_hexdigit_lower _ H0))).
  by rewrite He.
Qed.

Lemma run_plain_unit (r : role) (buf : list N) (stack : list frame) (c : N) (rest : list N) :
  32 <= c -> c <> 34 -> c <> 92 ->
  run (Str r buf, stack) (c :: rest) = run (Str r (buf ++ [c]), stack) rest.
Proof.
  intros H1 H2 H3. apply run_step. simpl.
  destruct (N.eqb_spec c 34); [done|]. destruct (N.eqb_spec c 92); [done|].
  destruct (N.ltb_spec c 32); [lia|]. done.
Qed.

Lemma run_quote_unit (r : role) (buf : list N) (stack : list frame) (c : N) (rest : list N) :
  run (Str r buf, stack) (quote_unit c ++ rest) = run (Str r (buf ++ [c]), stack) rest.
Proof.
  unfold quote_unit.
  destruct (N.eqb_spec c 8) as [->|]; [done|].
  destruct (N.eqb_spec c 9) as [->|]; [done|].
  destruct (N.eqb_spec c 10) as [->|]; [done|].
  destruct (N.eqb_spec c 12) as [->|]; [done|].
  destruct (N.eqb_spec c 13) as [->|]; [done|].
  destruct (N.eqb_spec c 34) as [->|]; [done|].
  destruct (N.eqb_spec c 92) as [->|]; [done|].
  destruct (N.ltb_spec c 32).
  - apply run_unicode_escape. lia.
  - by apply run_plain_unit.
Qed.

(** Inside a string literal the parser reads the quoted form of [s] as
    [s]. *)
Lemma run_quote_units (r : role) (stack : list frame) (s : list N) :
  forall (buf rest : list N),
    run (Str r buf, stack) (quote_units s ++ rest) = run (Str r (buf ++ s), stack) rest.
Proof.
  induction s as [s IH] using list_ind_length. intros buf rest.
  destruct s as [|c t]; [by rewrite app_nil_r|].
  assert (Hsur : is_surrogate c = true ->
                 run (Str r buf, stack) ((unicode_escape c ++ quote_units t) ++ rest)
                 = run (Str r (buf ++ c :: t), stack) rest).
  { intros Hs. rewrite <- app_assoc, run_unicode_escape.
    - rewrite IH by (simpl; lia). by rewrite <- app_assoc.
    - revert Hs. unfold is_surrogate. cases_N; simpl; try done; lia. }
  cbn [quote_units]. destruct (is_high_surrogate c) eqn:Hh.
  - assert (Hs : is_surrogate c = true).
    { revert Hh. unfold is_high_surrogate, is_surrogate. repeat (cases_N; simpl); done. }
    destruct t as [|d t'].
    + rewrite <- (Hsur Hs). cbn [quote_units]. by rewrite app_nil_r.
    + destruct (is_low_surrogate d) eqn:Hl; [|by apply Hsur].
      rewrite <- !app_comm_cons. rewrite run_plain_unit.
      2-4: revert Hh; unfold is_high_surrogate; repeat (cases_N; simpl); try done; lia.
      rewrite run_plain_unit.
      2-4: revert Hl; unfold is_low_surrogate; repeat (cases_N; simpl); try done; lia.
      rewrite IH by (simpl; lia). by rewrite <- !app_assoc.
  - destruct (is_low_surrogate c) eqn:Hl.
    + apply Hsur.
      revert Hl. unfold is_low_surrogate, is_surrogate. repeat (cases_N; simpl); done.
    + rewrite <- app_assoc, run_quote_unit, IH by (simpl; lia). by rewrite <- app_assoc.
Qed.

(** A one-element array of a string is parsed back as it was. *)
Theorem parse_stringify_1 (k : list N) :
  parse (stringify_strings [k]) = Some (JArray [JString k]).
Proof.
  unfold parse, stringify_strings, QuoteJSONString. simpl map. cbn [join_comma].
  change (91 :: (34 :: quote_units k ++ [34]) ++ [93])
    with (91 :: 34 :: (quote_units k ++ [34]) ++ [93]).
  rewrite <- app_assoc.
  change (run (Value, []) (91 :: 34 :: quote_units k ++ [34] ++ [93]))
    with (run (Str AsValue [], [InArray []]) (quote_units k ++ [34; 93])).
  by rewrite run_quote_units.
Qed.

(** The quoted form brings in no percent sign. *)
Lemma quote_units_percent (s : list N) :
  Forall (fun c => c <> 37) s -> Forall (fun c => c <> 37) (quote_units s).
Proof.
  assert (Hhex : forall d, d < 16 -> hexdigit_lower d <> 37).
  { intros d Hd. unfold hexdigit_lower. cases_N. }
  assert (Hesc : forall c, c < 65536 -> Forall (fun c => c <> 37) (unicode_escape c)).
  { intros c Hc. unfold unicode_escape. repeat constructor; try done; apply Hhex; lia. }
  induction s as [s IH] using list_ind_length. intros Hs.
  destruct s as [|c t]; [constructor|].
  apply Forall_cons in Hs as [Hc Ht]. cbn [quote_units].
  destruct (is_high_surrogate c) eqn:Hh.
  - assert (c < 65536)
      by (revert Hh; unfold is_high_surrogate; repeat (cases_N; simpl); try done; lia).
    destruct t as [|d t']; [by apply Hesc|]. destruct (is_low_surrogate d).
    + apply Forall_cons in Ht as [Hd Ht']. constructor; [done|]. constructor; [done|].
      apply IH; [simpl; lia|done].
    + apply Forall_app. split; [by apply Hesc|]. apply IH; [simpl; lia|done].
  - destruct (is_low_surrogate c) eqn:Hl.
    + assert (c < 65536)
        by (revert Hl; unfold is_low_surrogate; repeat (cases_N; simpl); try done; lia).
      apply Forall_app. split; [by apply Hesc|]. apply IH; [simpl; lia|done].
    + apply Forall_app. split; [|apply IH; [simpl; lia|done]].
      unfold quote_unit. repeat (cases_N; simpl); try by repeat constructor.
      apply Hesc. lia.
Qed.

(** The quoted form is well-formed UTF-16, whatever surrogates [s] has. *)
Lemma quote_units_well_formed (s rest : list N) :
  Forall (fun c => c < 65536) s ->
  well_formed (quote_units s ++ rest) = well_formed rest.
Proof.
  assert (Hascii : forall a l, Forall (fun c => c < 128) a -> well_formed (a ++ l) = well_formed l).
  { intros a l. induction 1 as [|c a Hc _ IHa]; [done|]. simpl.
    unfold is_high_surrogate, is_low_surrogate. repeat (cases_N; simpl). done. }
  assert (Hhex : forall d, d < 16 -> hexdigit_lower d < 128).
  { intros d Hd. unfold hexdigit_lower. cases_N. }
  assert (Hesc : forall c, c < 65536 -> Forall (fun c => c < 128) (unicode_escape c)).
  { intros c Hc. unfold unicode_escape. repeat constructor; try done; apply Hhex; lia. }
  induction s as [s IH] using list_ind_length. intros Hs.
  destruct s as [|c t]; [done|].
  apply Forall_cons in Hs as [Hc Ht]. cbn [quote_units].
  destruct (is_high_surrogate c) eqn:Hh.
  - destruct t as [|d t']; [by rewrite Hascii by by apply Hesc|].
    destruct (is_low_surrogate d) eqn:Hl.
    + apply Forall_cons in Ht as [Hd Ht']. rewrite <- !app_comm_cons.
      cbn [well_formed]. rewrite Hh, Hl. cbn [andb].
      apply IH; [simpl; lia|done].
    + rewrite <- app_assoc, Hascii by by apply Hesc. apply IH; [simpl; lia|done].
  - destruct (is_low_surrogate c) eqn:Hl.
    + rewrite <- app_assoc, Hascii by by apply Hesc. apply IH; [simpl; lia|done].
    + rewrite <- app_assoc.
      assert (Hq : well_formed (quote_unit c ++ quote_units t ++ rest)
                   = well_formed (quote_units t ++ rest)).
      { unfold quote_unit. repeat (cases_N; try done).
        - apply Hascii. apply Hesc. lia.
        - rewrite <- app_comm_cons, app_nil_l. cbn [well_formed]. rewrite Hh, Hl.
          cbn [negb andb]. destruct (N.ltb_spec c 65536); [done|lia]. }
      rewrite Hq. apply IH; [simpl; lia|done].
Qed.

Lemma stringify_1_well_formed (k : list N) :
  Forall (fun c => c < 65536) k -> well_formed (stringify_strings [k]) = true.
Proof.
  intros Hk. unfold stringify_strings, QuoteJSONString. simpl map. cbn [join_comma].
  change (91 :: (34 :: quote_units k ++ [34]) ++ [93])
    with (91 :: 34 :: (quote_units k ++ [34]) ++ [93]).
  rewrite <- app_assoc.
  change (well_formed (91 :: 34 :: quote_units k ++ [34] ++ [93]))
    with (well_formed (quote_units k ++ [34] ++ [93])).
  by rewrite quote_units_well_formed.
Qed.

Lemma stringify_1_percent (k : list N) :
  Forall (fun c => c <> 37) k -> Forall (fun c => c <> 37) (stringify_strings [k]).
Proof.
  intros Hk. unfold stringify_strings, QuoteJSONString. simpl map. cbn [join_comma].
  constructor; [done|]. apply Forall_app. split; [|by repeat constructor].
  constructor; [done|]. apply Forall_app. split; [|by repeat constructor].
  by apply quote_units_percent.
Qed.
End JsonRoundTrip.

Section DecodeURIComponent.
Import URI.
Local Open Scope N_scope.

(** Without a percent sign there is nothing to decode. *)
Lemma decodeURIComponent_plain (s : list N) :
  Forall (fun c => c <> 37) s -> decodeURIComponent s = Some s.
Proof.
  intros Hs. unfold decodeURIComponent.
  assert (Hi : items s = Some (map Unit s)).
  { induction Hs as [|c s Hc _ IH]; [done|]. simpl.
    destruct (N.eqb_spec c 37); [done|]. by rewrite IH. }
  rewrite Hi. clear. induction s as [|c s IH]; [done|]. simpl. by rewrite IH.
Qed.
End DecodeURIComponent.

(** * Navigation *)

Section Navigation.
Import JSString URLSearchParams StatusTabs.
Local Open Scope N_scope.

Lemma split_first_fst (sep : N) (s : list N) :
  Forall (fun c => c <> sep) (split_first sep s).1.
Proof.
  induction s as [|c s IH]; simpl; [constructor|].
  destruct (N.eqb_spec c sep); [constructor|].
  destruct (split_first sep s) as [a b]. simpl in *. by constructor.
Qed.

Lemma useSearchParams_pushed (pathname query : list N) :
  Forall (fun c => c <> 63) pathname ->
  useSearchParams (pathname ++ js "?" ++ query) = new query.
Proof.
  intros H. unfold useSearchParams.
  change (pathname ++ js "?" ++ query) with (pathname ++ 63 :: query).
  by rewrite split_first_app.
Qed.

Lemma well_formed_params_Forall (params : URLSearchParams.t) :
  well_formed_params params = true <->
  Forall (fun p => well_formed p.1 = true /\ well_formed p.2 = true) params.
Proof.
  unfold well_formed_params. rewrite forallb_forall, Forall_forall. split.
  - intros H p Hp. apply andb_true_iff, H. by apply list_elem_of_In.
  - intros H p Hp. apply andb_true_iff, H. by apply list_elem_of_In.
Qed.

Lemma well_formed_params_delete (params : URLSearchParams.t) (name : list N) :
  well_formed_params params = true -> well_formed_params (delete params name) = true.
Proof.
  rewrite !well_formed_params_Forall. unfold delete. intros H.
  apply Forall_forall. intros p Hp. apply list_elem_of_filter in Hp as [_ Hp].
  rewrite Forall_forall in H. by apply H.
Qed.

Lemma well_formed_params_set (params : URLSearchParams.t) (name value : list N) :
  well_formed name = true -> well_formed value = true ->
  well_formed_params params = true -> well_formed_params (set params name value) = true.
Proof.
  intros Hn Hv. rewrite !well_formed_params_Forall.
  induction 1 as [|[n v] rest [H1 H2] Hrest IH]; simpl.
  - by repeat constructor.
  - case_bool_decide.
    + constructor; [done|]. apply well_formed_params_Forall, well_formed_params_delete.
      by apply well_formed_params_Forall.
    + by constructor.
Qed.

(** On the parameters of a URL, [handleStatusChange] works on a faithful
    copy. *)
Lemma handleStatusChange_params_copy (searchParams : URLSearchParams.t) (status : list N) :
  well_formed_params searchParams = true ->
  handleStatusChange_params searchParams status =
  let params := set searchParams (js "page") (js "1") in
  if bool_decide (status = js "all") then delete params (js "!status_matches")
  else set params (js "!status_matches") (JSON.stringify_strings [status]).
Proof. intros H. unfold handleStatusChange_params. by rewrite new_toString. Qed.

Lemma handleStatusChange_params_well_formed (searchParams : URLSearchParams.t) (status : list N) :
  Forall (fun c => c < 65536) status ->
  well_formed_params (handleStatusChange_params searchParams status) = true.
Proof.
  intros Hs. unfold handleStatusChange_params.
  assert (H : well_formed_params
                (set (new (toString searchParams)) (js "page") (js "1")) = true).
  { apply well_formed_params_set; [done|done|apply well_formed_new]. }
  case_bool_decide.
  - by apply well_formed_params_delete.
  - apply well_formed_params_set; [done| |done]. by apply stringify_1_well_formed.
Qed.

(** The next render reads from the pushed URL the parameters that
    [handleStatusChange] serialised. *)
Theorem useSearchParams_onClick (url status : list N) :
  Forall (fun c => c < 65536) status ->
  useSearchParams (onClick url status)
  = handleStatusChange_params (useSearchParams url) status.
Proof.
  intros Hs. unfold onClick, handleStatusChange.
  rewrite useSearchParams_pushed by apply split_first_fst.
  apply new_toString. by apply handleStatusChange_params_well_formed.
Qed.

Lemma js_all_units : Forall (fun c => c < 65536) (js "all").
Proof. repeat constructor. Qed.
End Navigation.

(** * Decoding the status filter *)

Section Decoding.
Import JSON StatusTabs Samples.
Local Open Scope N_scope.

(** Whatever the [try] throws is caught: the status stays [all]. *)
Lemma currentStatus_from_caught (s : list N) :
  try_parse s all = None -> currentStatus_from (Some s) = all.
Proof. intros H. unfold currentStatus_from. destruct s; [done|]. by rewrite H. Qed.

(** C4 as stated fails on an array whose first element is a number, a
    boolean, an array or an object without [value]: the status read is
    undefined, not [all]. *)
Lemma C4_first_element_without_value :
  currentStatus_from (Some (js "[7]")) <> all
  /\ currentStatus_from (Some (js "[7]")) = Undefined
  /\ currentStatus_from (Some (js "[true]")) = Undefined
  /\ currentStatus_from (Some (js "[[]]")) = Undefined
  /\ currentStatus_from (Some (js "[{}]")) = Undefined.
Proof. repeat split; try (vm_compute; reflexivity). vm_compute. discriminate. Qed.

(** C4, amended: decoding has a result for every value of the parameter:
    whatever is thrown while the parameter is decoded is caught and leaves
    [all].  The result is [all] when the parameter is absent, when it is the
    empty string, when it does not URL-decode, when it is not JSON, when it
    is JSON but not an array, when it is the empty array, and when the first
    element of the array is null (reading its property throws).  When the
    first element is a boolean, a number, an array or an object without a
    member [value], the result is undefined, which is neither [all] nor any
    key; when it is a string the result is that string, and when it is an
    object with a member [value], that member. *)
Theorem C4_decode_total (statusFilter : option (list N)) :
  (forall s, statusFilter = Some s -> try_parse s all = None ->
     currentStatus_from statusFilter = all)
  /\ (statusFilter = None -> currentStatus_from statusFilter = all)
  /\ (statusFilter = Some [] -> currentStatus_from statusFilter = all)
  /\ (forall s, statusFilter = Some s -> URI.decodeURIComponent s = None ->
        currentStatus_from statusFilter = all)
  /\ (forall s text, statusFilter = Some s -> URI.decodeURIComponent s = Some text ->
        JSON.parse text = None -> currentStatus_from statusFilter = all)
  /\ (forall s text v, statusFilter = Some s -> URI.decodeURIComponent s = Some text ->
        JSON.parse text = Some v -> (forall elements, v <> JArray elements) ->
        currentStatus_from statusFilter = all)
  /\ (forall s text, statusFilter = Some s -> URI.decodeURIComponent s = Some text ->
        JSON.parse text = Some (JArray []) -> currentStatus_from statusFilter = all)
  /\ (forall s text first rest, statusFilter = Some s ->
        URI.decodeURIComponent s = Some text ->
        JSON.parse text = Some (JArray (first :: rest)) ->
        currentStatus_from statusFilter
        = match first with
          | JNull => all
          | JString k => Json (JString k)
          | JObject members =>
              match last_member members (js "value") with
              | Some v => Json v
              | None => Undefined
              end
          | _ => Undefined
          end)
  /\ Undefined <> all
  /\ (forall k, strict_equals Undefined k = false).
Proof.
  split; [intros s ->; apply currentStatus_from_caught|].
  split; [by intros ->|]. split; [by intros ->|].
  split; [|split; [|split; [|split; [|split; [|split; [discriminate|done]]]]]].
  - intros s -> H. apply currentStatus_from_caught. unfold try_parse. by rewrite H.
  - intros s text -> H1 H2. apply currentStatus_from_caught. unfold try_parse.
    by rewrite H1, H2.
  - intros s text v -> H1 H2 Hv. unfold currentStatus_from. destruct s as [|c s]; [done|].
    unfold try_parse. rewrite H1, H2. destruct v; try done. by destruct (Hv elements).
  - intros s text -> H1 H2. unfold currentStatus_from. destruct s as [|c s]; [done|].
    unfold try_parse. by rewrite H1, H2.
  - intros s text first rest -> H1 H2. unfold currentStatus_from.
    destruct s as [|c s].
    + vm_compute in H1. injection H1 as <-. vm_compute in H2. discriminate.
    + unfold try_parse. rewrite H1, H2.
      by destruct first.
Qed.

(** C4 on one value of each kind. *)
Lemma C4_decode_total_witness :
  currentStatus_from None = all
  /\ currentStatus_from (Some []) = all
  /\ currentStatus_from (Some (js "%zz")) = all
  /\ currentStatus_from (Some (js "%C0%80")) = all
  /\ currentStatus_from (Some (js "[in_stock")) = all
  /\ currentStatus_from (Some (js "{}")) = all
  /\ currentStatus_from (Some (js "7")) = all
  /\ currentStatus_from (Some (js "[]")) = all
  /\ currentStatus_from (Some (js "[null]")) = all
  /\ currentStatus_from (Some (js "[7]")) = Undefined
  /\ currentStatus_from (Some (js "[{}]")) = Undefined.
Proof.
  repeat apply conj.
  - destruct (C4_decode_total None) as (_ & H & _). by apply H.
  - destruct (C4_decode_total (Some [])) as (_ & _ & H & _). by apply H.
  - destruct (C4_decode_total (Some (js "%zz"))) as (_ & _ & _ & H & _).
    apply (H (js "%zz")); reflexivity.
  - destruct (C4_decode_total (Some (js "%C0%80"))) as (_ & _ & _ & H & _).
    apply (H (js "%C0%80")); reflexivity.
  - destruct (C4_decode_total (Some (js "[in_stock"))) as (_ & _ & _ & _ & H & _).
    apply (H (js "[in_stock") (js "[in_stock")); reflexivity.
  - destruct (C4_decode_total (Some (js "{}"))) as (_ & _ & _ & _ & _ & H & _).
    apply (H (js "{}") (js "{}") (JObject [])); [reflexivity..|discriminate].
  - destruct (C4_decode_total (Some (js "7"))) as (_ & _ & _ & _ & _ & H & _).
    apply (H (js "7") (js "7") (JNumber (js "7"))); [reflexivity..|discriminate].
  - destruct (C4_decode_total (Some (js "[]"))) as (_ & _ & _ & _ & _ & _ & H & _).
    apply (H (js "[]") (js "[]")); reflexivity.
  - destruct (C4_decode_total (Some (js "[null]"))) as (_ & _ & _ & _ & _ & _ & _ & H & _).
    apply (H (js "[null]") (js "[null]") JNull []); [reflexivity..].
  - destruct (C4_decode_total (Some (js "[7]"))) as (_ & _ & _ & _ & _ & _ & _ & H & _).
    apply (H (js "[7]") (js "[7]") (JNumber (js "7")) []);
      [reflexivity..].
  - destruct (C4_decode_total (Some (js "[{}]"))) as (_ & _ & _ & _ & _ & _ & _ & H & _).
    apply (H (js "[{}]") (js "[{}]") (JObject []) []);
      [reflexivity..].
Defined.

Lemma get_set (params : URLSearchParams.t) (name value : list N) :
  URLSearchParams.get (URLSearchParams.set params name value) name = Some value.
Proof. by rewrite get_head_getAll, getAll_set. Qed.

(** Where the round trip holds: a key without a percent sign, written by
    a click, is read back at the next render, whatever the URL was. *)
Theorem status_round_trip (url k : list N) :
  Forall (fun c => c < 65536) k -> Forall (fun c => c <> 37) k ->
  currentStatus (useSearchParams (onClick url k)) = Json (JString k).
Proof.
  intros H16 Hpct. rewrite useSearchParams_onClick by done.
  unfold currentStatus, handleStatusChange_params. case_bool_decide as Hall.
  - subst k. by rewrite get_head_getAll, getAll_delete.
  - rewrite get_set. unfold currentStatus_from.
    destruct (stringify_strings [k]) as [|c s] eqn:E; [done|]. rewrite <- E.
    unfold try_parse.
    rewrite decodeURIComponent_plain by by apply stringify_1_percent.
    by rewrite parse_stringify_1.
Qed.

(** C3: for every key of the configured statuses, at every URL, a click on
    the tab of the key writes the JSON text of the one-element array of the
    key into the parameter, and the status decoded from the pushed URL at
    the next render is that key. *)
Theorem C3_round_trip_configured (url k : list N) :
  k ∈ InventoryListPageClient.statusConfig.*1 ->
  URLSearchParams.get (useSearchParams (onClick url k)) (js "!status_matches")
  = Some (stringify_strings [k])
  /\ currentStatus_from (Some (stringify_strings [k])) = Json (JString k)
  /\ currentStatus (useSearchParams (onClick url k)) = Json (JString k).
Proof.
  intros Hk.
  assert (H : Forall (fun c => c < 65536) k /\ Forall (fun c => c <> 37) k /\ k <> js "all").
  { simpl in Hk.
    repeat (apply elem_of_cons in Hk as [->|Hk];
            [split; [|split];
             [apply (bool_decide_unpack _); vm_compute; exact I..|vm_compute; discriminate]|]).
    by apply elem_of_nil in Hk. }
  destruct H as (H16 & Hpct & Hall).
  assert (Hread : currentStatus_from (Some (stringify_strings [k])) = Json (JString k)).
  { unfold currentStatus_from.
    destruct (stringify_strings [k]) as [|c s] eqn:E; [done|]. rewrite <- E.
    unfold try_parse.
    rewrite decodeURIComponent_plain by by apply stringify_1_percent.
    by rewrite parse_stringify_1. }
  assert (Hget : URLSearchParams.get (useSearchParams (onClick url k)) (js "!status_matches")
                 = Some (stringify_strings [k])).
  { rewrite useSearchParams_onClick by done.
    unfold handleStatusChange_params. rewrite bool_decide_eq_false_2 by done.
    apply get_set. }
  split; [exact Hget|]. split; [exact Hread|].
  unfold currentStatus. by rewrite Hget.
Qed.

(** C3 at the inventory page, for [low_stock]. *)
Lemma C3_round_trip_configured_witness :
  currentStatus
    (useSearchParams (onClick (js "/dashboard/platform/inventory?page=3") (js "low_stock")))
  = Json (JString (js "low_stock")).
Proof.
  apply (C3_round_trip_configured (js "/dashboard/platform/inventory?page=3") (js "low_stock")).
  apply (bool_decide_unpack _). vm_compute. exact I.
Defined.

(** Outside the configured keys: the key of a status with a percent sign in
    it would not be read back, since [decodeURIComponent] is applied to the
    value that [get] has decoded already and throws on the percent sign. *)
Remark percent_key_not_read_back :
  let url := onClick (js "/dashboard/platform/inventory") (js "50%off") in
  url = js "/dashboard/platform/inventory?page=1&%21status_matches=%5B%2250%25off%22%5D"
  /\ URLSearchParams.get (useSearchParams url) (js "!status_matches")
     = Some (stringify_strings [js "50%off"])
  /\ URI.decodeURIComponent (stringify_strings [js "50%off"]) = None
  /\ currentStatus (useSearchParams url) = all.
Proof. repeat apply conj; vm_compute; reflexivity. Qed.

End Decoding.

(** * Status changes, page changes and the other parameters *)

Section UrlMutations.
Import URLSearchParams StatusTabs InventoryListPageClient.

Lemma delete_idem (params : URLSearchParams.t) (name : list N) :
  delete (delete params name) name = delete params name.
Proof. unfold delete. rewrite list_filter_filter. apply list_filter_iff. tauto. Qed.

Lemma getAll_handleStatusChange_page (searchParams : URLSearchParams.t) (status : list N) :
  getAll (handleStatusChange_params searchParams status) (js "page") = [js "1"].
Proof.
  unfold handleStatusChange_params. case_bool_decide.
  - rewrite getAll_delete_ne by (vm_compute; discriminate). apply getAll_set.
  - rewrite getAll_set_ne by (vm_compute; discriminate). apply getAll_set.
Qed.

(** C2 as stated fails: a click on [in_stock] at a URL without parameters
    pushes a URL that spells out [page=1]. *)
Lemma C2_page_param_written :
  onClick (js "/dashboard/platform/inventory") (js "in_stock")
    = js "/dashboard/platform/inventory?page=1&%21status_matches=%5B%22in_stock%22%5D"
  /\ ~ (get (useSearchParams (onClick (js "/dashboard/platform/inventory") (js "in_stock")))
            (js "page") = None).
Proof. split; [vm_compute; reflexivity | vm_compute; discriminate]. Qed.

(** C2, amended: whatever the current parameters and the status chosen (a key
    or [all]), the parameters that are pushed hold exactly one [page], with
    the value [1] written out; so does the query of the pushed URL. *)
Theorem C2_page_reset_to_explicit_1 :
  (forall (searchParams : URLSearchParams.t) (status : list N),
      getAll (handleStatusChange_params searchParams status) (js "page") = [js "1"]
      /\ get (handleStatusChange_params searchParams status) (js "page") = Some (js "1"))
  /\ (forall url status : list N,
        JSString.code_units status ->
        getAll (useSearchParams (onClick url status)) (js "page") = [js "1"]).
Proof.
  split.
  - intros searchParams status. split; [apply getAll_handleStatusChange_page|].
    by rewrite get_head_getAll, getAll_handleStatusChange_page.
  - intros url status Hs. rewrite useSearchParams_onClick by done.
    apply getAll_handleStatusChange_page.
Qed.

Lemma C2_page_reset_to_explicit_1_witness :
  getAll (useSearchParams
            (onClick (js "/dashboard/platform/inventory?search=widget&page=3")
                     (js "low_stock")))
         (js "page") = [js "1"].
Proof.
  destruct C2_page_reset_to_explicit_1 as [_ H]. apply H.
  unfold JSString.code_units. repeat constructor.
Defined.

(** C5: whatever the current parameters, after the [all] tab is chosen the
    parameters that are pushed hold no pair named [!status_matches], hence
    no filter value at all and in particular not the string [all]; the same
    holds of the query of the pushed URL, from which the next render reads
    the status [all]. *)
Theorem C5_all_removes_filter :
  (forall searchParams : URLSearchParams.t,
      getAll (handleStatusChange_params searchParams (js "all")) (js "!status_matches") = []
      /\ get (handleStatusChange_params searchParams (js "all")) (js "!status_matches") = None
      /\ Forall (fun p => p.1 <> js "!status_matches")
                (handleStatusChange_params searchParams (js "all")))
  /\ (forall url : list N,
        getAll (useSearchParams (onClick url (js "all"))) (js "!status_matches") = []
        /\ get (useSearchParams (onClick url (js "all"))) (js "!status_matches") = None
        /\ currentStatus (useSearchParams (onClick url (js "all"))) = all).
Proof.
  assert (H : forall searchParams : URLSearchParams.t,
             getAll (handleStatusChange_params searchParams (js "all")) (js "!status_matches")
             = []).
  { intros searchParams. unfold handleStatusChange_params.
    rewrite bool_decide_eq_true_2 by done. apply getAll_delete. }
  split.
  - intros searchParams. split; [apply H|]. split.
    + by rewrite get_head_getAll, H.
    + unfold handleStatusChange_params. rewrite bool_decide_eq_true_2 by done.
      unfold delete. apply Forall_forall. intros p Hp.
      by apply list_elem_of_filter in Hp as [? _].
  - intros url. rewrite useSearchParams_onClick by apply js_all_units.
    split; [apply H|].
    assert (G : get (handleStatusChange_params (useSearchParams url) (js "all"))
                    (js "!status_matches") = None)
      by by rewrite get_head_getAll, H.
    split; [exact G|]. unfold currentStatus. by rewrite G.
Qed.

Lemma delete_handlePageChange (location_search : list N) (newPage : Z) :
  delete (handlePageChange_params location_search newPage) (js "page")
  = delete (new location_search) (js "page").
Proof.
  unfold handlePageChange_params.
  destruct (negb (newPage =? 0)%Z && (newPage >? 1)%Z).
  - apply delete_set.
  - apply delete_idem.
Qed.

Lemma getAll_handlePageChange (location_search : list N) (newPage : Z) (name : list N) :
  name <> js "page" ->
  getAll (handlePageChange_params location_search newPage) name
  = getAll (new location_search) name.
Proof.
  intros Hne. unfold handlePageChange_params.
  destruct (negb (newPage =? 0)%Z && (newPage >? 1)%Z).
  - by apply getAll_set_ne.
  - by apply getAll_delete_ne.
Qed.

Lemma delete_handleStatusChange (searchParams : URLSearchParams.t) (status : list N) :
  well_formed_params searchParams = true ->
  delete (delete (handleStatusChange_params searchParams status) (js "page"))
         (js "!status_matches")
  = delete (delete searchParams (js "page")) (js "!status_matches").
Proof.
  intros Hwf. rewrite handleStatusChange_params_copy by done. simpl.
  rewrite (delete_comm _ (js "page")). case_bool_decide.
  - by rewrite delete_idem, (delete_comm _ _ (js "page")), delete_set.
  - by rewrite delete_set, (delete_comm _ _ (js "page")), delete_set.
Qed.

Lemma getAll_handleStatusChange (searchParams : URLSearchParams.t) (status name : list N) :
  well_formed_params searchParams = true ->
  name <> js "page" -> name <> js "!status_matches" ->
  getAll (handleStatusChange_params searchParams status) name = getAll searchParams name.
Proof.
  intros Hwf H1 H2. rewrite handleStatusChange_params_copy by done. simpl.
  case_bool_decide.
  - by rewrite getAll_delete_ne, getAll_set_ne.
  - by rewrite !getAll_set_ne.
Qed.

(** C8: whatever the query a page change starts from, the parameters it
    pushes have the filter and the search term of that query, and every
    pair not named [page], in the same order; whatever the URL a status
    change starts from, the parameters it pushes, which are those of the
    pushed URL, have the search term of that URL, and every pair named
    neither [page] nor [!status_matches], in the same order. *)
Theorem C8_frame :
  (forall (location_search : list N) (newPage : Z),
      getAll (handlePageChange_params location_search newPage) (js "!status_matches")
      = getAll (new location_search) (js "!status_matches")
      /\ getAll (handlePageChange_params location_search newPage) (js "search")
         = getAll (new location_search) (js "search")
      /\ delete (handlePageChange_params location_search newPage) (js "page")
         = delete (new location_search) (js "page")
      /\ (forall name, name <> js "page" ->
            getAll (handlePageChange_params location_search newPage) name
            = getAll (new location_search) name))
  /\ (forall url status : list N,
        getAll (handleStatusChange_params (useSearchParams url) status) (js "search")
        = getAll (useSearchParams url) (js "search")
        /\ delete (delete (handleStatusChange_params (useSearchParams url) status) (js "page"))
                  (js "!status_matches")
           = delete (delete (useSearchParams url) (js "page")) (js "!status_matches")
        /\ (forall name, name <> js "page" -> name <> js "!status_matches" ->
              getAll (handleStatusChange_params (useSearchParams url) status) name
              = getAll (useSearchParams url) name)
        /\ (JSString.code_units status ->
              useSearchParams (onClick url status)
              = handleStatusChange_params (useSearchParams url) status)).
Proof.
  split.
  - intros location_search newPage.
    split; [apply getAll_handlePageChange; vm_compute; discriminate|].
    split; [apply getAll_handlePageChange; vm_compute; discriminate|].
    split; [apply delete_handlePageChange|]. apply getAll_handlePageChange.
  - intros url status.
    assert (Hwf : well_formed_params (useSearchParams url) = true) by apply well_formed_new.
    split; [apply getAll_handleStatusChange; [done|vm_compute; discriminate..]|].
    split; [by apply delete_handleStatusChange|].
    split; [intros name; by apply getAll_handleStatusChange|].
    apply useSearchParams_onClick.
Qed.

Lemma C8_frame_witness :
  getAll (handlePageChange_params
            (js "?search=widget&sort=name&page=3&!status_matches=%5B%22low_stock%22%5D") 4)
         (js "sort")
  = getAll (new (js "?search=widget&sort=name&page=3&!status_matches=%5B%22low_stock%22%5D"))
           (js "sort")
  /\ getAll (handleStatusChange_params
              (useSearchParams (js "/inventory?search=widget&sort=name&page=3")) (js "low_stock"))
            (js "sort")
     = getAll (useSearchParams (js "/inventory?search=widget&sort=name&page=3")) (js "sort")
  /\ useSearchParams (onClick (js "/inventory?search=widget&sort=name&page=3") (js "low_stock"))
     = handleStatusChange_params
         (useSearchParams (js "/inventory?search=widget&sort=name&page=3")) (js "low_stock").
Proof.
  destruct C8_frame as [Hpage Hstatus]. split; [|split].
  - destruct (Hpage (js "?search=widget&sort=name&page=3&!status_matches=%5B%22low_stock%22%5D")
                    4%Z) as (_ & _ & _ & H).
    apply H. vm_compute. discriminate.
  - destruct (Hstatus (js "/inventory?search=widget&sort=name&page=3") (js "low_stock"))
      as (_ & _ & H & _).
    apply H; vm_compute; discriminate.
  - destruct (Hstatus (js "/inventory?search=widget&sort=name&page=3") (js "low_stock"))
      as (_ & _ & _ & H).
    apply H. unfold JSString.code_units. repeat constructor.
Defined.
End UrlMutations.

(** * The render state of the inventory page *)

Section RenderState.
Import InventoryListPageClient Samples.

(** Without a fetch error and with a count of 0 the region depends on the
    search term alone. *)
Lemma region_empty (props : InventoryListPageClientProps) :
  initialError props = None -> count (initialData props) = 0%Z ->
  region props =
  if truthy (search (initialSearchParams props)) then EmptyStateSearch else EmptyStateDefault.
Proof.
  intros He Hc. unfold region. rewrite He, Hc. simpl.
  by destruct (truthy _).
Qed.

(** C1, at the input where the code departs from it: the URL carries the
    status filter [low_stock], which the tabs decode and highlight, there is
    no fetch error, no search term and no row for that filter; the page still
    shows the empty state of a list in which nothing was ever created, not
    the one for a filter without results. *)
Theorem C1_status_filter_ignored :
  let url := js "/dashboard/platform/inventory?!status_matches=%5B%22low_stock%22%5D" in
  let props := inventory_props (Some inventory_counts) None 0 [] in
  StatusTabs.currentStatus (useSearchParams url)
    = StatusTabs.Json (JSON.JString (js "low_stock"))
  /\ InventoryListPageClient props url
     = Page (Some (StatusTabs.tabs (inventory_tabs_props inventory_counts)
                     (StatusTabs.Json (JSON.JString (js "low_stock")))))
            EmptyStateDefault
  /\ region props <> EmptyStateSearch.
Proof. split; [|split]; [vm_compute; reflexivity | vm_compute; reflexivity | discriminate]. Qed.
End RenderState.

(** * The tabs *)

Section Tabs.
Import StatusTabs Samples.
Local Open Scope Z_scope.

Lemma findIndex_lower {A : Type} (p : A -> bool) (l : list A) : -1 <= findIndex p l.
Proof.
  induction l as [|x l IH]; simpl; [lia|].
  destruct (p x); [lia|]. destruct (Z.ltb_spec (findIndex p l) 0); lia.
Qed.

Lemma findIndex_upper {A : Type} (p : A -> bool) (l : list A) :
  findIndex p l < Z.of_nat (length l) \/ (l = [] /\ findIndex p l = -1).
Proof.
  induction l as [|x l IH]; [by right|]. left. simpl.
  destruct (p x); [lia|].
  destruct (Z.ltb_spec (findIndex p l) 0); [lia|].
  destruct IH as [IH|[-> IH]]; [lia|]. simpl in *. lia.
Qed.

Lemma findIndex_none {A : Type} (p : A -> bool) (l : list A) :
  Forall (fun x => p x = false) l -> findIndex p l = -1.
Proof.
  induction 1 as [|x l Hx _ IH]; simpl; [done|].
  rewrite Hx, IH. reflexivity.
Qed.

Lemma findIndex_first {A : Type} (p : A -> bool) (l : list A) (i : nat) (x : A) :
  l !! i = Some x -> p x = true ->
  (forall j y, (j < i)%nat -> l !! j = Some y -> p y = false) ->
  findIndex p l = Z.of_nat i.
Proof.
  revert i. induction l as [|a l IH]; intros i Hi Hx Hbefore; [done|].
  destruct i as [|i]; simpl in *.
  - injection Hi as ->. by rewrite Hx.
  - rewrite (Hbefore 0%nat a) by (done || lia).
    rewrite (IH i Hi Hx).
    + destruct (Z.ltb_spec (Z.of_nat i) 0); lia.
    + intros j y Hj Hy. apply (Hbefore (S j) y); [lia|done].
Qed.

Lemma statuses_values (props : StatusTabsProps) :
  map value (statuses props) = (statusConfig props).*1.
Proof.
  unfold statuses. induction (statusConfig props) as [|e l IH]; simpl; [done|].
  by rewrite IH.
Qed.

Lemma strict_equals_string (k s : list N) :
  strict_equals (Json (JSON.JString k)) s = bool_decide (k = s).
Proof. reflexivity. Qed.

(** C6: the active index is 0 for the [all] selection, 0 when the selection
    is the key of no configured status, and i+1 for the key of the i-th
    configured status (counted from 0, the keys distinct as in an object,
    the key not the reserved word [all]); so the third status gives 3. *)
Theorem C6_active_index (props : StatusTabsProps) (current : jsvalue) :
  (current = all -> activeIndex (statuses props) current = 0)
  /\ ((forall k, k ∈ (statusConfig props).*1 -> current <> Json (JSON.JString k)) ->
      activeIndex (statuses props) current = 0)
  /\ (forall (i : nat) (k : list N),
        NoDup (statusConfig props).*1 ->
        (statusConfig props).*1 !! i = Some k ->
        k <> js "all" ->
        current = Json (JSON.JString k) ->
        activeIndex (statuses props) current = Z.of_nat i + 1)
  /\ (forall k : list N,
        NoDup (statusConfig props).*1 ->
        (statusConfig props).*1 !! 2%nat = Some k ->
        k <> js "all" ->
        current = Json (JSON.JString k) ->
        activeIndex (statuses props) current = 3).
Proof.
  assert (Hkey : forall (i : nat) (k : list N),
             NoDup (statusConfig props).*1 ->
             (statusConfig props).*1 !! i = Some k ->
             k <> js "all" ->
             current = Json (JSON.JString k) ->
             activeIndex (statuses props) current = Z.of_nat i + 1).
  { intros i k Hnodup Hi Hall ->. unfold activeIndex.
    rewrite strict_equals_string, bool_decide_eq_false_2 by done.
    rewrite <- statuses_values in Hi, Hnodup.
    rewrite list_lookup_fmap in Hi.
    destruct (statuses props !! i) as [s|] eqn:Hs; [|done].
    injection Hi as Hi.
    rewrite (findIndex_first _ _ i s Hs); [done| |].
    - rewrite strict_equals_string. by apply bool_decide_eq_true_2.
    - intros j y Hj Hy. rewrite strict_equals_string.
      apply bool_decide_eq_false_2. intros Heq.
      assert (map value (statuses props) !! j = Some k) as Hjk.
      { rewrite list_lookup_fmap, Hy. simpl. by rewrite Heq. }
      assert (map value (statuses props) !! i = Some k) as Hik.
      { rewrite list_lookup_fmap, Hs. simpl. by rewrite Hi. }
      pose proof (NoDup_lookup _ _ _ _ Hnodup Hjk Hik). lia. }
  split; [|split; [|split]].
  - intros ->. reflexivity.
  - intros Hnone. unfold activeIndex.
    destruct (strict_equals current (js "all")); [done|].
    rewrite findIndex_none; [done|].
    apply Forall_forall. intros s Hs.
    destruct current as [|[]]; try reflexivity.
    rewrite strict_equals_string. apply bool_decide_eq_false_2. intros ->.
    apply (Hnone (value s)); [|done].
    rewrite <- statuses_values. by apply list_elem_of_fmap_2.
  - exact Hkey.
  - intros k Hnodup Hk Hall Hcur. by rewrite (Hkey 2%nat k).
Qed.

(** C6 at the inventory page: [out_of_stock] is the third status. *)
Lemma C6_active_index_witness :
  activeIndex (statuses (inventory_tabs_props inventory_counts)) all = 0
  /\ activeIndex (statuses (inventory_tabs_props inventory_counts))
       (Json (JSON.JString (js "discontinued"))) = 0
  /\ activeIndex (statuses (inventory_tabs_props inventory_counts))
       (Json (JSON.JString (js "low_stock"))) = 2
  /\ activeIndex (statuses (inventory_tabs_props inventory_counts))
       (Json (JSON.JString (js "out_of_stock"))) = 3.
Proof.
  assert (Hnodup : NoDup (statusConfig (inventory_tabs_props inventory_counts)).*1).
  { apply (bool_decide_unpack _). vm_compute. exact I. }
  split; [|split; [|split]].
  - destruct (C6_active_index (inventory_tabs_props inventory_counts) all) as (H & _).
    apply H. reflexivity.
  - destruct (C6_active_index (inventory_tabs_props inventory_counts)
                (Json (JSON.JString (js "discontinued")))) as (_ & H & _).
    apply H. intros k Hk Heq. injection Heq as <-.
    apply (bool_decide_pack _) in Hk. vm_compute in Hk. exact Hk.
  - destruct (C6_active_index (inventory_tabs_props inventory_counts)
                (Json (JSON.JString (js "low_stock")))) as (_ & _ & H & _).
    apply (H 1%nat (js "low_stock"));
      [exact Hnodup | reflexivity | vm_compute; discriminate | reflexivity].
  - destruct (C6_active_index (inventory_tabs_props inventory_counts)
                (Json (JSON.JString (js "out_of_stock")))) as (_ & _ & _ & H).
    apply (H (js "out_of_stock"));
      [exact Hnodup | reflexivity | vm_compute; discriminate | reflexivity].
Defined.
End Tabs.

Section Badges.
Import StatusTabs Samples.
Local Open Scope Z_scope.

Lemma statuses_length (props : StatusTabsProps) :
  length (statuses props) = length (statusConfig props).
Proof. unfold statuses. apply length_map. Qed.

Lemma statuses_lookup (props : StatusTabsProps) (i : nat) key config :
  statusConfig props !! i = Some (key, config) ->
  statuses props !! i
  = Some {| value := key; status_label := label config;
            count := count_or_0 (statusCounts props) key |}.
Proof.
  intros H. unfold statuses.
  change (map ?f ?l) with (f <$> l). by rewrite list_lookup_fmap, H.
Qed.

(** Reading a count that is a property of [statusCounts] itself, or that
    is neither there nor inherited. *)
Lemma count_or_0_missing (statusCounts : gmap (list N) Z) (key : list N) :
  statusCounts !! key = Some 0 \/ (statusCounts !! key = None /\ key ∉ Object_prototype) ->
  count_or_0 statusCounts key = Num 0.
Proof.
  unfold count_or_0, get_property. intros [-> | [-> Hkey]]; [done|].
  by rewrite bool_decide_eq_false_2.
Qed.

Lemma statusConfig_not_inherited (key : list N) :
  key ∈ InventoryListPageClient.statusConfig.*1 -> key ∉ Object_prototype.
Proof.
  intros Hk. simpl in Hk.
  repeat (apply elem_of_cons in Hk as [->|Hk];
          [apply (bool_decide_unpack _); vm_compute; exact I|]).
  by apply elem_of_nil in Hk.
Qed.

(** C7: a configured key whose count is missing from [statusCounts], or is
    0 there, still gets its tab, in its place after the [all] tab, and the
    badge of that tab shows 0; no configured key is left out.  This holds of
    the statuses that are configured, at every URL and with any counts, and
    of any configuration in which the key with the missing count is not the
    name of a property that objects inherit (such as [constructor]).  With
    the counts all 10, in_stock 7, low_stock 0, out_of_stock 2, backordered 1
    the tab of [low_stock] is the third one and its badge shows 0. *)
Theorem C7_missing_count_shows_0 :
  (forall (counts : gmap (list N) Z) (current : jsvalue) (i : nat) key config,
      InventoryListPageClient.statusConfig !! i = Some (key, config) ->
      counts !! key = None \/ counts !! key = Some 0 ->
      tabs (inventory_tabs_props counts) current !! S i
      = Some {| tab_text := label config; tab_badge := Some (Num 0);
                tab_current := strict_equals current key; tab_click := key |})
  /\ (forall (props : StatusTabsProps) (current : jsvalue) (i : nat) key config,
        statusConfig props !! i = Some (key, config) ->
        statusCounts props !! key = Some 0
        \/ (statusCounts props !! key = None /\ key ∉ Object_prototype) ->
        tabs props current !! S i
        = Some {| tab_text := label config; tab_badge := Some (Num 0);
                  tab_current := strict_equals current key; tab_click := key |})
  /\ (forall (props : StatusTabsProps) (current : jsvalue),
        length (tabs props current) = S (length (statusConfig props)))
  /\ tabs (inventory_tabs_props inventory_counts) (Json (JSON.JString (js "low_stock"))) !! 2%nat
     = Some {| tab_text := js "Low Stock"; tab_badge := Some (Num 0);
               tab_current := true; tab_click := js "low_stock" |}.
Proof.
  assert (Hany : forall (props : StatusTabsProps) (current : jsvalue) (i : nat) key config,
             statusConfig props !! i = Some (key, config) ->
             statusCounts props !! key = Some 0
             \/ (statusCounts props !! key = None /\ key ∉ Object_prototype) ->
             tabs props current !! S i
             = Some {| tab_text := label config; tab_badge := Some (Num 0);
                       tab_current := strict_equals current key; tab_click := key |}).
  { intros props current i key config Hi Hc. unfold tabs.
    rewrite lookup_cons. change (map ?f ?l) with (f <$> l).
    rewrite list_lookup_fmap, (statuses_lookup _ _ _ _ Hi). simpl.
    by rewrite count_or_0_missing. }
  split; [|split; [exact Hany|split]].
  - intros counts current i key config Hi Hc.
    apply (Hany (inventory_tabs_props counts) current i key config Hi).
    destruct Hc as [Hc|Hc]; [right|by left]. split; [exact Hc|].
    apply statusConfig_not_inherited.
    change key with (key, config).1. apply list_elem_of_fmap_2.
    by apply list_elem_of_lookup_2 in Hi.
  - intros props current. unfold tabs. simpl. by rewrite length_map, statuses_length.
  - vm_compute. reflexivity.
Qed.

(** C7 at the inventory page, once with the count of [low_stock] given as 0
    and once with no counts at all. *)
Lemma C7_missing_count_shows_0_witness :
  tabs (inventory_tabs_props inventory_counts) all !! 2%nat
  = Some {| tab_text := js "Low Stock"; tab_badge := Some (Num 0);
            tab_current := false; tab_click := js "low_stock" |}
  /\ tabs (inventory_tabs_props ∅) all !! 2%nat
  = Some {| tab_text := js "Low Stock"; tab_badge := Some (Num 0);
            tab_current := false; tab_click := js "low_stock" |}.
Proof.
  destruct C7_missing_count_shows_0 as (H & _).
  split.
  - apply (H inventory_counts all 1%nat (js "low_stock")
             {| label := js "Low Stock"; color := js "yellow" |});
      [reflexivity | right; vm_compute; reflexivity].
  - apply (H ∅ all 1%nat (js "low_stock")
             {| label := js "Low Stock"; color := js "yellow" |});
      [reflexivity | left; vm_compute; reflexivity].
Defined.

(** Outside the configured keys: a status named [constructor] without a
    count of its own would get what every object inherits under that name,
    and no 0. *)
Remark inherited_count_is_not_0 :
  count_or_0 ∅ (js "constructor") = Inherited (js "constructor").
Proof. vm_compute. reflexivity. Qed.
End Badges.

Section Indicators.
Import StatusTabs Samples.
Local Open Scope Z_scope.

Lemma measure_or_0_mounted (el : TabElement) (m : TabElement -> Z) :
  measure_or_0 (Some el) m = m el.
Proof. unfold measure_or_0. destruct (Z.eqb_spec (m el) 0); congruence. Qed.

Lemma tabRef_mounted (statuses : list Status) (element : nat -> TabElement)
    (container : ScrollContainer) (i : Z) :
  0 <= i <= Z.of_nat (length statuses) ->
  tabRef (refs_at statuses (Mounted element container)) i = Some (element (Z.to_nat i)).
Proof.
  intros Hi. unfold tabRef, refs_at. cbn [tabRefs].
  destruct (Z.ltb_spec i 0); [lia|].
  change (map ?f ?l) with (f <$> l). rewrite list_lookup_fmap.
  rewrite lookup_seq_lt by lia. reflexivity.
Qed.

(** C9: for the index of every tab that is rendered (0 for the first tab,
    up to the number of statuses), at every render: the left of the active
    indicator, and of the hover highlight while that tab is hovered, is the
    tab's [offsetLeft] minus the scroll offset of the strip, and the width
    is the tab's [offsetWidth]; when no element is mounted at that index
    both measurements are taken as 0, the width is 0 and the left is 0.
    Once the component is mounted the element is there; before that the
    strip is not there either, so nothing is subtracted from the 0.  The
    index that the component computes as the active one is always such an
    index. *)
Theorem C9_indicator_geometry (statuses : list Status) (m : Mount) (i : Z) :
  0 <= i <= Z.of_nat (length statuses) ->
  (forall el, tabRef (refs_at statuses m) i = Some el ->
     style_left (active_style (refs_at statuses m) i)
     = offsetLeft el - scrollOffset (refs_at statuses m)
     /\ style_width (active_style (refs_at statuses m) i) = offsetWidth el
     /\ style_left (hover_style (refs_at statuses m) (Some i))
        = offsetLeft el - scrollOffset (refs_at statuses m)
     /\ style_width (hover_style (refs_at statuses m) (Some i)) = offsetWidth el)
  /\ (tabRef (refs_at statuses m) i = None ->
      measure_or_0 (tabRef (refs_at statuses m) i) offsetLeft = 0
      /\ measure_or_0 (tabRef (refs_at statuses m) i) offsetWidth = 0
      /\ active_style (refs_at statuses m) i
         = {| style_left := 0; style_width := 0; style_opacity := None |}
      /\ hover_style (refs_at statuses m) (Some i)
         = {| style_left := 0; style_width := 0; style_opacity := Some 1 |})
  /\ (forall element container, m = Mounted element container ->
        tabRef (refs_at statuses m) i = Some (element (Z.to_nat i))
        /\ scrollOffset (refs_at statuses m) = scrollLeft container)
  /\ (m = NotYetMounted ->
      tabRef (refs_at statuses m) i = None /\ scrollOffset (refs_at statuses m) = 0)
  /\ (forall current : jsvalue, 0 <= activeIndex statuses current <= Z.of_nat (length statuses)).
Proof.
  intros Hi. split; [|split; [|split; [|split]]].
  - intros el Hel. unfold active_style, hover_style. cbn [style_left style_width].
    rewrite Hel. by rewrite !measure_or_0_mounted.
  - destruct m as [|element container].
    + intros Hn. unfold active_style, hover_style. rewrite Hn. done.
    + rewrite tabRef_mounted by done. done.
  - intros element container ->. split; [by apply tabRef_mounted|done].
  - intros ->. unfold tabRef. by destruct (i <? 0).
  - intros current. unfold activeIndex.
    destruct (strict_equals current (js "all")); [lia|].
    pose proof (findIndex_lower (fun s => strict_equals current (value s)) statuses).
    destruct (findIndex_upper (fun s => strict_equals current (value s)) statuses)
      as [?|[_ ?]]; lia.
Qed.

(** C9 at the inventory page: the second tab once the strip is mounted and
    scrolled by 30px, and at the first render. *)
Lemma C9_indicator_geometry_witness :
  (style_left (active_style (refs_at (statuses (inventory_tabs_props inventory_counts)) mounted) 1)
   = 86 - 30
   /\ style_width
        (active_style (refs_at (statuses (inventory_tabs_props inventory_counts)) mounted) 1)
      = 80)
  /\ active_style (refs_at (statuses (inventory_tabs_props inventory_counts)) NotYetMounted) 1
     = {| style_left := 0; style_width := 0; style_opacity := None |}.
Proof.
  split.
  - destruct (C9_indicator_geometry (statuses (inventory_tabs_props inventory_counts))
                mounted 1) as (H & _); [vm_compute; split; discriminate|].
    destruct (H {| offsetLeft := 86; offsetWidth := 80 |}) as (H1 & H2 & _); [reflexivity|].
    split; [exact H1|exact H2].
  - destruct (C9_indicator_geometry (statuses (inventory_tabs_props inventory_counts))
                NotYetMounted 1) as (_ & H & _); [vm_compute; split; discriminate|].
    destruct H as (_ & _ & H & _); [reflexivity|]. exact H.
Defined.
End Indicators.

(** * The API-key token *)

Section Token.
Import CreateApiKey.
Local Open Scope N_scope.

Lemma fold_left_append {A B : Type} (f : B -> list A) (l : list B) (acc : list A) :
  fold_left (fun result b => result ++ f b) l acc = acc ++ concat (map f l).
Proof.
  revert acc. induction l as [|b l IH]; intros acc; simpl.
  - by rewrite app_nil_r.
  - by rewrite IH, app_assoc.
Qed.

Lemma chars_length : length chars = 62%nat.
Proof. reflexivity. Qed.

Lemma chars_alphanumeric : Forall (fun c => URLSearchParams.is_alphanumeric c = true) chars.
Proof. unfold chars. repeat constructor. Qed.

Lemma char_at_chars (b : N) :
  exists c, char_at chars (b mod N.of_nat (length chars)) = [c] /\ c ∈ chars.
Proof.
  rewrite chars_length. unfold char_at.
  destruct (chars !! N.to_nat (b mod N.of_nat 62)) as [c|] eqn:E.
  - exists c. split; [done|]. by eapply list_elem_of_lookup_2.
  - apply lookup_ge_None in E. rewrite chars_length in E. lia.
Qed.

Lemma token_body (bytes : list N) (body : list N) :
  body = concat (map (fun b => char_at chars (b mod N.of_nat (length chars))) bytes) ->
  length body = length bytes /\ Forall (fun c => c ∈ chars) body.
Proof.
  revert body. induction bytes as [|b bytes IH]; intros body ->.
  - by split.
  - rewrite map_cons, concat_cons.
    destruct (char_at_chars b) as (c & -> & Hc).
    destruct (IH _ eq_refl) as [IHl IHf].
    split; [by rewrite length_app, IHl|]. by constructor.
Qed.

(** C10: whatever the random source yields, the token is [of_] followed by
    exactly 32 characters of the alphabet A-Z, a-z, 0-9, 35 characters in
    all. *)
Theorem C10_token_shape (random : nat -> N) :
  exists body,
    generateApiKeyToken random = js "of_" ++ body
    /\ length body = 32%nat
    /\ Forall (fun c => c ∈ chars /\ URLSearchParams.is_alphanumeric c = true) body
    /\ length (generateApiKeyToken random) = 35%nat.
Proof.
  unfold generateApiKeyToken. rewrite fold_left_append, app_nil_l.
  set (bytes := getRandomValues random (replicate 32 0)).
  assert (Hlen : length bytes = 32%nat).
  { unfold bytes, getRandomValues. by rewrite length_imap, length_replicate. }
  set (body := concat _).
  destruct (token_body bytes body eq_refl) as [Hl Hf].
  exists body. split; [reflexivity|]. rewrite Hl, Hlen. split; [done|]. split.
  - eapply Forall_impl; [exact Hf|]. intros c Hc. split; [done|].
    pose proof chars_alphanumeric as Ha. rewrite Forall_forall in Ha. by apply Ha.
  - rewrite length_app, Hl, Hlen. reflexivity.
Qed.
End Token.

(** * More on the status tabs *)

Section ClickAndRender.
Import URLSearchParams StatusTabs.

Lemma usePathname_pushed (pathname query : list N) :
  Forall (fun c => c <> 63%N) pathname ->
  usePathname (pathname ++ js "?" ++ query) = pathname.
Proof.
  intros H. unfold usePathname.
  change (pathname ++ js "?" ++ query) with (pathname ++ 63%N :: query).
  by rewrite split_first_app.
Qed.

Lemma usePathname_onClick (url status : list N) :
  usePathname (onClick url status) = usePathname url.
Proof. unfold onClick, handleStatusChange. apply usePathname_pushed, split_first_fst. Qed.

(** A click pushes a URL with the path of the current one, and a second
    click there pushes a URL with that path again. *)
Theorem click_keeps_path (url status status' : list N) :
  usePathname (onClick url status) = usePathname url
  /\ usePathname (onClick (onClick url status) status') = usePathname url.
Proof. by rewrite !usePathname_onClick. Qed.

Lemma getAll_handleStatusChange_filter (searchParams : URLSearchParams.t) (k : list N) :
  k <> js "all" ->
  getAll (handleStatusChange_params searchParams k) (js "!status_matches")
  = [JSON.stringify_strings [k]].
Proof.
  intros Hk. unfold handleStatusChange_params.
  rewrite bool_decide_eq_false_2 by done. apply getAll_set.
Qed.

(** After a click on the tab of a key the parameters that are pushed, and
    the query of the pushed URL, hold the filter exactly once, however often
    the current URL had it, and its value is the JSON text of the
    one-element array of the key. *)
Theorem click_single_filter (url k : list N) :
  k <> js "all" ->
  getAll (handleStatusChange_params (useSearchParams url) k) (js "!status_matches")
  = [JSON.stringify_strings [k]]
  /\ (JSString.code_units k ->
      getAll (useSearchParams (onClick url k)) (js "!status_matches")
      = [JSON.stringify_strings [k]]).
Proof.
  intros Hk. split; [by apply getAll_handleStatusChange_filter|].
  intros Hu. rewrite useSearchParams_onClick by done.
  by apply getAll_handleStatusChange_filter.
Qed.

Lemma click_single_filter_witness :
  getAll (useSearchParams
            (onClick (js "/inventory?!status_matches=a&search=x&!status_matches=b")
                     (js "low_stock")))
         (js "!status_matches")
  = [JSON.stringify_strings [js "low_stock"]].
Proof.
  apply (click_single_filter
           (js "/inventory?!status_matches=a&search=x&!status_matches=b") (js "low_stock")).
  - vm_compute. discriminate.
  - unfold JSString.code_units. repeat constructor.
Defined.

Lemma delete_absent (params : URLSearchParams.t) (name : list N) :
  getAll params name = [] -> delete params name = params.
Proof.
  induction params as [|[n v] rest IH]; [done|].
  rewrite getAll_cons, delete_cons. case_bool_decide as E; [done|].
  intros Hrest. by rewrite IH.
Qed.

Lemma set_same (params : URLSearchParams.t) (name value : list N) :
  getAll params name = [value] -> set params name value = params.
Proof.
  induction params as [|[n v] rest IH]; [done|].
  rewrite getAll_cons. simpl. case_bool_decide as E.
  - intros [= -> Hrest]. by rewrite delete_absent.
  - intros Hrest. by rewrite IH.
Qed.

Lemma handleStatusChange_params_twice (searchParams : URLSearchParams.t) (status : list N) :
  JSString.code_units status ->
  handleStatusChange_params (handleStatusChange_params searchParams status) status
  = handleStatusChange_params searchParams status.
Proof.
  intros Hu. set (P := handleStatusChange_params searchParams status).
  assert (Hwf : well_formed_params P = true)
    by by apply handleStatusChange_params_well_formed.
  assert (Hpage : getAll P (js "page") = [js "1"])
    by apply getAll_handleStatusChange_page.
  rewrite handleStatusChange_params_copy by done. simpl.
  rewrite (set_same P) by done.
  case_bool_decide as Hall.
  - apply delete_absent. unfold P, handleStatusChange_params.
    rewrite bool_decide_eq_true_2 by done. apply getAll_delete.
  - apply set_same. by apply getAll_handleStatusChange_filter.
Qed.

(** Choosing the tab that is already chosen pushes the same URL again:
    a second click on a tab changes nothing. *)
Theorem click_idempotent (url status : list N) :
  JSString.code_units status ->
  onClick (onClick url status) status = onClick url status.
Proof.
  intros Hu. unfold onClick at 1. unfold handleStatusChange.
  rewrite usePathname_onClick, useSearchParams_onClick by done.
  rewrite handleStatusChange_params_twice by done.
  reflexivity.
Qed.

Lemma click_idempotent_witness :
  onClick (onClick (js "/inventory?search=x&page=4") (js "backordered")) (js "backordered")
  = onClick (js "/inventory?search=x&page=4") (js "backordered").
Proof.
  apply click_idempotent. unfold JSString.code_units. repeat constructor.
Defined.
End ClickAndRender.

Section ActiveTab.
Import StatusTabs Samples.
Local Open Scope Z_scope.

Lemma findIndex_found {A : Type} (p : A -> bool) (l : list A) :
  0 <= findIndex p l ->
  exists x, l !! Z.to_nat (findIndex p l) = Some x /\ p x = true.
Proof.
  induction l as [|x l IH]; simpl; [lia|].
  destruct (p x) eqn:Hx; [intros _; by exists x|].
  destruct (Z.ltb_spec (findIndex p l) 0); [lia|]. intros _.
  destruct (IH H) as (y & Hy & Hp). exists y. split; [|done].
  replace (Z.to_nat (findIndex p l + 1)) with (S (Z.to_nat (findIndex p l))) by lia.
  done.
Qed.

Lemma tabs_length (props : StatusTabsProps) (current : jsvalue) :
  length (tabs props current) = S (length (statuses props)).
Proof. unfold tabs. simpl. by rewrite length_map. Qed.

(** Whatever is selected, the active index is the index of one of the tabs
    that are rendered, the first tab included: the underline is never asked
    to sit under a tab that is not there. *)
Theorem active_index_in_range (props : StatusTabsProps) (current : jsvalue) :
  0 <= activeIndex (statuses props) current < Z.of_nat (length (tabs props current))
  /\ is_Some (tabs props current !! Z.to_nat (activeIndex (statuses props) current)).
Proof.
  assert (H : 0 <= activeIndex (statuses props) current
              < Z.of_nat (length (tabs props current))).
  { rewrite tabs_length. unfold activeIndex.
    destruct (strict_equals current (js "all")); [lia|].
    pose proof (findIndex_lower (fun s => strict_equals current (value s)) (statuses props)).
    destruct (findIndex_upper (fun s => strict_equals current (value s)) (statuses props))
      as [?|[_ ?]]; lia. }
  split; [exact H|]. apply lookup_lt_is_Some. lia.
Qed.

Lemma strict_equals_true (current : jsvalue) (s : list N) :
  strict_equals current s = true -> current = Json (JSON.JString s).
Proof.
  destruct current as [|[]]; try done. simpl. intros H.
  by apply bool_decide_eq_true_1 in H as ->.
Qed.

Lemma tabs_lookup_S (props : StatusTabsProps) (current : jsvalue) (i : nat) (t : Tab) :
  tabs props current !! S i = Some t ->
  exists s, statuses props !! i = Some s
            /\ t = {| tab_text := status_label s; tab_badge := Some (count s);
                      tab_current := strict_equals current (value s);
                      tab_click := value s |}.
Proof.
  unfold tabs. rewrite lookup_cons. change (map ?f ?l) with (f <$> l).
  rewrite list_lookup_fmap. destruct (statuses props !! i) as [s|]; [|done].
  intros [= <-]. by exists s.
Qed.

Lemma activeIndex_key (props : StatusTabsProps) (i : nat) (s : Status) :
  NoDup (statusConfig props).*1 ->
  statuses props !! i = Some s ->
  value s <> js "all" ->
  activeIndex (statuses props) (Json (JSON.JString (value s))) = Z.of_nat i + 1.
Proof.
  intros Hnodup Hs Hall. unfold activeIndex.
  rewrite strict_equals_string, bool_decide_eq_false_2 by done.
  rewrite <- statuses_values in Hnodup.
  rewrite (findIndex_first _ _ i s Hs); [done| |].
  - rewrite strict_equals_string. by apply bool_decide_eq_true_2.
  - intros j y Hj Hy. rewrite strict_equals_string.
    apply bool_decide_eq_false_2. intros Heq.
    assert (map value (statuses props) !! j = Some (value s)) as Hjk.
    { change (map ?f ?l) with (f <$> l). rewrite list_lookup_fmap, Hy. simpl. by rewrite Heq. }
    assert (map value (statuses props) !! i = Some (value s)) as Hik.
    { change (map ?f ?l) with (f <$> l). by rewrite list_lookup_fmap, Hs. }
    pose proof (NoDup_lookup _ _ _ _ Hnodup Hjk Hik). lia.
Qed.

(** The highlighted tab and the underline agree.  With distinct keys, none
    of them the word [all]: a tab drawn as current sits at the active index,
    so at most one tab is drawn as current; and whenever the active index is
    not 0 the tab at it is drawn as current. *)
Theorem highlight_matches_underline (props : StatusTabsProps) (current : jsvalue) :
  NoDup (statusConfig props).*1 ->
  js "all" ∉ (statusConfig props).*1 ->
  (forall (i : nat) (t : Tab),
      tabs props current !! i = Some t -> tab_current t = true ->
      activeIndex (statuses props) current = Z.of_nat i)
  /\ (forall (i j : nat) (t u : Tab),
        tabs props current !! i = Some t -> tab_current t = true ->
        tabs props current !! j = Some u -> tab_current u = true -> i = j)
  /\ (activeIndex (statuses props) current <> 0 ->
      exists t, tabs props current !! Z.to_nat (activeIndex (statuses props) current) = Some t
                /\ tab_current t = true).
Proof.
  intros Hnodup Hall.
  assert (H1 : forall (i : nat) (t : Tab),
             tabs props current !! i = Some t -> tab_current t = true ->
             activeIndex (statuses props) current = Z.of_nat i).
  { intros [|i] t Ht Hc.
    - injection Ht as <-. simpl in Hc. unfold activeIndex. by rewrite Hc.
    - apply tabs_lookup_S in Ht as (s & Hs & ->). simpl in Hc.
      apply strict_equals_true in Hc as ->.
      rewrite (activeIndex_key props i s); [lia|done|done|].
      intros Heq. apply Hall. rewrite <- statuses_values, <- Heq.
      apply list_elem_of_fmap_2. by eapply list_elem_of_lookup_2. }
  split; [exact H1|]. split.
  - intros i j t u Ht Hct Hu Hcu. pose proof (H1 i t Ht Hct). pose proof (H1 j u Hu Hcu). lia.
  - unfold activeIndex. destruct (strict_equals current (js "all")); [done|]. intros Hne.
    pose proof (findIndex_lower (fun s => strict_equals current (value s)) (statuses props)).
    destruct (findIndex_found (fun s => strict_equals current (value s)) (statuses props))
      as (s & Hs & Hp); [lia|].
    set (n := findIndex _ _) in *.
    replace (Z.to_nat (n + 1)) with (S (Z.to_nat n)) by lia.
    exists {| tab_text := status_label s; tab_badge := Some (count s);
              tab_current := strict_equals current (value s); tab_click := value s |}.
    split; [|exact Hp]. unfold tabs. rewrite lookup_cons.
    change (map ?f ?l) with (f <$> l). by rewrite list_lookup_fmap, Hs.
Qed.

Lemma highlight_matches_underline_witness :
  activeIndex (statuses (inventory_tabs_props inventory_counts))
              (Json (JSON.JString (js "backordered"))) = Z.of_nat 4.
Proof.
  assert (Hnodup : NoDup (statusConfig (inventory_tabs_props inventory_counts)).*1).
  { apply (bool_decide_unpack _). vm_compute. exact I. }
  assert (Hall : js "all" ∉ (statusConfig (inventory_tabs_props inventory_counts)).*1).
  { apply (bool_decide_unpack _). vm_compute. exact I. }
  destruct (highlight_matches_underline (inventory_tabs_props inventory_counts)
              (Json (JSON.JString (js "backordered"))) Hnodup Hall) as (H & _).
  eapply (H 4%nat); [vm_compute; reflexivity | reflexivity].
Defined.

Lemma currentStatus_after_change (searchParams : URLSearchParams.t) (k : list N) :
  Forall (fun c => c <> 37%N) k ->
  currentStatus (handleStatusChange_params searchParams k) = Json (JSON.JString k).
Proof.
  intros Hpct. unfold currentStatus, handleStatusChange_params. case_bool_decide as Hall.
  - subst k. by rewrite get_head_getAll, getAll_delete.
  - rewrite get_set. unfold currentStatus_from.
    destruct (JSON.stringify_strings [k]) as [|c s] eqn:E; [done|]. rewrite <- E.
    unfold try_parse.
    rewrite decodeURIComponent_plain by by apply stringify_1_percent.
    by rewrite parse_stringify_1.
Qed.

(** From click to highlight.  A click on the tab of the i-th configured key
    (keys distinct, the key without a percent sign and not the word [all])
    pushes a URL at which the component gives active index i+1 and draws that
    tab, with its label and count, as the current one; a click on the first
    tab pushes a URL at which the active index is 0 and the first tab is the
    current one. *)
Theorem click_activates_tab (props : StatusTabsProps) (url : list N) :
  (forall (i : nat) (k : list N) (config : StatusConfig),
      NoDup (statusConfig props).*1 ->
      statusConfig props !! i = Some (k, config) ->
      k <> js "all" ->
      JSString.code_units k -> Forall (fun c => c <> 37%N) k ->
      activeIndex (statuses props) (currentStatus (useSearchParams (onClick url k)))
      = Z.of_nat i + 1
      /\ StatusTabs props (onClick url k) !! S i
         = Some {| tab_text := label config;
                   tab_badge := Some (count_or_0 (statusCounts props) k);
                   tab_current := true; tab_click := k |})
  /\ activeIndex (statuses props) (currentStatus (useSearchParams (onClick url (js "all")))) = 0
  /\ StatusTabs props (onClick url (js "all")) !! 0%nat
     = Some {| tab_text := js "All " ++ entityName props;
               tab_badge := get_property (statusCounts props) (js "all");
               tab_current := true; tab_click := js "all" |}.
Proof.
  split.
  - intros i k config Hnodup Hi Hall Hu Hpct.
    assert (Hcur : currentStatus (useSearchParams (onClick url k)) = Json (JSON.JString k)).
    { rewrite useSearchParams_onClick by done. by apply currentStatus_after_change. }
    pose proof (statuses_lookup props i k config Hi) as Hs.
    split.
    + rewrite Hcur. by apply (activeIndex_key props i _ Hnodup Hs).
    + unfold StatusTabs. rewrite Hcur. unfold tabs. rewrite lookup_cons.
      change (map ?f ?l) with (f <$> l). rewrite list_lookup_fmap, Hs. simpl.
      by rewrite bool_decide_eq_true_2.
  - assert (Hcur : currentStatus (useSearchParams (onClick url (js "all"))) = all).
    { rewrite useSearchParams_onClick by apply js_all_units.
      apply currentStatus_after_change. repeat constructor; done. }
    unfold StatusTabs. rewrite Hcur. done.
Qed.

Lemma click_activates_tab_witness :
  activeIndex (statuses (inventory_tabs_props inventory_counts))
    (currentStatus (useSearchParams (onClick (js "/inventory?page=2") (js "out_of_stock"))))
  = Z.of_nat 2 + 1
  /\ StatusTabs (inventory_tabs_props inventory_counts)
       (onClick (js "/inventory?page=2") (js "out_of_stock")) !! 3%nat
     = Some {| tab_text := js "Out of Stock";
               tab_badge := Some (count_or_0 inventory_counts (js "out_of_stock"));
               tab_current := true; tab_click := js "out_of_stock" |}.
Proof.
  destruct (click_activates_tab (inventory_tabs_props inventory_counts) (js "/inventory?page=2"))
    as (H & _).
  apply (H 2%nat (js "out_of_stock") {| label := js "Out of Stock"; color := js "red" |}).
  - apply (bool_decide_unpack _). vm_compute. exact I.
  - reflexivity.
  - vm_compute. discriminate.
  - unfold JSString.code_units. repeat constructor.
  - repeat constructor; vm_compute; discriminate.
Defined.

Lemma status_round_trip_witness :
  currentStatus (useSearchParams (onClick (js "/inventory?search=x") (js "in_stock")))
  = Json (JSON.JString (js "in_stock")).
Proof.
  apply status_round_trip.
  - repeat constructor.
  - repeat constructor; vm_compute; discriminate.
Defined.
End ActiveTab.

(** * JSON texts of strings, arrays of strings and objects of strings *)

Section JsonTexts.
Import JSString JSON JSONText.
Local Open Scope N_scope.

Lemma run_quoted (m : mode) (stack : list frame) (s rest : list N) :
  value_mode m ->
  run (m, stack) (QuoteJSONString s ++ rest) = run (After (JString s), stack) rest.
Proof.
  intros Hm. unfold QuoteJSONString.
  change ((34 :: quote_units s ++ [34]) ++ rest) with (34 :: (quote_units s ++ [34]) ++ rest).
  rewrite (run_step _ (Str AsValue [], stack)) by (by destruct Hm as [-> | ->]).
  rewrite <- app_assoc, run_quote_units. reflexivity.
Qed.

Lemma run_quoted_key (m : mode) (done : list (list N * value)) (stack : list frame)
    (s rest : list N) :
  key_mode m done ->
  run (m, stack) (QuoteJSONString s ++ rest) = run (Colon done s, stack) rest.
Proof.
  intros Hm. unfold QuoteJSONString.
  change ((34 :: quote_units s ++ [34]) ++ rest) with (34 :: (quote_units s ++ [34]) ++ rest).
  rewrite (run_step _ (Str (AsKey done) [], stack))
    by (by destruct Hm as [-> | [-> ->]]).
  rewrite <- app_assoc, run_quote_units. reflexivity.
Qed.

Lemma run_member (m : mode) (done : list (list N * value)) (stack : list frame)
    (p : list N * list N) (rest : list N) :
  key_mode m done ->
  run (m, stack) (member_text p ++ rest)
  = run (After (JString p.2), InObject done p.1 :: stack) rest.
Proof.
  intros Hm. unfold member_text.
  rewrite <- app_assoc, (run_quoted_key m done) by done.
  rewrite <- app_comm_cons.
  rewrite (run_step _ (Value, InObject done p.1 :: stack)) by reflexivity.
  apply run_quoted. by left.
Qed.

Lemma run_members (members : list (list N * list N)) :
  forall (m : mode) (done : list (list N * value)) (stack : list frame)
         (p : list N * list N) (rest : list N),
    key_mode m done ->
    run (m, stack) (join_comma (map member_text (p :: members)) ++ 125 :: rest)
    = run (After (JObject (done ++ map (fun q => (q.1, JString q.2)) (p :: members))), stack)
          rest.
Proof.
  induction members as [|q members IH]; intros m done stack p rest Hm.
  - simpl join_comma. rewrite (run_member m done) by done.
    by rewrite (run_step _ (After (JObject (done ++ [(p.1, JString p.2)])), stack)).
  - change (join_comma (map member_text (p :: q :: members)))
      with (member_text p ++ 44 :: join_comma (map member_text (q :: members))).
    rewrite <- app_assoc, (run_member m done) by done. rewrite <- app_comm_cons.
    rewrite (run_step _ (Key (done ++ [(p.1, JString p.2)]), stack)) by reflexivity.
    rewrite (IH (Key (done ++ [(p.1, JString p.2)])) (done ++ [(p.1, JString p.2)]))
      by by left.
    by rewrite <- app_assoc.
Qed.

(** The parser reads the text of an object of strings as that object,
    wherever a value may begin. *)
Lemma run_stringify_object (m : mode) (stack : list frame)
    (members : list (list N * list N)) (rest : list N) :
  value_mode m ->
  run (m, stack) (stringify_object members ++ rest)
  = run (After (object_of members), stack) rest.
Proof.
  intros Hm. unfold stringify_object, object_of.
  rewrite <- app_comm_cons.
  rewrite (run_step _ (FirstKey, stack)) by (by destruct Hm as [-> | ->]).
  rewrite <- app_assoc. destruct members as [|p members].
  - simpl. reflexivity.
  - change ([125] ++ rest) with (125 :: rest).
    rewrite (run_members members FirstKey []); [done|by right].
Qed.

Lemma run_elements (elements : list (list N)) :
  forall (m : mode) (done : list value) (stack : list frame) (s : list N) (rest : list N),
    value_mode m ->
    run (m, InArray done :: stack)
        (join_comma (map QuoteJSONString (s :: elements)) ++ 93 :: rest)
    = run (After (JArray (done ++ map JString (s :: elements))), stack) rest.
Proof.
  induction elements as [|e elements IH]; intros m done stack s rest Hm.
  - simpl join_comma. rewrite run_quoted by done.
    by rewrite (run_step _ (After (JArray (done ++ [JString s])), stack)).
  - change (join_comma (map QuoteJSONString (s :: e :: elements)))
      with (QuoteJSONString s ++ 44 :: join_comma (map QuoteJSONString (e :: elements))).
    rewrite <- app_assoc, run_quoted by done. rewrite <- app_comm_cons.
    rewrite (run_step _ (Value, InArray (done ++ [JString s]) :: stack)) by reflexivity.
    rewrite (IH Value) by by left. by rewrite <- app_assoc.
Qed.

Lemma run_stringify_strings (m : mode) (stack : list frame)
    (elements : list (list N)) (rest : list N) :
  value_mode m ->
  run (m, stack) (stringify_strings elements ++ rest)
  = run (After (JArray (map JString elements)), stack) rest.
Proof.
  intros Hm. unfold stringify_strings. rewrite <- app_comm_cons.
  rewrite (run_step _ (FirstElement, InArray [] :: stack))
    by (by destruct Hm as [-> | ->]).
  rewrite <- app_assoc. destruct elements as [|s elements].
  - simpl. reflexivity.
  - change ([93] ++ rest) with (93 :: rest).
    rewrite (run_elements elements FirstElement []); [done|by right].
Qed.

Lemma parse_stringify_strings (elements : list (list N)) :
  parse (stringify_strings elements) = Some (JArray (map JString elements)).
Proof.
  unfold parse. rewrite <- (app_nil_r (stringify_strings elements)).
  rewrite run_stringify_strings by by left. reflexivity.
Qed.

Lemma parse_stringify_object (members : list (list N * list N)) :
  parse (stringify_object members) = Some (object_of members).
Proof.
  unfold parse. rewrite <- (app_nil_r (stringify_object members)).
  rewrite run_stringify_object by by left. reflexivity.
Qed.

(** The text of a one-element array holding an object of strings. *)
Lemma parse_array_of_object (members : list (list N * list N)) :
  parse (91 :: stringify_object members ++ [93]) = Some (JArray [object_of members]).
Proof.
  unfold parse.
  rewrite (run_step _ (FirstElement, [InArray []])) by reflexivity.
  rewrite run_stringify_object by by right. reflexivity.
Qed.

Lemma QuoteJSONString_percent (s : list N) :
  Forall (fun c => c <> 37) s -> Forall (fun c => c <> 37) (QuoteJSONString s).
Proof.
  intros H. unfold QuoteJSONString. constructor; [done|].
  apply Forall_app. split; [by apply quote_units_percent|by repeat constructor].
Qed.

Lemma join_comma_percent (parts : list (list N)) :
  Forall (Forall (fun c => c <> 37)) parts -> Forall (fun c => c <> 37) (join_comma parts).
Proof.
  induction 1 as [|p parts Hp Hparts IH]; [constructor|].
  destruct parts as [|q parts]; [done|].
  change (join_comma (p :: q :: parts)) with (p ++ 44 :: join_comma (q :: parts)).
  apply Forall_app. split; [done|]. by constructor.
Qed.

Lemma stringify_strings_percent (elements : list (list N)) :
  Forall (Forall (fun c => c <> 37)) elements ->
  Forall (fun c => c <> 37) (stringify_strings elements).
Proof.
  intros H. unfold stringify_strings. constructor; [done|].
  apply Forall_app. split; [|by repeat constructor].
  apply join_comma_percent. apply Forall_fmap.
  eapply Forall_impl; [exact H|]. intros s Hs. by apply QuoteJSONString_percent.
Qed.

Lemma stringify_object_percent (members : list (list N * list N)) :
  Forall (fun p => Forall (fun c => c <> 37) p.1 /\ Forall (fun c => c <> 37) p.2) members ->
  Forall (fun c => c <> 37) (stringify_object members).
Proof.
  intros H. unfold stringify_object. constructor; [done|].
  apply Forall_app. split; [|by repeat constructor].
  apply join_comma_percent. apply Forall_fmap.
  eapply Forall_impl; [exact H|]. intros p [H1 H2]. unfold member_text.
  apply Forall_app. split; [by apply QuoteJSONString_percent|].
  constructor; [done|]. by apply QuoteJSONString_percent.
Qed.
End JsonTexts.

(** * The shapes of the filter parameter that are read *)

Section FilterShapes.
Import JSON JSONText StatusTabs.
Local Open Scope N_scope.

Lemma currentStatus_from_text (text : list N) (parsed : JSON.value) :
  text <> [] -> Forall (fun c => c <> 37) text -> parse text = Some parsed ->
  currentStatus_from (Some text) =
  match try_parse text all with Some v => v | None => all end
  /\ try_parse text all =
     match parsed with
     | JArray (first :: _) =>
         match first with
         | JString _ => Some (Json first)
         | _ => property_value first
         end
     | _ => Some all
     end.
Proof.
  intros Hne Hpct Hparse. split.
  - unfold currentStatus_from. by destruct text.
  - unfold try_parse. by rewrite decodeURIComponent_plain, Hparse.
Qed.

(** Which values of the parameter select a status.  With no percent sign in
    the strings involved: the JSON text of an array of strings selects its
    first element, whatever follows it; the JSON text of a one-element array
    holding an object [{value, label}] or [{value}] selects the object's
    [value]; and an object without [value] leaves an undefined status, for
    which no tab is drawn as current and the active index is 0. *)
Theorem filter_shapes_read (k l : list N) (more : list (list N)) :
  Forall (fun c => c <> 37) k -> Forall (fun c => c <> 37) l ->
  Forall (Forall (fun c => c <> 37)) more ->
  currentStatus_from (Some (stringify_strings (k :: more))) = Json (JString k)
  /\ currentStatus_from (Some (91 :: stringify_object [(js "value", k)] ++ [93]))
     = Json (JString k)
  /\ currentStatus_from
       (Some (91 :: stringify_object [(js "value", k); (js "label", l)] ++ [93]))
     = Json (JString k)
  /\ currentStatus_from (Some (91 :: stringify_object [(js "label", l)] ++ [93]))
     = Undefined
  /\ (forall props : StatusTabsProps,
        activeIndex (statuses props) Undefined = 0%Z
        /\ Forall (fun t => tab_current t = false) (tabs props Undefined)).
Proof.
  intros Hk Hl Hmore.
  assert (Hobj : forall members,
             Forall (fun p => Forall (fun c => c <> 37) p.1 /\ Forall (fun c => c <> 37) p.2)
                    members ->
             currentStatus_from (Some (91 :: stringify_object members ++ [93]))
             = match last_member (map (fun m => (m.1, JString m.2)) members) (js "value") with
               | Some v => Json v
               | None => Undefined
               end).
  { intros members Hm.
    destruct (currentStatus_from_text (91 :: stringify_object members ++ [93])
                (JArray [object_of members])) as [H1 H2].
    - done.
    - constructor; [done|]. apply Forall_app.
      split; [by apply stringify_object_percent|by repeat constructor].
    - apply parse_array_of_object.
    - rewrite H1, H2. reflexivity. }
  split; [|split; [|split; [|split]]].
  - destruct (currentStatus_from_text (stringify_strings (k :: more))
                (JArray (map JString (k :: more)))) as [H1 H2].
    + done.
    + apply stringify_strings_percent. by constructor.
    + apply parse_stringify_strings.
    + rewrite H1, H2. reflexivity.
  - rewrite Hobj; [reflexivity|]. repeat constructor; try done; vm_compute; discriminate.
  - rewrite Hobj; [reflexivity|].
    repeat constructor; try done; vm_compute; discriminate.
  - rewrite Hobj; [reflexivity|].
    repeat constructor; try done; vm_compute; discriminate.
  - intros props. split.
    + unfold activeIndex. simpl. by rewrite findIndex_none by by apply Forall_forall.
    + unfold tabs. constructor; [done|]. apply Forall_fmap. by apply Forall_forall.
Qed.

Lemma filter_shapes_read_witness :
  currentStatus_from (Some (stringify_strings [js "low_stock"; js "in_stock"]))
  = Json (JString (js "low_stock"))
  /\ currentStatus_from (Some (91 :: stringify_object [(js "value", js "low_stock")] ++ [93]))
     = Json (JString (js "low_stock")).
Proof.
  destruct (filter_shapes_read (js "low_stock") (js "Low Stock") [js "in_stock"])
    as (H1 & H2 & _).
  - repeat constructor; vm_compute; discriminate.
  - repeat constructor; vm_compute; discriminate.
  - repeat constructor; vm_compute; discriminate.
  - split; [exact H1|exact H2].
Defined.
End FilterShapes.

(** * Page changes and the reset *)

Section Numerals.
Import JSString StringMethods.
Local Open Scope N_scope.

Lemma to_Number_safe (a : Z) : (a < 2 ^ 53)%Z -> to_Number a = a.
Proof.
  intros Ha. unfold to_Number.
  destruct (Z.leb_spec (Z.log2 a - 52) 0) as [_|He]; [done|].
  assert (0 < a)%Z as Hpos.
  { destruct (Z.lt_ge_cases 0 a) as [|Hle]; [done|].
    rewrite (Z.log2_nonpos a) in He by lia. lia. }
  apply (Z.log2_lt_pow2 a 53 Hpos) in Ha. lia.
Qed.

(** A Number below 2^53 is read from no other integer. *)
Lemma to_Number_below (c : Z) : (to_Number c < 2 ^ 53)%Z -> to_Number c = c.
Proof.
  unfold to_Number.
  destruct (Z.leb_spec (Z.log2 c - 52) 0) as [|He]; [done|].
  set (e := (Z.log2 c - 52)%Z) in *.
  assert (0 < c)%Z as Hpos.
  { destruct (Z.lt_ge_cases 0 c) as [|Hle]; [done|].
    subst e. rewrite (Z.log2_nonpos c) in He by lia. lia. }
  pose proof (Z.log2_spec c Hpos) as [Hlow _].
  replace (Z.log2 c) with (52 + e)%Z in Hlow by (subst e; lia).
  rewrite Z.pow_add_r in Hlow by lia.
  rewrite Z.shiftr_div_pow2 by lia.
  assert (0 < 2 ^ e)%Z as Hp by (apply Z.pow_pos_nonneg; lia).
  assert (2 <= 2 ^ e)%Z as Hp2.
  { replace 2%Z with (2 ^ 1)%Z at 1 by done. apply Z.pow_le_mono_r; lia. }
  assert (2 ^ 52 <= c / 2 ^ e)%Z as Hq by (apply Z.div_le_lower_bound; lia).
  set (q := (c / 2 ^ e)%Z) in *.
  intros H. exfalso.
  assert (forall q', (q <= q')%Z -> (q' * 2 ^ e < 2 ^ 53)%Z -> False) as Habs.
  { intros q' Hq' Hlt. change (2 ^ 53)%Z with (2 ^ 52 * 2)%Z in Hlt.
    change (2 ^ 52)%Z with 4503599627370496%Z in *. nia. }
  destruct (_ <? _)%Z; [apply (Habs q); [lia|done]|].
  destruct (_ <? _)%Z; [apply (Habs (q + 1)%Z); [lia|done]|].
  destruct (Z.even q); [apply (Habs q); [lia|done]|apply (Habs (q + 1)%Z); [lia|done]].
Qed.

Lemma candidate_sound (x j c : Z) : candidate x j = Some c -> to_Number c = x.
Proof.
  unfold candidate.
  destruct (Z.eqb_spec (to_Number (x / 10 ^ j * 10 ^ j)) x) as [Hlo|_];
    destruct (Z.eqb_spec (to_Number (x / 10 ^ j * 10 ^ j + 10 ^ j)) x) as [Hhi|_];
    simpl; [|by intros [= <-]..|done].
  repeat destruct (_ <? _)%Z; try destruct (Z.even _); by intros [= <-].
Qed.

Lemma shortest_sound (x : Z) (j : nat) : to_Number x = x -> to_Number (shortest x j) = x.
Proof.
  intros Hx. induction j as [|j IH]; simpl.
  - destruct (candidate x _) as [c|] eqn:E; [by apply candidate_sound in E|done].
  - destruct (candidate x _) as [c|] eqn:E; [by apply candidate_sound in E|done].
Qed.

(** Up to 2^53 the numeral is the digits of the integer. *)
Lemma Number_toString_safe (z : Z) :
  (0 <= z < 2 ^ 53)%Z -> Number_toString z = digits z.
Proof.
  intros [Hz Hlt]. unfold Number_toString.
  destruct (Z.ltb_spec z 0); [lia|].
  rewrite Z.abs_eq by done. rewrite (to_Number_safe z) by done.
  destruct (Z.leb_spec (2 ^ 1024) z) as [Hbig|_].
  { assert (2 ^ 53 < 2 ^ 1024)%Z by (apply Z.pow_lt_mono_r; lia). lia. }
  set (c := shortest z _).
  assert (c = z) as ->.
  { assert (to_Number c = z) as Hc by (apply shortest_sound; by apply to_Number_safe).
    transitivity (to_Number c); [|exact Hc].
    symmetry. apply to_Number_below. by rewrite Hc. }
  destruct (Z.ltb_spec z (10 ^ 21)) as [|Hge]; [done|].
  exfalso. assert (2 ^ 53 < 10 ^ 21)%Z by done. lia.
Qed.

Lemma pos_digits_acc (fuel : nat) (n : N) (acc : list N) :
  pos_digits fuel n acc = pos_digits fuel n [] ++ acc.
Proof.
  revert n acc. induction fuel as [|f IH]; intros n acc; [done|]. simpl.
  destruct (n <? 10); [done|].
  rewrite (IH _ (_ :: acc)), (IH _ [_]). by rewrite <- app_assoc.
Qed.

Lemma decimal_from_snoc (acc : N) (s : list N) (d : N) :
  d < 10 ->
  decimal_from acc (s ++ [48 + d])
  = option_map (fun v => 10 * v + d) (decimal_from acc s).
Proof.
  intros Hd. revert acc. induction s as [|c s IH]; intros acc; simpl.
  - repeat (cases_N; simpl). f_equal. lia.
  - destruct ((48 <=? c) && (c <=? 57)); [apply IH|done].
Qed.

Lemma decimal_from_pos_digits (fuel : nat) (n : N) :
  n < 2 ^ N.of_nat fuel -> decimal_from 0 (pos_digits fuel n []) = Some n.
Proof.
  revert n. induction fuel as [|f IH]; intros n Hn.
  - simpl in *. f_equal. lia.
  - simpl pos_digits. destruct (N.ltb_spec n 10).
    + simpl. repeat (cases_N; simpl). f_equal. lia.
    + rewrite pos_digits_acc, decimal_from_snoc by lia.
      rewrite IH; [simpl; f_equal; lia|].
      replace (N.of_nat (S f)) with (N.succ (N.of_nat f)) in Hn by lia.
      rewrite N.pow_succ_r' in Hn. lia.
Qed.

Lemma pos_digits_nonempty (fuel : nat) (n : N) : pos_digits (S fuel) n [] <> [].
Proof.
  simpl. destruct (n <? 10); [done|]. rewrite pos_digits_acc. by destruct (pos_digits _ _ _).
Qed.

(** The decimal numeral of a positive integer up to 2^53 denotes it. *)
Lemma decimal_Number_toString (z : Z) :
  (0 < z < 2 ^ 53)%Z -> decimal (Number_toString z) = Some (Z.to_N z).
Proof.
  intros Hz. rewrite Number_toString_safe by lia. unfold digits, decimal.
  destruct (pos_digits _ _ _) eqn:E; [by apply pos_digits_nonempty in E|].
  rewrite <- E.
  apply decimal_from_pos_digits.
  assert (Hpos : 0 < Z.to_N z) by lia.
  pose proof (N.log2_spec _ Hpos) as [_ Hlog].
  replace (N.of_nat (S (N.to_nat (N.log2 (Z.to_N z))))) with (N.succ (N.log2 (Z.to_N z)))
    by lia.
  exact Hlog.
Qed.
End Numerals.

Section PageAndReset.
Import URLSearchParams StatusTabs InventoryListPageClient StringMethods.

Lemma join_amp_nil (segs : list (list N)) :
  join_amp segs = [] -> segs = [] \/ segs = [[]].
Proof.
  destruct segs as [|seg [|seg' segs]]; simpl; [by left| |].
  - intros ->. by right.
  - intros H. by destruct seg.
Qed.

Lemma toString_nil (params : URLSearchParams.t) : toString params = [] <-> params = [].
Proof.
  split; [|by intros ->]. unfold toString. intros H.
  apply join_amp_nil in H as [H|H].
  - by destruct params.
  - destruct params as [|p [|q params]]; try done. simpl in H.
    injection H as H. unfold pair_segment in H. by destruct (encode p.1).
Qed.

(** What a page change writes.  For a page above 1 the parameters that are
    pushed hold [page] exactly once, as the numeral of that page, which for a
    page below 2^53 is its decimal numeral, and the pushed URL is a question
    mark followed by their serialisation; for a page of 1 or less they hold
    no [page] at all, and when nothing else is left the pushed URL is the
    empty string. *)
Theorem page_change_writes (location_search : list N) (newPage : Z) :
  ((1 < newPage)%Z ->
     getAll (handlePageChange_params location_search newPage) (js "page")
     = [JSString.Number_toString newPage]
     /\ ((newPage < 2 ^ 53)%Z ->
         decimal (JSString.Number_toString newPage) = Some (Z.to_N newPage))
     /\ handlePageChange location_search newPage
        = js "?" ++ toString (handlePageChange_params location_search newPage))
  /\ ((newPage <= 1)%Z ->
      getAll (handlePageChange_params location_search newPage) (js "page") = []
      /\ (delete (new location_search) (js "page") = [] ->
          handlePageChange location_search newPage = []))
  /\ (handlePageChange location_search newPage = []
      <-> handlePageChange_params location_search newPage = []).
Proof.
  split; [|split].
  - intros Hp. unfold handlePageChange, handlePageChange_params.
    destruct (Z.eqb_spec newPage 0); [lia|]. destruct (Z.gtb_spec newPage 1); [|lia].
    simpl. split; [apply getAll_set|].
    split; [intros Hsafe; apply decimal_Number_toString; lia|].
    destruct (toString _) eqn:E; [|done].
    apply toString_nil in E.
    pose proof (getAll_set (new location_search) (js "page")
                  (JSString.Number_toString newPage)) as G.
    by rewrite E in G.
  - intros Hp. unfold handlePageChange, handlePageChange_params.
    assert (negb (newPage =? 0)%Z && (newPage >? 1)%Z = false) as ->.
    { destruct (Z.eqb_spec newPage 0); [done|]. destruct (Z.gtb_spec newPage 1); [lia|done]. }
    split; [apply getAll_delete|]. by intros ->.
  - unfold handlePageChange. destruct (toString _) eqn:E.
    + split; [intros _; by apply toString_nil|done].
    + split; [done|]. intros H. rewrite H in E. done.
Qed.

Lemma page_change_writes_witness :
  getAll (handlePageChange_params (js "?search=widget&page=2") 12) (js "page") = [js "12"]
  /\ decimal (JSString.Number_toString 12) = Some 12%N
  /\ handlePageChange (js "?page=2") 1 = [].
Proof.
  destruct (page_change_writes (js "?search=widget&page=2") 12) as (H & _).
  destruct (page_change_writes (js "?page=2") 1) as (_ & H' & _).
  destruct H as (H1 & H2 & _); [reflexivity|].
  split; [exact H1|]. split.
  - apply H2. reflexivity.
  - apply H'; [|reflexivity]. intros G. inversion G.
Defined.

Lemma split_first_plain (sep : N) (s : list N) :
  Forall (fun c => c <> sep) s -> split_first sep s = (s, []).
Proof.
  induction 1 as [|c s Hc _ IH]; simpl; [done|].
  destruct (N.eqb_spec c sep); [done|]. by rewrite IH.
Qed.

(** The reset clears everything: at the URL that [handleResetFilters]
    pushes, the path of the current URL, there is no parameter at all; the
    status read there is [all], the first tab is the active one, and the
    path is the one it was. *)
Theorem reset_clears_all_parameters (url : list N) :
  useSearchParams (handleResetFilters (usePathname url)) = []
  /\ usePathname (handleResetFilters (usePathname url)) = usePathname url
  /\ currentStatus (useSearchParams (handleResetFilters (usePathname url))) = all
  /\ (forall props : StatusTabsProps,
        activeIndex (statuses props)
          (currentStatus (useSearchParams (handleResetFilters (usePathname url)))) = 0%Z).
Proof.
  assert (H : split_first 63 (usePathname url) = (usePathname url, [])).
  { apply split_first_plain. unfold usePathname. apply split_first_fst. }
  assert (G : useSearchParams (handleResetFilters (usePathname url)) = []).
  { unfold useSearchParams, handleResetFilters. by rewrite H. }
  split; [exact G|]. split.
  - unfold handleResetFilters. unfold usePathname at 1. by rewrite H.
  - rewrite G. done.
Qed.
End PageAndReset.

(** * The characters of a token *)

Section TokenCharacters.
Import CreateApiKey TokenChars.
Local Open Scope N_scope.

Lemma token_char_lookup (b : N) :
  exists c, token_char b = [c] /\ chars !! N.to_nat (b mod 62) = Some c.
Proof.
  unfold token_char, char_at. rewrite chars_length.
  change (N.of_nat 62) with 62.
  destruct (chars !! N.to_nat (b mod 62)) as [c|] eqn:E; [by exists c|].
  apply lookup_ge_None in E. rewrite chars_length in E. lia.
Qed.

Lemma concat_token_chars (bytes : list N) (i : nat) (b : N) :
  bytes !! i = Some b ->
  concat (map token_char bytes) !! i = chars !! N.to_nat (b mod 62).
Proof.
  revert i. induction bytes as [|x bytes IH]; intros i Hi; [done|].
  rewrite map_cons, concat_cons.
  destruct (token_char_lookup x) as (c & -> & Hc).
  destruct i as [|i]; simpl in *.
  - injection Hi as ->. by rewrite Hc.
  - by apply IH.
Qed.

(** Each character of the token comes from one byte of the random source:
    the character at position 3+i, for i below 32, is the character of the
    alphabet at index (byte i) mod 62, and the three before are [of_]. *)
Theorem token_character_of_byte (random : nat -> N) (i : nat) :
  (i < 32)%nat ->
  generateApiKeyToken random !! (3 + i)%nat
  = chars !! N.to_nat ((random i mod 256) mod 62)
  /\ is_Some (generateApiKeyToken random !! (3 + i)%nat)
  /\ take 3 (generateApiKeyToken random) = js "of_".
Proof.
  intros Hi. unfold generateApiKeyToken. rewrite fold_left_append, app_nil_l.
  change (fun b => char_at chars (b mod N.of_nat (length chars))) with token_char.
  assert (H : (js "of_" ++ concat (map token_char (getRandomValues random (replicate 32 0))))
              !! (3 + i)%nat = chars !! N.to_nat ((random i mod 256) mod 62)).
  { set (body := concat _). change ((js "of_" ++ body) !! (3 + i)%nat) with (body !! i).
    apply concat_token_chars. unfold getRandomValues.
    rewrite list_lookup_imap, lookup_replicate_2 by done. reflexivity. }
  split; [exact H|]. split; [|reflexivity].
  rewrite H. apply lookup_lt_is_Some. rewrite chars_length. lia.
Qed.

Lemma token_character_of_byte_witness :
  generateApiKeyToken (fun i => N.of_nat (7 * i + 250)) !! (3 + 1)%nat
  = chars !! N.to_nat ((N.of_nat (7 * 1 + 250) mod 256) mod 62).
Proof.
  apply (token_character_of_byte (fun i => N.of_nat (7 * i + 250)) 1). lia.
Defined.

(** The bytes are not spread evenly over the alphabet: of the 256 values of
    a byte, 5 give each of the first 8 characters (A to H) and 4 give each of
    the other 54. *)
Theorem token_character_bias (j : nat) (c : N) :
  chars !! j = Some c ->
  length (filter (fun b => token_char b = [c]) byte_values)
  = if (j <? 8)%nat then 5%nat else 4%nat.
Proof.
  intros H.
  assert (Hj : (j < 62)%nat) by (apply lookup_lt_Some in H; by rewrite chars_length in H).
  do 62 (destruct j as [|j]; [injection H as <-; vm_compute; reflexivity|]).
  lia.
Qed.

Lemma token_character_bias_witness :
  length (filter (fun b => token_char b = [65]) byte_values) = 5%nat
  /\ length (filter (fun b => token_char b = [57]) byte_values) = 4%nat.
Proof.
  split.
  - apply (token_character_bias 0 65). reflexivity.
  - apply (token_character_bias 61 57). reflexivity.
Defined.
End TokenCharacters.

(** * Trimming *)

Section Trim.
Import StringMethods.

Lemma trimStart_nil (s : list N) :
  trimStart s = [] <-> Forall (fun c => is_white_space c = true) s.
Proof.
  induction s as [|c s IH]; simpl; [done|].
  destruct (is_white_space c) eqn:E.
  - rewrite IH. split; [by constructor|by inversion 1].
  - split; [done|]. inversion 1. congruence.
Qed.

Lemma trimStart_head (s : list N) (c : N) (t : list N) :
  trimStart s = c :: t -> is_white_space c = false.
Proof.
  induction s as [|a s IH]; simpl; [done|].
  destruct (is_white_space a) eqn:E; [done|]. by intros [= <- _].
Qed.

Lemma trimStart_snoc (x : list N) (c : N) :
  is_white_space c = false -> exists t, trimStart (x ++ [c]) = t ++ [c].
Proof.
  intros Hc. induction x as [|a x IH]; simpl.
  - rewrite Hc. by exists [].
  - destruct (is_white_space a); [done|]. by exists (a :: x).
Qed.

(** [trim] gives the empty string exactly on a string of white space, and
    otherwise a string that neither begins nor ends with white space. *)
Lemma trim_spec (s : list N) :
  (trim s = [] <-> Forall (fun c => is_white_space c = true) s)
  /\ (trim s <> [] ->
      (exists c, head (trim s) = Some c /\ is_white_space c = false)
      /\ (exists d, last (trim s) = Some d /\ is_white_space d = false)).
Proof.
  unfold trim, trimEnd. destruct (trimStart s) as [|c t] eqn:E.
  - split; [|done]. split; [intros _; by apply trimStart_nil|done].
  - pose proof (trimStart_head _ _ _ E) as Hc.
    rewrite reverse_cons.
    destruct (trimStart_snoc (reverse t) c Hc) as (u & Hu).
    rewrite Hu, reverse_snoc. split.
    + split; [done|]. intros H. apply trimStart_nil in H. by rewrite H in E.
    + intros _. split; [by exists c|].
      rewrite <- reverse_snoc, <- Hu.
      destruct (trimStart (reverse t ++ [c])) as [|d v] eqn:F.
      { by destruct u. }
      exists d. split; [|by eapply trimStart_head].
      by rewrite last_reverse.
Qed.
End Trim.

(** * The API-key dialog *)

Section ApiKeyDialog.
Import StringMethods CreateApiKeyDialog.

Lemma handleSubmit_awaiting (random : nat -> N) (st st' : State) (input : ApiKeyInput) :
  handleSubmit random st = Awaiting st' input ->
  (exists c, c ∈ name (formData st) /\ is_white_space c = false)
  /\ input_name input = name (formData st)
  /\ input_scopes input = map value (scopes (formData st))
  /\ input_scopes input <> []
  /\ tokenSecret input = CreateApiKey.generateApiKeyToken random
  /\ (input_expiresAt input = None <-> expiresAt (formData st) = [])
  /\ st' = setLoading true st.
Proof.
  unfold handleSubmit. destruct (trim_spec (name (formData st))) as [Hnil _].
  destruct (trim (name (formData st))) as [|c t] eqn:E; [done|].
  simpl. destruct (scopes (formData st)) as [|o os] eqn:Es; [done|]. simpl.
  intros [= <- <-]. simpl.
  split; [|split; [done|split; [done|split; [done|split; [done|split; [|done]]]]]].
  - destruct (decide (Forall (fun c => is_white_space c = true) (name (formData st))))
      as [Hall|Hnot].
    + destruct Hnil as [_ Hn]. by specialize (Hn Hall).
    + apply not_Forall_Exists in Hnot; [|intros x; apply _].
      apply Exists_exists in Hnot as (x & Hx & Hw). exists x. split; [done|].
      by apply not_true_is_false.
  - by destruct (expiresAt (formData st)).
Qed.

(** What is sent to the server, and when nothing is.  A name of white space
    only, or no scope, stops [handleSubmit] with an error toast before
    anything is sent or the state is touched; when [createApiKey] is called,
    the name has a visible character and is sent as it was typed, there is at
    least one scope, the secret is a freshly generated token, an empty
    expiry is sent as undefined, and the state differs only in [loading]. *)
Theorem submit_validates (random : nat -> N) (st : State) :
  (Forall (fun c => is_white_space c = true) (name (formData st)) ->
     handleSubmit random st
     = Stopped [toast_error (js "Please enter a name for your API key")])
  /\ (scopes (formData st) = [] ->
      exists message, handleSubmit random st = Stopped [toast_error message])
  /\ (forall st' input, handleSubmit random st = Awaiting st' input ->
        (exists c, c ∈ name (formData st) /\ is_white_space c = false)
        /\ input_name input = name (formData st)
        /\ input_scopes input = map value (scopes (formData st))
        /\ input_scopes input <> []
        /\ tokenSecret input = CreateApiKey.generateApiKeyToken random
        /\ (input_expiresAt input = None <-> expiresAt (formData st) = [])
        /\ st' = setLoading true st).
Proof.
  split; [|split].
  - unfold handleSubmit. destruct (trim_spec (name (formData st))) as [Hnil _].
    intros Hws. apply Hnil in Hws. by rewrite Hws.
  - unfold handleSubmit. intros Hs.
    destruct (truthy (trim (name (formData st)))); simpl.
    + rewrite Hs. by eexists.
    + by eexists.
  - intros st' input. apply handleSubmit_awaiting.
Qed.

Lemma submit_validates_witness :
  handleSubmit (fun _ => 0%N)
    (onNameChange (js "  ") (handleScopeChange [{| value := js "read_orders";
                                                   label := js "read_orders" |}] initial))
  = Stopped [toast_error (js "Please enter a name for your API key")].
Proof.
  apply submit_validates. repeat constructor.
Defined.

Lemma run_snoc (events : list Event) (e : Event) :
  run (events ++ [e]) = step (run events) e.
Proof. unfold run. by rewrite fold_left_app. Qed.

(** What holds of the dialog after any sequence of events (opening and
    closing, typing, choosing scopes, submitting, calls settling in any
    order and with any outcome, copying): while the token view is shown, the
    token it shows is one that [generateApiKeyToken] made; [loading] is on
    only while a call of [createApiKey] has not settled; and every call
    that has not settled was made with a non-blank name, at least one scope,
    and a generated token as its secret. *)
Theorem dialog_invariant (events : list Event) :
  (showToken (state (run events)) = true ->
     exists random,
       createdToken (state (run events)) = CreateApiKey.generateApiKeyToken random)
  /\ (loading (state (run events)) = true -> pending (run events) <> [])
  /\ Forall (fun input =>
               (exists random, tokenSecret input = CreateApiKey.generateApiKeyToken random)
               /\ input_scopes input <> []
               /\ (exists c, c ∈ input_name input /\ is_white_space c = false))
            (pending (run events)).
Proof.
  induction events as [|e events IH] using rev_ind.
  - split; [done|]. split; [done|constructor].
  - rewrite run_snoc. destruct IH as (Htok & Hload & Hpend).
    set (w := run events) in *. destruct e; simpl.
    + unfold onOpenChange. destruct newOpen; simpl; [done|].
      split; [done|]. split; [exact Hload|exact Hpend].
    + done.
    + done.
    + done.
    + destruct (handleSubmit random (state w)) as [effects|st' input] eqn:E; simpl.
      * done.
      * destruct (handleSubmit_awaiting random (state w) st' input E)
          as (Hc & Hn & _ & Hs & Ht & _ & ->).
        simpl. split; [exact Htok|]. split; [intros _; by destruct (pending w)|].
        apply Forall_app. split; [done|]. constructor; [|constructor].
        split; [by eexists|]. split; [done|]. by rewrite Hn.
    + destruct (pending w !! i) as [input|] eqn:E; [|done].
      pose proof (Forall_lookup_1 _ _ _ _ Hpend E) as (Hi & _).
      unfold handleSubmit_settled.
      destruct outcome as [[|] error|]; simpl.
      * split; [intros _; exact Hi|]. split; [done|]. by apply Forall_delete.
      * split; [exact Htok|]. split; [done|]. by apply Forall_delete.
      * split; [exact Htok|]. split; [done|]. by apply Forall_delete.
    + split; [done|]. split; [exact Hload|exact Hpend].
    + done.
Qed.

Lemma dialog_invariant_witness :
  (exists random,
     createdToken
       (state (run [OpenChange true; NameChange (js "CI");
                    ScopeChange [{| value := js "read_orders"; label := js "read_orders" |}];
                    Submit (fun i => N.of_nat i); Settle 0 (Resolved true None)]))
     = CreateApiKey.generateApiKeyToken random)
  /\ pending (run [OpenChange true; NameChange (js "CI");
                   ScopeChange [{| value := js "read_orders"; label := js "read_orders" |}];
                   Submit (fun i => N.of_nat i)]) <> [].
Proof.
  split.
  - apply (dialog_invariant
             [OpenChange true; NameChange (js "CI");
              ScopeChange [{| value := js "read_orders"; label := js "read_orders" |}];
              Submit (fun i => N.of_nat i); Settle 0 (Resolved true None)]).
    reflexivity.
  - apply (dialog_invariant
             [OpenChange true; NameChange (js "CI");
              ScopeChange [{| value := js "read_orders"; label := js "read_orders" |}];
              Submit (fun i => N.of_nat i)]).
    reflexivity.
Defined.
End ApiKeyDialog.

Section ApiKeyDialogClosing.
Import StringMethods CreateApiKeyDialog.

(** Closing forgets the token.  The two ways of closing, [handleClose]
    (Cancel, Done) and the dialog's own close request, leave the same state:
    closed, no token view, no token, an empty form, [loading] as it was;
    closing twice is closing once; and opening changes nothing but
    [open]. *)
Theorem closing_forgets_token (st : State) :
  onOpenChange false st = handleClose st
  /\ handleClose st
     = {| open := false; loading := loading st; showToken := false; createdToken := [];
          formData := emptyForm |}
  /\ handleClose (handleClose st) = handleClose st
  /\ onOpenChange true st = setOpen true st.
Proof. by destruct st. Qed.

(** A call that settles after the dialog was closed still takes effect:
    when it succeeds, the token view and the token are set on the closed
    dialog, and the next opening shows that token over an empty form; when
    it fails or throws, the closed state is kept.  In each case [loading]
    ends up off. *)
Theorem settle_after_close (input : ApiKeyInput) (outcome : Outcome) (st : State) :
  let st' := (handleSubmit_settled input outcome (handleClose st)).1 in
  loading st' = false
  /\ open st' = false
  /\ formData st' = emptyForm
  /\ (forall error, outcome = Resolved true error ->
        showToken st' = true /\ createdToken st' = tokenSecret input
        /\ showToken (onOpenChange true st') = true
        /\ createdToken (onOpenChange true st') = tokenSecret input
        /\ formData (onOpenChange true st') = emptyForm)
  /\ ((forall error, outcome <> Resolved true error) ->
        showToken st' = false /\ createdToken st' = []).
Proof.
  destruct outcome as [[|] error|]; simpl.
  - do 3 (split; [done|]). split; [intros e _; by repeat split|].
    intros Hne. by destruct (Hne error).
  - do 3 (split; [done|]). split; [intros e Heq; discriminate Heq|]. by intros _.
  - do 3 (split; [done|]). split; [intros e Heq; discriminate Heq|]. by intros _.
Qed.

Lemma settle_after_close_witness :
  showToken (handleSubmit_settled
               {| input_name := js "CI"; input_scopes := [js "read_orders"];
                  input_expiresAt := None;
                  tokenSecret := CreateApiKey.generateApiKeyToken (fun _ => 0%N) |}
               (Resolved true None) (handleClose initial)).1 = true
  /\ showToken (handleSubmit_settled
               {| input_name := js "CI"; input_scopes := [js "read_orders"];
                  input_expiresAt := None;
                  tokenSecret := CreateApiKey.generateApiKeyToken (fun _ => 0%N) |}
               Rejected (handleClose initial)).1 = false.
Proof.
  split.
  - destruct (settle_after_close
                {| input_name := js "CI"; input_scopes := [js "read_orders"];
                   input_expiresAt := None;
                   tokenSecret := CreateApiKey.generateApiKeyToken (fun _ => 0%N) |}
                (Resolved true None) initial) as (_ & _ & _ & H & _).
    destruct (H None eq_refl) as (H1 & _). exact H1.
  - destruct (settle_after_close
                {| input_name := js "CI"; input_scopes := [js "read_orders"];
                   input_expiresAt := None;
                   tokenSecret := CreateApiKey.generateApiKeyToken (fun _ => 0%N) |}
                Rejected initial) as (_ & _ & _ & _ & H).
    destruct H as [H1 _]; [intros e; discriminate|exact H1].
Defined.
End ApiKeyDialogClosing.

(** * The apps page *)

Section AppsPage.
Import StringMethods URLSearchParams AppsPageClient.

Lemma find_available (appId : list N) :
  match find (fun a => bool_decide (id a = appId)) AVAILABLE_APPS with
  | Some app => app ∈ AVAILABLE_APPS /\ id app = appId
  | None => appId ∉ map id AVAILABLE_APPS
  end.
Proof.
  unfold AVAILABLE_APPS. simpl. repeat case_bool_decide; simpl.
  - split; [apply list_elem_of_here|done].
  - split; [apply list_elem_of_further, list_elem_of_here|done].
  - apply not_elem_of_cons. split; [done|].
    apply not_elem_of_cons. split; [done|]. apply not_elem_of_nil.
Qed.

(** [handleActivate] opens the dialog only for an app of the list: an
    unknown id leaves the state as it is; the id of a listed app selects
    that app, empties the URL field and opens the dialog, and touches
    nothing else. *)
Lemma activate_only_available (appId : list N) (st : State) :
  (appId ∉ map id AVAILABLE_APPS -> handleActivate appId st = st)
  /\ (appId ∈ map id AVAILABLE_APPS ->
      exists app, app ∈ AVAILABLE_APPS /\ id app = appId
        /\ handleActivate appId st
           = {| activatedApps := activatedApps st; isActivationDialogOpen := true;
                selectedApp := Some app; openshipUrl := [];
                isCreatingApp := isCreatingApp st |}).
Proof.
  unfold handleActivate. pose proof (find_available appId) as H.
  destruct (find _ AVAILABLE_APPS) as [app|].
  - destruct H as [Hin Hid]. split.
    + intros Hn. exfalso. apply Hn. rewrite <- Hid. by apply list_elem_of_fmap_2.
    + intros _. by exists app.
  - split; [done|]. intros Hin. by destruct H.
Qed.

Lemma activate_only_available_witness :
  handleActivate (js "openship-billing") initial = initial.
Proof.
  apply activate_only_available. apply (bool_decide_unpack _). vm_compute. exact I.
Defined.

Lemma handleCreateApp_awaiting (st st' : State) (app : AvailableApp) (input : OAuthAppInput) :
  handleCreateApp st = Awaiting st' app input ->
  selectedApp st = Some app
  /\ appType input = id app
  /\ input_openshipUrl input = trim (openshipUrl st)
  /\ input_openshipUrl input <> []
  /\ st' = setIsCreatingApp true st.
Proof.
  unfold handleCreateApp. destruct (selectedApp st) as [a|]; [|done].
  destruct (trim (openshipUrl st)) as [|c t] eqn:E; [done|]. simpl.
  intros [= <- <- <-]. done.
Qed.

(** [createOpenshipOAuthApp] is never called without a selected app or with
    a blank URL.  Without a selected app, or with a URL of white space only,
    [handleCreateApp] returns at once; when the call is made, it is for the
    selected app, and the URL sent is the trimmed one: not empty, white
    space neither first nor last. *)
Theorem create_app_guard (st : State) :
  (selectedApp st = None -> handleCreateApp st = Stopped)
  /\ (Forall (fun c => is_white_space c = true) (openshipUrl st) ->
      handleCreateApp st = Stopped)
  /\ (forall st' app input, handleCreateApp st = Awaiting st' app input ->
        selectedApp st = Some app
        /\ appType input = id app
        /\ input_openshipUrl input = trim (openshipUrl st)
        /\ (exists c, head (input_openshipUrl input) = Some c /\ is_white_space c = false)
        /\ (exists d, last (input_openshipUrl input) = Some d /\ is_white_space d = false)
        /\ st' = setIsCreatingApp true st).
Proof.
  split; [|split].
  - unfold handleCreateApp. by intros ->.
  - unfold handleCreateApp. intros H.
    destruct (trim_spec (openshipUrl st)) as [[_ Hn] _].
    destruct (selectedApp st); [|done]. by rewrite (Hn H).
  - intros st' app input H.
    destruct (handleCreateApp_awaiting _ _ _ _ H) as (H1 & H2 & H3 & H4 & H5).
    rewrite H3 in H4.
    destruct (trim_spec (openshipUrl st)) as [_ Hends]. destruct (Hends H4) as [Hh Hl].
    rewrite H3. done.
Qed.

Lemma create_app_guard_witness :
  handleCreateApp (setOpenshipUrl (js "   ") (handleActivate (js "openship-shop") initial))
  = Stopped.
Proof.
  destruct (create_app_guard
              (setOpenshipUrl (js "   ") (handleActivate (js "openship-shop") initial)))
    as (_ & H & _).
  apply H. repeat constructor.
Defined.

Lemma run_snoc_apps (href : list N) (events : list Event) (e : Event) :
  run href (events ++ [e]) = step (run href events) e.
Proof. unfold run. by rewrite fold_left_app. Qed.

(** What holds of the apps page after any sequence of events (activating,
    typing, opening and closing the dialog, creating, calls settling in any
    order and with any outcome, installing): every id marked as activated is
    the id of a listed app; the selected app, if any, and the app of every
    call that has not settled are listed apps; and [isCreatingApp] is on only
    while a call has not settled. *)
Theorem apps_invariant (href : list N) (events : list Event) :
  Forall (fun i => i ∈ map id AVAILABLE_APPS) (activatedApps (state (run href events)))
  /\ (forall app, selectedApp (state (run href events)) = Some app -> app ∈ AVAILABLE_APPS)
  /\ Forall (fun app => app ∈ AVAILABLE_APPS) (pending (run href events))
  /\ (isCreatingApp (state (run href events)) = true -> pending (run href events) <> []).
Proof.
  induction events as [|e events IH] using rev_ind.
  - split; [constructor|]. split; [done|]. split; [constructor|done].
  - rewrite run_snoc_apps. destruct IH as (Hact & Hsel & Hpend & Hbusy).
    set (w := run href events) in *. destruct e; simpl.
    + unfold handleActivate. pose proof (find_available appId) as H.
      destruct (find _ AVAILABLE_APPS) as [app|]; [|done].
      simpl. split; [done|]. split; [|done]. intros a [= <-]. by destruct H.
    + done.
    + done.
    + done.
    + destruct (handleCreateApp (state w)) as [|st' app input] eqn:E; [done|].
      destruct (handleCreateApp_awaiting _ _ _ _ E) as (Hs & _ & _ & _ & ->). simpl.
      split; [done|]. split; [done|]. split.
      * apply Forall_app. split; [done|]. constructor; [by apply Hsel|constructor].
      * intros _. by destruct (pending w).
    + destruct (pending w !! i) as [app|] eqn:E; [|done].
      pose proof (Forall_lookup_1 _ _ _ _ Hpend E) as Happ.
      unfold handleCreateApp_settled. destruct outcome as [[|] error|]; simpl.
      * split; [|split; [done|split; [by apply Forall_delete|done]]].
        apply Forall_app. split; [done|]. constructor; [|constructor].
        exact (list_elem_of_fmap_2 id _ _ Happ).
      * split; [done|]. split; [done|]. split; [by apply Forall_delete|done].
      * split; [done|]. split; [done|]. split; [by apply Forall_delete|done].
    + unfold handleInstall. destruct (redirectUris app) as [[|u us]|]; simpl.
      * done.
      * split; [constructor|]. split; [done|]. split; [constructor|done].
      * done.
Qed.
Lemma apps_invariant_witness :
  pending (run (js "/dashboard/platform/apps")
             [Activate (js "openship-shop"); UrlChange (js "https://openship.example");
              CreateApp]) <> []
  /\ Forall (fun i => i ∈ map id AVAILABLE_APPS)
       (activatedApps
          (state (run (js "/dashboard/platform/apps")
                    [Activate (js "openship-shop"); UrlChange (js "https://openship.example");
                     CreateApp; Settle 0 (Resolved true None)]))).
Proof.
  split.
  - apply (apps_invariant (js "/dashboard/platform/apps")
             [Activate (js "openship-shop"); UrlChange (js "https://openship.example");
              CreateApp]).
    reflexivity.
  - apply (apps_invariant (js "/dashboard/platform/apps")
             [Activate (js "openship-shop"); UrlChange (js "https://openship.example");
              CreateApp; Settle 0 (Resolved true None)]).
Defined.
End AppsPage.

Section Install.
Import StringMethods URLSearchParams AppsPageClient.

(** Rewrite what [getAll] gives for one name after the six [set]s. *)
Ltac getAll_sets :=
  repeat (first [ rewrite getAll_set
                | rewrite getAll_set_ne by (vm_compute; discriminate) ]).

(** What Install does.  Without a redirect URI it only shows an error: no
    URL is pushed and the page is not reloaded.  With one, it pushes the
    current path with parameters in which [install], [client_id], [scope],
    [redirect_uri], [response_type] and [state] each occur exactly once, with
    the values true, the client id, the scopes joined by spaces, the first
    redirect URI, code, and the state, and in which every other parameter of
    the current URL is kept; then it reloads.  The state parses as a JSON
    object with the members type, client_id, client_secret, app_name,
    adapter_slug and nonce, so the client secret travels in the URL. *)
Theorem install_pushes_oauth_parameters (app : ExistingApp) (href nonce : list N) :
  (redirectUris app = None \/ redirectUris app = Some [] ->
     handleInstall app href nonce
     = [toast_error (js "No redirect URI configured for this app")])
  /\ (forall u us, redirectUris app = Some (u :: us) ->
        handleInstall app href nonce
        = [history_pushState
             ((split_first 63 href).1 ++ js "?"
              ++ toString (handleInstall_params (u :: us) app href nonce));
           location_reload]
        /\ getAll (handleInstall_params (u :: us) app href nonce) (js "install") = [js "true"]
        /\ getAll (handleInstall_params (u :: us) app href nonce) (js "client_id")
           = [clientId app]
        /\ getAll (handleInstall_params (u :: us) app href nonce) (js "scope")
           = [join (js " ") (scopes app)]
        /\ getAll (handleInstall_params (u :: us) app href nonce) (js "redirect_uri") = [u]
        /\ getAll (handleInstall_params (u :: us) app href nonce) (js "response_type")
           = [js "code"]
        /\ getAll (handleInstall_params (u :: us) app href nonce) (js "state")
           = [install_state app nonce]
        /\ (forall other,
              other ∉ [js "install"; js "client_id"; js "scope"; js "redirect_uri";
                       js "response_type"; js "state"] ->
              getAll (handleInstall_params (u :: us) app href nonce) other
              = getAll (URL_searchParams href) other))
  /\ JSON.parse (install_state app nonce)
     = Some (JSONText.object_of
               [ (js "type", js "marketplace");
                 (js "client_id", clientId app);
                 (js "client_secret", clientSecret app);
                 (js "app_name", name app);
                 (js "adapter_slug", js "openfront");
                 (js "nonce", nonce) ]).
Proof.
  split; [|split].
  - unfold handleInstall. by intros [-> | ->].
  - intros u us Hu. unfold handleInstall. rewrite Hu.
    split; [reflexivity|]. unfold handleInstall_params.
    do 6 (split; [by getAll_sets|]).
    intros other Hother.
    repeat (apply not_elem_of_cons in Hother as [? Hother]).
    by rewrite !getAll_set_ne.
  - apply parse_stringify_object.
Qed.

Lemma install_pushes_oauth_parameters_witness :
  handleInstall
    {| app_id := js "1"; name := js "Openship"; app_description := None;
       clientId := js "abc"; clientSecret := js "s3cret"; redirectUris := Some [];
       scopes := [js "read_orders"; js "write_orders"]; status := active |}
    (js "/dashboard/platform/apps?tab=all") (js "0000")
  = [toast_error (js "No redirect URI configured for this app")]
  /\ getAll (handleInstall_params [js "https://openship.example/cb"]
               {| app_id := js "1"; name := js "Openship"; app_description := None;
                  clientId := js "abc"; clientSecret := js "s3cret";
                  redirectUris := Some [js "https://openship.example/cb"];
                  scopes := [js "read_orders"; js "write_orders"]; status := active |}
               (js "/dashboard/platform/apps?tab=all&scope=old") (js "0000"))
            (js "scope")
     = [js "read_orders write_orders"]
  /\ getAll (handleInstall_params [js "https://openship.example/cb"]
               {| app_id := js "1"; name := js "Openship"; app_description := None;
                  clientId := js "abc"; clientSecret := js "s3cret";
                  redirectUris := Some [js "https://openship.example/cb"];
                  scopes := [js "read_orders"; js "write_orders"]; status := active |}
               (js "/dashboard/platform/apps?tab=all&scope=old") (js "0000"))
            (js "tab")
     = [js "all"].
Proof.
  split; [|split].
  - apply install_pushes_oauth_parameters. by right.
  - destruct (install_pushes_oauth_parameters
                {| app_id := js "1"; name := js "Openship"; app_description := None;
                   clientId := js "abc"; clientSecret := js "s3cret";
                   redirectUris := Some [js "https://openship.example/cb"];
                   scopes := [js "read_orders"; js "write_orders"]; status := active |}
                (js "/dashboard/platform/apps?tab=all&scope=old") (js "0000"))
      as (_ & H & _).
    destruct (H (js "https://openship.example/cb") [] eq_refl) as (_ & _ & _ & Hs & _).
    exact Hs.
  - destruct (install_pushes_oauth_parameters
                {| app_id := js "1"; name := js "Openship"; app_description := None;
                   clientId := js "abc"; clientSecret := js "s3cret";
                   redirectUris := Some [js "https://openship.example/cb"];
                   scopes := [js "read_orders"; js "write_orders"]; status := active |}
                (js "/dashboard/platform/apps?tab=all&scope=old") (js "0000"))
      as (_ & H & _).
    destruct (H (js "https://openship.example/cb") [] eq_refl)
      as (_ & _ & _ & _ & _ & _ & _ & Ho).
    rewrite Ho; [vm_compute; reflexivity|].
    apply (bool_decide_unpack _). vm_compute. exact I.
Defined.
End Install.
